(** * vue-router: route table, matcher and navigation transitions

    A shallow embedding of the router sources
    ([create-route-map.js], [create-matcher.js], [history/base.js],
    [util/async.js], [util/resolve-components.js], [index.js]) together
    with the properties stated about them.

    Conventions of the embedding.
    - JavaScript objects used as dictionaries are [gmap string _]; arrays
      are lists.
    - Objects compared with [===] (route records, routes) carry an
      allocation stamp; [===] is equality of stamps.
    - User supplied functions (guards, redirect functions, lazy view
      factories) are opaque values with an identity; what they do when they
      are called is given by an oracle ([UserCode]).
    - Modules of the package that are not part of the sources at hand
      (path-to-regexp, [util/path], [util/params], [util/location],
      [util/route], the URL backends, the component runtime) are the fields
      of [Externals].
    - Observable calls to collaborators are appended to a trace of
      [Event]s. *)

From Stdlib Require Import String Ascii List ZArith Bool Lia.
From stdpp Require Import base option list strings gmap fin_maps pretty.

Set Warnings "-register-all".
Open Scope string_scope.
Open Scope list_scope.

(* ===================================================================== *)
(** ** JavaScript values that cross the modelled interfaces              *)
(* ===================================================================== *)

(** Truthiness of an optional string ([undefined] and [''] are falsy). *)
Definition truthy (s : option string) : bool :=
  match s with
  | Some s => negb (String.eqb s "")
  | None => false
  end.

(** [a || b] on optional strings. *)
Definition or_else (s : option string) (d : string) : string :=
  match s with
  | Some v => if String.eqb v "" then d else v
  | None => d
  end.

(** The value of a route parameter: a string, or [undefined]. *)
Abbreviation ParamValue := (option string).
Abbreviation Params := (gmap string (option string)).
Abbreviation Query := (list (string * string)).
Abbreviation Meta := (list (string * string)).

(** [Location] of the flow declarations: every field is optional. *)
Record Location := mkLocation {
  loc_normalized : bool;               (* _normalized *)
  loc_name : option string;
  loc_path : option string;
  loc_hash : option string;
  loc_query : option Query;
  loc_params : option Params;
  loc_append : bool;
  loc_replace : bool
}.

Definition emptyLocation : Location :=
  mkLocation false None None None None None false false.

Definition set_loc_params (l : Location) (p : option Params) : Location :=
  mkLocation (loc_normalized l) (loc_name l) (loc_path l) (loc_hash l)
             (loc_query l) p (loc_append l) (loc_replace l).

Definition set_loc_path (l : Location) (p : option string) : Location :=
  mkLocation (loc_normalized l) (loc_name l) p (loc_hash l)
             (loc_query l) (loc_params l) (loc_append l) (loc_replace l).

(** [RawLocation = string | Location]. *)
Inductive RawLocation :=
| RawString (s : string)
| RawObject (l : Location).

(** An [Error] object.  [err_duplicated] says that it is an instance of
    [NavigationDuplicated]. *)
Record ErrorObj := mkError {
  err_duplicated : bool;
  err_message : string
}.

(** The values a guard hands to its continuation, throws, or a factory
    rejects with. *)
Inductive JsValue :=
| JsUndefined
| JsBool (b : bool)
| JsString (s : string)
| JsNumber (z : Z)
| JsObject (l : Location)       (* a plain object, read as a location *)
| JsError (e : ErrorObj)
| JsFunction (f : nat).

(** Modelled from the spec: [isError] of util/warn.js, which is not among
    the sources.  "an error value (abort, propagate to error listeners)":
    exactly the [Error] objects. *)
Definition isError (v : JsValue) : bool :=
  match v with
  | JsError _ => true
  | _ => false
  end.

(** Modelled from the spec: [isExtendedError(NavigationDuplicated, err)] of
    util/warn.js and the class of history/errors.js, which are not among
    the sources.  "DuplicateNavigation (target equals current)" is an
    error of its own kind. *)
Definition isNavigationDuplicated (v : JsValue) : bool :=
  match v with
  | JsError e => err_duplicated e
  | _ => false
  end.

(* ===================================================================== *)
(** ** Compiled path patterns                                            *)
(* ===================================================================== *)

(** The name of a key of a compiled pattern: a string for [:name], a number
    for an unnamed group. *)
Inductive KeyName :=
| KeyNamed (s : string)
| KeyIndex (n : nat).

Record Key := mkKey {
  key_name : KeyName;
  key_optional : bool
}.

Record PathToRegexpOptions := mkPathToRegexpOptions {
  opt_strict : option bool;
  opt_sensitive : option bool;
  opt_end : option bool
}.

Definition noPathToRegexpOptions : PathToRegexpOptions :=
  mkPathToRegexpOptions None None None.

(** [RouteRegExp]: the regular expression object with its [keys].  The
    expression itself stays symbolic (source and options); running it is
    [regexp_match] of [Externals]. *)
Record RouteRegExp := mkRouteRegExp {
  re_source : string;
  re_options : PathToRegexpOptions;
  re_keys : list Key
}.

(* ===================================================================== *)
(** ** View definitions, declarations, records, routes                   *)
(* ===================================================================== *)

(** What [def.options[key]] holds for a route hook: one function or an
    array of functions. *)
Inductive GuardSpec :=
| GuardFn (g : nat)
| GuardArray (gs : list nat).

Record ComponentOptions := mkComponentOptions {
  beforeRouteLeave : option GuardSpec;
  beforeRouteUpdate : option GuardSpec;
  beforeRouteEnter : option GuardSpec
}.

Definition noHooks : ComponentOptions := mkComponentOptions None None None.

(** A view definition: an options object, a constructor (a function with a
    [cid]), or a factory (a function without [cid]). *)
Inductive ComponentDef :=
| CompOptions (o : ComponentOptions)
| CompConstructor (cid : nat) (o : ComponentOptions)
| CompFactory (f : nat).

(** The value of [redirect]: a string, an object, or anything else. *)
Record RedirectObj := mkRedirectObj {
  ro_name : option string;
  ro_path : option string;
  ro_query : option (option Query);      (* Some: own property *)
  ro_hash : option (option string);
  ro_params : option (option Params)
}.

Inductive RedirectVal :=
| RdString (s : string)
| RdObject (o : RedirectObj)
| RdOther (truthy : bool).                (* neither string nor object *)

Inductive RedirectOption :=
| RedirectTo (v : RedirectVal)
| RedirectFn (f : nat).

Inductive PropsOption :=
| PropsBool (b : bool)
| PropsObject (o : nat).

Inductive AliasOption :=
| AliasOne (a : string)
| AliasMany (l : list string).

(** [RouteConfig]: one node of the declaration tree. *)
Inductive RouteConfig := mkRouteConfig {
  rc_path : string;
  rc_name : option string;
  rc_component : option ComponentDef;
  rc_components : option (list (string * option ComponentDef));
  rc_redirect : option RedirectOption;
  rc_alias : option AliasOption;
  rc_children : option (list RouteConfig);
  rc_beforeEnter : option nat;
  rc_meta : option Meta;
  rc_props : option PropsOption;
  rc_caseSensitive : option bool;
  rc_pathToRegexpOptions : option PathToRegexpOptions
}.

Inductive RecordProps :=
| RecordPropsEmpty                         (* {} *)
| RecordPropsNamed (p : PropsOption)       (* route.props *)
| RecordPropsDefault (p : PropsOption).    (* { default: route.props } *)

(** [RouteRecord].  [rec_id] is the identity of the object.  The two slots
    that are written after creation ([components[key]] by the lazy view
    resolver, [instances] by the view layer) are read through the [Heap]
    below; [rec_components] is the value at creation. *)
Inductive RouteRecord := mkRouteRecord {
  rec_id : nat;
  rec_path : string;
  rec_regex : RouteRegExp;
  rec_components : list (string * option ComponentDef);
  rec_name : option string;
  rec_parent : option RouteRecord;
  rec_matchAs : option string;
  rec_redirect : option RedirectOption;
  rec_beforeEnter : option nat;
  rec_meta : Meta;
  rec_props : RecordProps
}.

(** [a === b] on record objects. *)
Definition same_record (a b : RouteRecord) : bool :=
  Nat.eqb (rec_id a) (rec_id b).

(** [a !== b] where either side may be [undefined] (an array read out of
    range). *)
Definition strict_neq (a b : option RouteRecord) : bool :=
  match a, b with
  | Some x, Some y => negb (same_record x y)
  | None, None => false
  | _, _ => true
  end.

(** [Route].  [rt_id] is the identity of the (frozen) object; it is set by
    whoever allocates the object. *)
Record Route := mkRoute {
  rt_id : nat;
  rt_name : option string;
  rt_meta : Meta;
  rt_path : string;
  rt_hash : string;
  rt_query : Query;
  rt_params : Params;
  rt_fullPath : string;
  rt_matched : list RouteRecord;
  rt_redirectedFrom : option string
}.

Definition same_route (a b : Route) : bool := Nat.eqb (rt_id a) (rt_id b).

Definition with_rt_id (i : nat) (r : Route) : Route :=
  mkRoute i (rt_name r) (rt_meta r) (rt_path r) (rt_hash r) (rt_query r)
          (rt_params r) (rt_fullPath r) (rt_matched r) (rt_redirectedFrom r).

(* ===================================================================== *)
(** ** Collaborators outside the sources, and user code                  *)
(* ===================================================================== *)

(** The modules the sources import and that are not among them.  Each
    field is the function of that name. *)
Class Externals := mkExternals {
  (** [process.env.NODE_ENV === 'production'] *)
  production : bool;
  (** path-to-regexp: [Regexp(path, [], options)] and [path.match(regex)]
      (the captured groups [m[1]], [m[2]], ...; [None] is no match). *)
  Regexp : string -> PathToRegexpOptions -> RouteRegExp;
  regexp_match : RouteRegExp -> string -> option (list (option string));
  decodeURIComponent : string -> string;
  (** util/path *)
  cleanPath : string -> string;
  resolvePath : string -> string -> bool -> string;
  (** util/params *)
  fillParams : string -> option Params -> string;
  (** util/location *)
  normalizeLocation : RawLocation -> option Route -> Location;
  (** util/query, util/route *)
  stringifyQuery : Query -> string;
  isSameRoute : Route -> Route -> bool;
  (** the component runtime: the options of [_Vue.extend(def)] *)
  Vue_extend : option ComponentOptions -> ComponentOptions;
  (** [typeof Promise !== 'undefined'] *)
  hasPromise : bool
}.

(** What a guard does when it is called with [(to, from, next)]: the
    arguments of its calls of [next], in order, and then either a normal
    return or a throw. *)
Record Behaviour := mkBehaviour {
  calls : list JsValue;
  throws : option JsValue
}.

(** What a factory resolves with: a module object with a [default] export,
    or the definition itself. *)
Inductive ResolvedVal :=
| ResolvedModule (default : ComponentDef)
| ResolvedPlain (def : ComponentDef).

Inductive FactoryAction :=
| CallResolve (v : ResolvedVal)
| CallReject (reason : JsValue).

(** What a factory does while [def(resolve, reject)] runs. *)
Record FactoryBehaviour := mkFactoryBehaviour {
  f_sync : list FactoryAction;
  f_throws : option JsValue
}.

(** The functions of the application, by identity: what each does when it
    is called.  What a factory does after [def(resolve, reject)] has
    returned (a later call of [resolve] or [reject], the settlement of a
    promise it returned and that was registered with [res.then(resolve,
    reject)]) is not part of its run: it is a later call, [later_call]
    below. *)
Class UserCode := mkUserCode {
  guard_run : nat -> Route -> Route -> Behaviour;
  redirect_run : nat -> Route -> RedirectVal;
  factory_run : nat -> FactoryBehaviour
}.

(* ===================================================================== *)
(** ** create-route-map.js                                               *)
(* ===================================================================== *)

(** The three lookup structures.  [nextRecord] is the allocation stamp the
    next record object gets. *)
Record RouteMap := mkRouteMap {
  pathList : list string;
  pathMap : gmap string RouteRecord;
  nameMap : gmap string RouteRecord;
  nextRecord : nat
}.

(** [path.replace(/\/$/, '')] *)
Fixpoint strip_trailing_slash (s : string) : string :=
  match s with
  | EmptyString => EmptyString
  | String c EmptyString => if Ascii.eqb c "/" then EmptyString else s
  | String c rest => String c (strip_trailing_slash rest)
  end.

(** [path[0] === '/'] *)
Definition starts_with_slash (s : string) : bool :=
  match s with
  | String c _ => Ascii.eqb c "/"
  | EmptyString => false
  end.

Definition is_true (b : option bool) : bool :=
  match b with Some true => true | _ => false end.

Section RouteMapBuilder.
Context {ext : Externals}.

Definition normalizePath (path : string) (parent : option RouteRecord)
    (strict : option bool) : string :=
  let path := if is_true strict then path else strip_trailing_slash path in
  if starts_with_slash path then path
  else match parent with
       | None => path
       | Some p => cleanPath (rec_path p ++ "/" ++ path)
       end.

(** The diagnostics about duplicate keys do not change the result. *)
Definition compileRouteRegex (path : string) (o : PathToRegexpOptions)
    : RouteRegExp :=
  Regexp path o.

(** The options object after
    [if (typeof route.caseSensitive === 'boolean') ... .sensitive = ...]. *)
Definition route_regexp_options (route : RouteConfig) : PathToRegexpOptions :=
  let o := default noPathToRegexpOptions (rc_pathToRegexpOptions route) in
  match rc_caseSensitive route with
  | Some b => mkPathToRegexpOptions (opt_strict o) (Some b) (opt_end o)
  | None => o
  end.

(** The object literal [const record: RouteRecord = {...}]. *)
Definition new_record (id : nat) (route : RouteConfig)
    (parent : option RouteRecord) (matchAs : option string) : RouteRecord :=
  let o := default noPathToRegexpOptions (rc_pathToRegexpOptions route) in
  let normalizedPath := normalizePath (rc_path route) parent (opt_strict o) in
  mkRouteRecord id normalizedPath
    (compileRouteRegex normalizedPath (route_regexp_options route))
    (match rc_components route with
     | Some cs => cs
     | None => [("default", rc_component route)]
     end)
    (rc_name route) parent matchAs (rc_redirect route) (rc_beforeEnter route)
    (default [] (rc_meta route))
    (match rc_props route with
     | None => RecordPropsEmpty
     | Some p => match rc_components route with
                 | Some _ => RecordPropsNamed p
                 | None => RecordPropsDefault p
                 end
     end).

Definition alloc_record (t : RouteMap) : RouteMap :=
  mkRouteMap (pathList t) (pathMap t) (nameMap t) (S (nextRecord t)).

(** [if (!pathMap[record.path]) { pathList.push(...); pathMap[...] = record }] *)
Definition register_path (record : RouteRecord) (t : RouteMap) : RouteMap :=
  match pathMap t !! rec_path record with
  | Some _ => t
  | None => mkRouteMap (pathList t ++ [rec_path record])
                       (<[rec_path record := record]> (pathMap t))
                       (nameMap t) (nextRecord t)
  end.

(** [if (name) { if (!nameMap[name]) nameMap[name] = record ... }] *)
Definition register_name (record : RouteRecord) (t : RouteMap) : RouteMap :=
  match rec_name record with
  | Some n =>
      if truthy (Some n) then
        match nameMap t !! n with
        | Some _ => t
        | None => mkRouteMap (pathList t) (pathMap t)
                             (<[n := record]> (nameMap t)) (nextRecord t)
        end
      else t
  | None => t
  end.

(** [matchAs ? cleanPath(`${matchAs}/${child.path}`) : undefined] *)
Definition childMatchAs (matchAs : option string) (child : RouteConfig)
    : option string :=
  if truthy matchAs
  then Some (cleanPath (default "" matchAs ++ "/" ++ rc_path child))
  else None.

(** [const aliasRoute = { path: alias, children: route.children }] *)
Definition aliasRoute (alias : string) (children : option (list RouteConfig))
    : RouteConfig :=
  mkRouteConfig alias None None None None None children None None None None None.

Definition alias_list (a : AliasOption) : list string :=
  match a with
  | AliasOne s => [s]
  | AliasMany l => l
  end.

(** The part of [addRouteRecord] up to and including the registration of
    the path, for a node whose children are visited by [kids]. *)
Definition add_node
    (kids : RouteRecord -> option string -> RouteMap -> RouteMap)
    (route : RouteConfig) (parent : option RouteRecord)
    (matchAs : option string) (t : RouteMap) : RouteRecord * RouteMap :=
  let record := new_record (nextRecord t) route parent matchAs in
  let t := alloc_record t in
  let t := match rc_children route with
           | Some _ => kids record matchAs t
           | None => t
           end in
  (record, register_path record t).

Fixpoint addRouteRecord (route : RouteConfig) (parent : option RouteRecord)
    (matchAs : option string) (t : RouteMap) {struct route} : RouteMap :=
  let kids := fun (record : RouteRecord) (matchAs : option string) (t : RouteMap) =>
    match rc_children route with
    | Some children =>
        fold_left (fun t child =>
                     addRouteRecord child (Some record)
                                    (childMatchAs matchAs child) t)
                  children t
    | None => t
    end in
  let '(record, t) := add_node kids route parent matchAs t in
  let t :=
    match rc_alias route with
    | Some a =>
        fold_left
          (fun t alias =>
             if negb production && String.eqb alias (rc_path route) then t
             else
               (* addRouteRecord(..., aliasRoute, parent, record.path || '/') *)
               snd (add_node kids (aliasRoute alias (rc_children route)) parent
                             (Some (or_else (Some (rec_path record)) "/")) t))
          (alias_list a) t
    | None => t
    end in
  register_name record t.

(** The loop that moves the wildcard entries to the end:
    [for (let i = 0, l = pathList.length; i < l; i++)
       if (pathList[i] === '*') { pathList.push(pathList.splice(i, 1)[0]); l--; i-- }].
    One unit of fuel is one iteration; [i] is the index the next
    iteration reads (after [i--] and [i++] it is [i] again). *)
Fixpoint pin_wildcards (fuel i l : nat) (pl : list string) : list string :=
  match fuel with
  | O => pl
  | S fuel =>
      if (i <? l)%nat then
        match pl !! i with
        | Some p =>
            if String.eqb p "*"
            then pin_wildcards fuel i (l - 1) (delete i pl ++ [p])
            else pin_wildcards fuel (i + 1) l pl
        | None => pin_wildcards fuel (i + 1) l pl
        end
      else pl
  end.

(** [routes.forEach(route => { addRouteRecord(pathList, pathMap, nameMap,
    route) })] *)
Definition addRouteRecords (routes : list RouteConfig) (t : RouteMap) : RouteMap :=
  fold_left (fun t route => addRouteRecord route None None t) routes t.

Definition createRouteMap (routes : list RouteConfig)
    (oldPathList : option (list string))
    (oldPathMap oldNameMap : option (gmap string RouteRecord))
    (heap : nat) : RouteMap :=
  let t := mkRouteMap (default [] oldPathList) (default ∅ oldPathMap)
                      (default ∅ oldNameMap) heap in
  let t := addRouteRecords routes t in
  mkRouteMap (pin_wildcards (length (pathList t)) 0 (length (pathList t)) (pathList t))
             (pathMap t) (nameMap t) (nextRecord t).

End RouteMapBuilder.

(* ===================================================================== *)
(** ** util/route.js (as far as the matcher and the history use it)      *)
(* ===================================================================== *)

(** What a modelled call does: it returns, it throws, or the fuel of the
    model ran out (the call does not return within the bound). *)
Inductive Result (A : Type) :=
| Returns (a : A)
| Throws (e : JsValue)
| OutOfFuel.
Arguments Returns {A} a.
Arguments Throws {A} e.
Arguments OutOfFuel {A}.

(** The [TypeError] of reading a property of [undefined]. *)
Definition TypeError (msg : string) : JsValue := JsError (mkError false msg).

(** Modelled from the spec: [formatMatch] of util/route.js, which is not
    among the sources.  "matched is the chain formed by walking parent
    links from the record up to the root and reversing." *)
Fixpoint formatMatch (record : RouteRecord) : list RouteRecord :=
  match record with
  | mkRouteRecord _ _ _ _ _ parent _ _ _ _ _ =>
      match parent with
      | Some p => formatMatch p ++ [record]
      | None => [record]
      end
  end.

Section CreateRoute.
Context {ext : Externals}.

(** Modelled from the spec: [getFullPath] of util/route.js.  "fullPath
    (path+query+hash)". *)
Definition getFullPath (l : Location) : string :=
  or_else (loc_path l) "/" ++ stringifyQuery (default [] (loc_query l))
          ++ default "" (loc_hash l).

(** Modelled from the spec: [createRoute] of util/route.js, which is not
    among the sources.  "Route: immutable result of a successful (or
    failed) match — path, name, params, query, hash, fullPath
    (path+query+hash), matched (ordered sequence of RouteRecord from root
    ancestor to leaf), optional redirectedFrom.  A failed match yields a
    Route with an empty matched chain and null record fields."  The
    object is not stamped here ([rt_id] 0); the history stamps the routes
    it compares by identity. *)
Definition createRoute (record : option RouteRecord) (location : Location)
    (redirectedFrom : option Location) : Route :=
  mkRoute 0
    (if truthy (loc_name location) then loc_name location
     else match record with Some r => rec_name r | None => None end)
    (match record with Some r => rec_meta r | None => [] end)
    (or_else (loc_path location) "/")
    (default "" (loc_hash location))
    (default [] (loc_query location))
    (default ∅ (loc_params location))
    (getFullPath location)
    (match record with Some r => formatMatch r | None => [] end)
    (getFullPath <$> redirectedFrom).

(** Modelled from the spec: the sentinel [START] of util/route.js.  "A
    designated sentinel Route (nowhere) is the initial current before any
    transition completes."  It is the object with stamp 0. *)
Definition START : Route :=
  createRoute None (set_loc_path emptyLocation (Some "/")) None.

End CreateRoute.

(* ===================================================================== *)
(** ** create-matcher.js                                                 *)
(* ===================================================================== *)

#[global] Instance KeyName_eq_dec : EqDecision KeyName.
Proof. solve_decision. Defined.

(** [key.name || 'pathMatch'], as a property name. *)
Definition param_key (k : Key) : string :=
  match key_name k with
  | KeyNamed s => or_else (Some s) "pathMatch"
  | KeyIndex O => "pathMatch"
  | KeyIndex n => pretty n
  end.

(** [record.redirect] is truthy. *)
Definition redirect_truthy (r : option RedirectOption) : bool :=
  match r with
  | None => false
  | Some (RedirectTo (RdString s)) => truthy (Some s)
  | Some (RedirectTo (RdObject _)) => true
  | Some (RedirectTo (RdOther b)) => b
  | Some (RedirectFn _) => true
  end.

Section Matcher.
Context {ext : Externals} {uc : UserCode}.

(** The body of the loop of [matchRoute], over the groups [m[i]] with
    [j = i - 1]. *)
Fixpoint fill_groups (keys : list Key) (groups : list (option string))
    (j : nat) (params : Params) : Params :=
  match groups with
  | [] => params
  | g :: rest =>
      let val := decodeURIComponent <$> g in
      let params := match keys !! j with
                    | Some key => <[param_key key := val]> params
                    | None => params
                    end in
      fill_groups keys rest (S j) params
  end.

(** [matchRoute(regex, path, params)]: the boolean it returns and the
    [params] object after the call. *)
Definition matchRoute (regex : RouteRegExp) (path : string)
    (params : option Params) : bool * option Params :=
  match regexp_match regex path with
  | None => (false, params)
  | Some m =>
      match params with
      | None => (true, None)
      | Some ps => (true, Some (fill_groups (re_keys regex) m 0 ps))
      end
  end.

(** [record.regex.keys.filter(key => !key.optional).map(key => key.name)] *)
Definition required_names (record : RouteRecord) : list KeyName :=
  map key_name (filter (fun key => key_optional key = false)
                       (re_keys (rec_regex record))).

(** The loop [for (const key in currentRoute.params) ...] of [match]. *)
Definition inherit_params (paramNames : list KeyName)
    (locParams curParams : Params) : Params :=
  map_fold (fun key v (acc : Params) =>
              if bool_decide (acc !! key = None)
                 && bool_decide (KeyNamed key ∈ paramNames)
              then <[key := v]> acc else acc)
           locParams curParams.

(** [resolveRecordPath(path, record)] *)
Definition resolveRecordPath (path : string) (record : RouteRecord) : string :=
  resolvePath path
              (match rec_parent record with
               | Some p => rec_path p
               | None => "/"
               end) true.

(** The scan [for (let i = 0; i < pathList.length; i++)] of [match]:
    the first record whose pattern matches, with the extracted
    parameters; a path of the list without a record is the [TypeError]
    of [record.regex]. *)
Fixpoint scan (pm : gmap string RouteRecord) (pl : list string)
    (path : string) : Result (option (RouteRecord * Params)) :=
  match pl with
  | [] => Returns None
  | p :: rest =>
      match pm !! p with
      | None => Throws (TypeError "Cannot read property 'regex' of undefined")
      | Some record =>
          match matchRoute (rec_regex record) path (Some ∅) with
          | (true, ps) => Returns (Some (record, default ∅ ps))
          | (false, _) => scan pm rest path
          end
      end
  end.

(** [redirect] as an object: a string becomes [{ path: redirect }]; what
    is neither is [None]. *)
Definition redirect_object (v : RedirectVal) : option RedirectObj :=
  match v with
  | RdString s => if truthy (Some s)
                  then Some (mkRedirectObj None (Some s) None None None)
                  else None
  | RdObject o => Some o
  | RdOther _ => None
  end.

Fixpoint match_ (fuel : nat) (t : RouteMap) (raw : RawLocation)
    (currentRoute : option Route) (redirectedFrom : option Location)
    {struct fuel} : Result Route :=
  match fuel with
  | O => OutOfFuel
  | S fuel =>
      let location := normalizeLocation raw currentRoute in
      if truthy (loc_name location) then
        match nameMap t !! default "" (loc_name location) with
        | None => _createRoute fuel t None location None
        | Some record =>
            let paramNames := required_names record in
            let params := default ∅ (loc_params location) in
            let params := match currentRoute with
                          | Some cur => inherit_params paramNames params (rt_params cur)
                          | None => params
                          end in
            let location := set_loc_params location (Some params) in
            let location :=
              set_loc_path location (Some (fillParams (rec_path record) (Some params))) in
            _createRoute fuel t (Some record) location redirectedFrom
        end
      else if truthy (loc_path location) then
        let location := set_loc_params location (Some ∅) in
        match scan (pathMap t) (pathList t) (default "" (loc_path location)) with
        | Returns (Some (record, params)) =>
            _createRoute fuel t (Some record)
                         (set_loc_params location (Some params)) redirectedFrom
        | Returns None => _createRoute fuel t None location None
        | Throws e => Throws e
        | OutOfFuel => OutOfFuel
        end
      else _createRoute fuel t None location None
  end

with _createRoute (fuel : nat) (t : RouteMap) (record : option RouteRecord)
    (location : Location) (redirectedFrom : option Location)
    {struct fuel} : Result Route :=
  match fuel with
  | O => OutOfFuel
  | S fuel =>
      match record with
      | Some r =>
          if redirect_truthy (rec_redirect r) then
            (* redirect(record, redirectedFrom || location) *)
            let location := default location redirectedFrom in
            let redirect :=
              match rec_redirect r with
              | Some (RedirectFn f) =>
                  redirect_object (redirect_run f (createRoute (Some r) location None))
              | Some (RedirectTo v) => redirect_object v
              | None => None
              end in
            match redirect with
            | None => _createRoute fuel t None location None
            | Some re =>
                let query := default (loc_query location) (ro_query re) in
                let hash := default (loc_hash location) (ro_hash re) in
                let params := default (loc_params location) (ro_params re) in
                if truthy (ro_name re) then
                  match_ fuel t
                    (RawObject (mkLocation true (ro_name re) None hash query
                                           params false false))
                    None (Some location)
                else if truthy (ro_path re) then
                  let rawPath := resolveRecordPath (default "" (ro_path re)) r in
                  let resolvedPath := fillParams rawPath params in
                  match_ fuel t
                    (RawObject (mkLocation true None (Some resolvedPath) hash
                                           query None false false))
                    None (Some location)
                else _createRoute fuel t None location None
            end
          else if truthy (rec_matchAs r) then
            (* alias(record, location, record.matchAs) *)
            let aliasedPath := fillParams (default "" (rec_matchAs r))
                                          (loc_params location) in
            match match_ fuel t
                    (RawObject (mkLocation true None (Some aliasedPath) None
                                           None None false false))
                    None None with
            | Returns aliasedMatch =>
                let aliasedRecord := last (rt_matched aliasedMatch) in
                _createRoute fuel t aliasedRecord
                  (set_loc_params location (Some (rt_params aliasedMatch))) None
            | Throws e => Throws e
            | OutOfFuel => OutOfFuel
            end
          else Returns (createRoute record location redirectedFrom)
      | None => Returns (createRoute record location redirectedFrom)
      end
  end.

(** [addRoutes] of the matcher: [createRouteMap(routes, pathList, pathMap,
    nameMap)] on the structures the matcher closes over. *)
Definition addRoutes (routes : list RouteConfig) (t : RouteMap) : RouteMap :=
  createRouteMap routes (Some (pathList t)) (Some (pathMap t))
                 (Some (nameMap t)) (nextRecord t).

(** [createMatcher(routes, router)]: the structures [match] and
    [addRoutes] close over. *)
Definition createMatcher (routes : list RouteConfig) (heap : nat) : RouteMap :=
  createRouteMap routes None None None heap.

End Matcher.

(* ===================================================================== *)
(** ** The state of a router and its history                             *)
(* ===================================================================== *)

(** The argument a callback is called with: the route of a completed
    navigation, or the value an aborted one ends with. *)
Inductive CbArg :=
| ArgRoute (r : Route)
| ArgValue (v : JsValue).

(** The [onComplete] and [onAbort] arguments: a function of the
    application, a capability of a promise made by [push] or [replace], or
    the function a URL backend wraps around [onComplete]. *)
Inductive Callback :=
| CbUser (f : nat)
| CbResolve (p : nat)
| CbReject (p : nat)
| CbBackend (replace : bool) (inner : option Callback).

Inductive PromiseState :=
| Pending
| Fulfilled (a : CbArg)
| Rejected (a : CbArg).

(** A function pushed on [postEnterCbs]: it polls the instance of slot
    [pe_key] of record [pe_record] for the callback [pe_cb]. *)
Record PostEnterCb := mkPostEnterCb {
  pe_cb : nat;
  pe_record : nat;
  pe_key : string
}.

(** Calls to collaborators, in the order they are made. *)
Inductive Event :=
| EvGuard (g : nat)                       (* a guard function is called *)
| EvFactory (f : nat)                     (* a factory is called *)
| EvEnsureURL (push : bool)               (* this.ensureURL(push) *)
| EvPush (to : JsValue)                   (* this.push(to), from a guard *)
| EvReplace (to : JsValue)                (* this.replace(to), from a guard *)
| EvBackend (replace : bool) (r : Route)  (* the backend records the route *)
| EvOnComplete (f : nat) (r : Route)
| EvOnAbort (f : nat) (a : CbArg)
| EvErrorCb (f : nat) (e : JsValue)       (* a listener of onError *)
| EvUncaughtWarning (e : JsValue)         (* warn(...); console.error(err) *)
| EvReadyCb (f : nat) (r : Route)
| EvReadyErrorCb (f : nat) (e : JsValue)
| EvListen (f : nat) (r : Route)          (* this.cb(route) *)
| EvAfterHook (f : nat) (to from : Route)
| EvNextTick (cbs : list PostEnterCb)     (* app.$nextTick(...) *)
| EvContinue (to : JsValue).              (* next(to), for a hook run on its
                                             own with a continuation that
                                             only records the call *)

(** The two closures of one discovered factory, with the flag of the
    [once] around each. *)
Record Cell := mkCell {
  cell_factory : nat;
  cell_record : nat;
  cell_key : string;
  cell_resolve_called : bool;
  cell_reject_called : bool
}.

(** The callbacks [transitionTo] was called with. *)
Record TransitionCbs := mkTransitionCbs {
  tc_onComplete : option Callback;
  tc_onAbort : option Callback
}.

(** The variables one call of the function returned by
    [resolveAsyncComponents] closes over, and the transition it belongs
    to. *)
Record Resolution := mkResolution {
  rs_route : Route;
  rs_from : Route;
  rs_activated : list RouteRecord;
  rs_cbs : TransitionCbs;
  rs_hasAsync : bool;
  rs_pending : Z;
  rs_error : option JsValue;
  rs_cells : list Cell
}.

(** A router with its history.  The heap part holds what is written into
    objects after their creation. *)
Record Router := mkRouter {
  (* VueRouter *)
  r_app : option nat;
  r_beforeHooks : list (option nat);
  r_resolveHooks : list (option nat);
  r_afterHooks : list (option nat);
  r_matcher : RouteMap;
  (* History *)
  h_current : Route;
  h_pending : option Route;
  h_cb : option nat;
  h_ready : bool;
  h_readyCbs : list nat;
  h_readyErrorCbs : list nat;
  h_errorCbs : list nat;
  (* the URL backend: what getCurrentLocation() returns *)
  h_location : string;
  (* heap *)
  hp_components : gmap (nat * string) ComponentDef;   (* record.components[key] *)
  hp_instances : gmap (nat * string) nat;             (* record.instances[key] *)
  hp_nextRoute : nat;                                 (* stamp of the next route *)
  hp_promises : list PromiseState;
  hp_resolutions : list Resolution;
  hp_postEnterCbs : list PostEnterCb;
  (* observations *)
  trace : list Event
}.

Definition set_matcher (t : RouteMap) (s : Router) : Router :=
  mkRouter (r_app s) (r_beforeHooks s) (r_resolveHooks s) (r_afterHooks s) t
    (h_current s) (h_pending s) (h_cb s) (h_ready s) (h_readyCbs s)
    (h_readyErrorCbs s) (h_errorCbs s) (h_location s) (hp_components s)
    (hp_instances s) (hp_nextRoute s) (hp_promises s) (hp_resolutions s)
    (hp_postEnterCbs s) (trace s).

Definition set_current (r : Route) (s : Router) : Router :=
  mkRouter (r_app s) (r_beforeHooks s) (r_resolveHooks s) (r_afterHooks s)
    (r_matcher s) r (h_pending s) (h_cb s) (h_ready s) (h_readyCbs s)
    (h_readyErrorCbs s) (h_errorCbs s) (h_location s) (hp_components s)
    (hp_instances s) (hp_nextRoute s) (hp_promises s) (hp_resolutions s)
    (hp_postEnterCbs s) (trace s).

Definition set_pending (r : option Route) (s : Router) : Router :=
  mkRouter (r_app s) (r_beforeHooks s) (r_resolveHooks s) (r_afterHooks s)
    (r_matcher s) (h_current s) r (h_cb s) (h_ready s) (h_readyCbs s)
    (h_readyErrorCbs s) (h_errorCbs s) (h_location s) (hp_components s)
    (hp_instances s) (hp_nextRoute s) (hp_promises s) (hp_resolutions s)
    (hp_postEnterCbs s) (trace s).

Definition set_ready (b : bool) (s : Router) : Router :=
  mkRouter (r_app s) (r_beforeHooks s) (r_resolveHooks s) (r_afterHooks s)
    (r_matcher s) (h_current s) (h_pending s) (h_cb s) b (h_readyCbs s)
    (h_readyErrorCbs s) (h_errorCbs s) (h_location s) (hp_components s)
    (hp_instances s) (hp_nextRoute s) (hp_promises s) (hp_resolutions s)
    (hp_postEnterCbs s) (trace s).

Definition set_components (c : gmap (nat * string) ComponentDef) (s : Router)
    : Router :=
  mkRouter (r_app s) (r_beforeHooks s) (r_resolveHooks s) (r_afterHooks s)
    (r_matcher s) (h_current s) (h_pending s) (h_cb s) (h_ready s) (h_readyCbs s)
    (h_readyErrorCbs s) (h_errorCbs s) (h_location s) c
    (hp_instances s) (hp_nextRoute s) (hp_promises s) (hp_resolutions s)
    (hp_postEnterCbs s) (trace s).

Definition set_nextRoute (n : nat) (s : Router) : Router :=
  mkRouter (r_app s) (r_beforeHooks s) (r_resolveHooks s) (r_afterHooks s)
    (r_matcher s) (h_current s) (h_pending s) (h_cb s) (h_ready s) (h_readyCbs s)
    (h_readyErrorCbs s) (h_errorCbs s) (h_location s) (hp_components s)
    (hp_instances s) n (hp_promises s) (hp_resolutions s)
    (hp_postEnterCbs s) (trace s).

Definition set_promises (ps : list PromiseState) (s : Router) : Router :=
  mkRouter (r_app s) (r_beforeHooks s) (r_resolveHooks s) (r_afterHooks s)
    (r_matcher s) (h_current s) (h_pending s) (h_cb s) (h_ready s) (h_readyCbs s)
    (h_readyErrorCbs s) (h_errorCbs s) (h_location s) (hp_components s)
    (hp_instances s) (hp_nextRoute s) ps (hp_resolutions s)
    (hp_postEnterCbs s) (trace s).

Definition set_resolutions (rs : list Resolution) (s : Router) : Router :=
  mkRouter (r_app s) (r_beforeHooks s) (r_resolveHooks s) (r_afterHooks s)
    (r_matcher s) (h_current s) (h_pending s) (h_cb s) (h_ready s) (h_readyCbs s)
    (h_readyErrorCbs s) (h_errorCbs s) (h_location s) (hp_components s)
    (hp_instances s) (hp_nextRoute s) (hp_promises s) rs
    (hp_postEnterCbs s) (trace s).

Definition set_postEnterCbs (cbs : list PostEnterCb) (s : Router) : Router :=
  mkRouter (r_app s) (r_beforeHooks s) (r_resolveHooks s) (r_afterHooks s)
    (r_matcher s) (h_current s) (h_pending s) (h_cb s) (h_ready s) (h_readyCbs s)
    (h_readyErrorCbs s) (h_errorCbs s) (h_location s) (hp_components s)
    (hp_instances s) (hp_nextRoute s) (hp_promises s) (hp_resolutions s)
    cbs (trace s).

Definition set_trace (t : list Event) (s : Router) : Router :=
  mkRouter (r_app s) (r_beforeHooks s) (r_resolveHooks s) (r_afterHooks s)
    (r_matcher s) (h_current s) (h_pending s) (h_cb s) (h_ready s) (h_readyCbs s)
    (h_readyErrorCbs s) (h_errorCbs s) (h_location s) (hp_components s)
    (hp_instances s) (hp_nextRoute s) (hp_promises s) (hp_resolutions s)
    (hp_postEnterCbs s) t.

(** One more observation. *)
Definition emit (e : Event) (s : Router) : Router :=
  set_trace (trace s ++ [e]) s.

Definition emit_all (es : list Event) (s : Router) : Router :=
  set_trace (trace s ++ es) s.

(** The result of running a piece of the history: the exception that
    escaped it, if any, and the state it left. *)
Definition Out : Type := option JsValue * Router.

Definition ok (s : Router) : Out := (None, s).

(* ===================================================================== *)
(** ** util/async.js                                                     *)
(* ===================================================================== *)

(** The functions that stand in a guard queue: a guard of the application
    (as registered, or wrapped by [bindGuard]), a [routeEnterGuard] made by
    [bindEnterGuard], or the function [resolveAsyncComponents] returns. *)
Inductive Hook :=
| HookGuard (g : nat)
| HookEnter (g : nat) (record : RouteRecord) (key : string)
| HookResolve (matched : list RouteRecord).

(** [runQueue(queue, fn, cb)].  [step(index)] is the function on the rest
    of the queue from [index]; the continuation handed to [fn] is
    [() => step(index + 1)]. *)
Fixpoint runQueue (queue : list (option Hook))
    (fn : Hook -> (Router -> Out) -> Router -> Out)
    (cb : Router -> Out) (s : Router) : Out :=
  match queue with
  | [] => cb s
  | Some hook :: rest => fn hook (runQueue rest fn cb) s
  | None :: rest => runQueue rest fn cb s
  end.

(* ===================================================================== *)
(** ** util/resolve-components.js                                        *)
(* ===================================================================== *)

(** [Array.prototype.concat.apply([], arr)], on an array whose elements
    are given as the lists they contribute. *)
Definition flatten {A : Type} (arr : list (list A)) : list A := concat arr.

(** [m.components], as the heap has it now. *)
Definition components_of (s : Router) (m : RouteRecord)
    : list (string * option ComponentDef) :=
  map (fun kd => (fst kd,
                  match hp_components s !! (rec_id m, fst kd) with
                  | Some d => Some d
                  | None => snd kd
                  end))
      (rec_components m).

(** [components[key]] *)
Fixpoint slot_lookup (key : string) (cs : list (string * option ComponentDef))
    : option ComponentDef :=
  match cs with
  | [] => None
  | (k, d) :: rest => if String.eqb k key then d else slot_lookup key rest
  end.

(** [flatMapComponents(matched, fn)] for an [fn] without effects: [fn]
    gets the definition, the instance, the record and the slot name. *)
Definition flatMapComponents {A : Type} (s : Router) (matched : list RouteRecord)
    (fn : option ComponentDef -> option nat -> RouteRecord -> string -> A) : list A :=
  flatten (map (fun m =>
                  map (fun kd => fn (snd kd) (hp_instances s !! (rec_id m, fst kd))
                                    m (fst kd))
                      (components_of s m))
               matched).

Definition js_truthy (v : JsValue) : bool :=
  match v with
  | JsUndefined => false
  | JsBool b => b
  | JsString s => negb (String.eqb s "")
  | JsNumber z => negb (Z.eqb z 0)
  | JsObject _ | JsError _ | JsFunction _ => true
  end.

(** The text of a value inside a template string. *)
Definition js_to_string (v : JsValue) : string :=
  match v with
  | JsUndefined => "undefined"
  | JsBool true => "true"
  | JsBool false => "false"
  | JsString s => s
  | JsNumber z => pretty z
  | JsObject _ => "[object Object]"
  | JsError e => ("Error: " ++ err_message e)%string
  | JsFunction _ => "function"
  end.

(** [isESModule(resolvedDef) ? resolvedDef.default : resolvedDef] *)
Definition unwrap_module (v : ResolvedVal) : ComponentDef :=
  match v with
  | ResolvedModule d => d
  | ResolvedPlain d => d
  end.

Definition set_resolution (n : nat) (rs : Resolution) (s : Router) : Router :=
  set_resolutions (<[n := rs]> (hp_resolutions s)) s.

Definition with_cells (cells : list Cell) (pending : Z) (error : option JsValue)
    (hasAsync : bool) (rs : Resolution) : Resolution :=
  mkResolution (rs_route rs) (rs_from rs) (rs_activated rs) (rs_cbs rs)
               hasAsync pending error cells.

Section ResolveComponents.
Context {uc : UserCode}.

(** A call of the [resolve] of cell [i] of resolution [n]:
    [once(resolvedDef => { ...; match.components[key] = resolvedDef;
    pending--; if (pending <= 0) next() })].  The write to
    [def.resolved] is left out: nothing in the sources reads it. *)
Definition resolve_call (n i : nat) (v : ResolvedVal)
    (next : JsValue -> Router -> Out) (s : Router) : Out :=
  match hp_resolutions s !! n with
  | None => ok s
  | Some rs =>
      match rs_cells rs !! i with
      | None => ok s
      | Some c =>
          if cell_resolve_called c then ok s
          else
            let c' := mkCell (cell_factory c) (cell_record c) (cell_key c)
                             true (cell_reject_called c) in
            let pending := (rs_pending rs - 1)%Z in
            let rs' := with_cells (<[i := c']> (rs_cells rs)) pending
                                  (rs_error rs) (rs_hasAsync rs) rs in
            let s := set_resolution n rs' s in
            let s := set_components
                       (<[(cell_record c, cell_key c) := unwrap_module v]>
                          (hp_components s)) s in
            if (pending <=? 0)%Z then next JsUndefined s else ok s
      end
  end.

(** A call of the [reject] of cell [i] of resolution [n]:
    [once(reason => { ...; if (!error) { error = isError(reason) ? reason
    : new Error(msg); next(error) } })]. *)
Definition reject_call (n i : nat) (reason : JsValue)
    (next : JsValue -> Router -> Out) (s : Router) : Out :=
  match hp_resolutions s !! n with
  | None => ok s
  | Some rs =>
      match rs_cells rs !! i with
      | None => ok s
      | Some c =>
          if cell_reject_called c then ok s
          else
            let c' := mkCell (cell_factory c) (cell_record c) (cell_key c)
                             (cell_resolve_called c) true in
            let cells := <[i := c']> (rs_cells rs) in
            match rs_error rs with
            | Some _ =>
                ok (set_resolution n
                      (with_cells cells (rs_pending rs) (rs_error rs)
                                  (rs_hasAsync rs) rs) s)
            | None =>
                let msg := ("Failed to resolve async component "
                            ++ cell_key c ++ ": " ++ js_to_string reason)%string in
                let error := if isError reason then reason
                             else JsError (mkError false msg) in
                next error
                     (set_resolution n
                        (with_cells cells (rs_pending rs) (Some error)
                                    (rs_hasAsync rs) rs) s)
            end
      end
  end.

Definition factory_call (n i : nat) (a : FactoryAction)
    (next : JsValue -> Router -> Out) (s : Router) : Out :=
  match a with
  | CallResolve v => resolve_call n i v next s
  | CallReject reason => reject_call n i reason next s
  end.

(** The calls a factory makes while it runs; an exception that escapes
    one of them ends the run of the factory. *)
Fixpoint factory_calls (n i : nat) (acts : list FactoryAction)
    (next : JsValue -> Router -> Out) (s : Router) : Out :=
  match acts with
  | [] => ok s
  | a :: rest =>
      match factory_call n i a next s with
      | (Some e, s) => (Some e, s)
      | (None, s) => factory_calls n i rest next s
      end
  end.

(** The function handed to [flatMapComponents] by
    [resolveAsyncComponents], for the slot [key] of record [m]. *)
Definition resolve_component (n : nat) (next : JsValue -> Router -> Out)
    (m : RouteRecord) (key : string) (s : Router) : Out :=
  match hp_resolutions s !! n with
  | None => ok s
  | Some rs =>
      match slot_lookup key (components_of s m) with
      | Some (CompFactory f) =>
          (* hasAsync = true; pending++; resolve = once(...); reject = once(...) *)
          let i := length (rs_cells rs) in
          let rs' := with_cells
                       (rs_cells rs ++ [mkCell f (rec_id m) key false false])
                       (rs_pending rs + 1)%Z (rs_error rs) true rs in
          let s := emit (EvFactory f) (set_resolution n rs' s) in
          (* try { res = def(resolve, reject) } catch (e) { reject(e) } *)
          match factory_calls n i (f_sync (factory_run f)) next s with
          | (Some e, s) => reject_call n i e next s
          | (None, s) =>
              match f_throws (factory_run f) with
              | Some e => reject_call n i e next s
              | None => ok s
              end
          end
      | _ => ok s
      end
  end.

(** The traversal [flatMapComponents(matched, (def, _, match, key) => ...)]
    of [resolveAsyncComponents], slot by slot; an exception that escapes a
    slot ends the traversal. *)
Fixpoint resolve_slots (n : nat) (next : JsValue -> Router -> Out)
    (slots : list (RouteRecord * string)) (s : Router) : Out :=
  match slots with
  | [] => ok s
  | (m, key) :: rest =>
      match resolve_component n next m key s with
      | (Some e, s) => (Some e, s)
      | (None, s) => resolve_slots n next rest s
      end
  end.

(** The slots in the order [flatMapComponents] visits them. *)
Definition slots_of (matched : list RouteRecord) : list (RouteRecord * string) :=
  flatten (map (fun m => map (fun kd => (m, fst kd)) (rec_components m)) matched).

(** [resolveAsyncComponents(matched)(to, from, next)].  [cbs] names the
    transition the call belongs to (it is what [next] closes over); the
    closures it creates are the cells of resolution
    [length (hp_resolutions s)]. *)
Definition resolveAsyncComponents (matched : list RouteRecord)
    (to from : Route) (cbs : TransitionCbs)
    (next : JsValue -> Router -> Out) (s : Router) : Out :=
  let n := length (hp_resolutions s) in
  let s := set_resolutions
             (hp_resolutions s
                ++ [mkResolution to from matched cbs false 0%Z None []]) s in
  match resolve_slots n next (slots_of matched) s with
  | (Some e, s) => (Some e, s)
  | (None, s) =>
      match hp_resolutions s !! n with
      | Some rs => if rs_hasAsync rs then ok s else next JsUndefined s
      | None => ok s
      end
  end.

End ResolveComponents.

(* ===================================================================== *)
(** ** history/base.js                                                   *)
(* ===================================================================== *)

(** [resolveQueue]: the loop [for (i = 0; i < max; i++) if (current[i] !==
    next[i]) break], one unit of fuel per iteration, then the three
    slices. *)
Fixpoint resolveQueue_index (fuel i : nat) (current next : list RouteRecord) : nat :=
  match fuel with
  | O => i
  | S fuel =>
      if strict_neq (current !! i) (next !! i) then i
      else resolveQueue_index fuel (S i) current next
  end.

Record QueueDiff := mkQueueDiff {
  updated : list RouteRecord;
  activated : list RouteRecord;
  deactivated : list RouteRecord
}.

Definition resolveQueue (current next : list RouteRecord) : QueueDiff :=
  let max := Nat.max (length current) (length next) in
  let i := resolveQueue_index max 0 current next in
  mkQueueDiff (take i next) (drop i next) (drop i current).

Inductive HookName := BeforeRouteLeave | BeforeRouteUpdate | BeforeRouteEnter.

Definition options_hook (o : ComponentOptions) (name : HookName) : option GuardSpec :=
  match name with
  | BeforeRouteLeave => beforeRouteLeave o
  | BeforeRouteUpdate => beforeRouteUpdate o
  | BeforeRouteEnter => beforeRouteEnter o
  end.

(** [this.pending !== route] is false. *)
Definition pending_is (route : Route) (s : Router) : bool :=
  match h_pending s with
  | Some p => same_route p route
  | None => false
  end.

(** A promise settles once. *)
Definition settle (p : nat) (v : PromiseState) (s : Router) : Router :=
  match hp_promises s !! p with
  | Some Pending => set_promises (<[p := v]> (hp_promises s)) s
  | _ => s
  end.

(** A call of an [onComplete] argument with the route. *)
Fixpoint call_complete (cb : Callback) (route : Route) (s : Router) : Router :=
  match cb with
  | CbUser f => emit (EvOnComplete f route) s
  | CbResolve p => settle p (Fulfilled (ArgRoute route)) s
  | CbReject p => settle p (Rejected (ArgRoute route)) s
  | CbBackend replace inner =>
      let s := emit (EvBackend replace route) s in
      match inner with
      | Some c => call_complete c route s
      | None => s
      end
  end.

(** A call of an [onAbort] argument with the value the navigation ends
    with. *)
Fixpoint call_abort (cb : Callback) (err : JsValue) (s : Router) : Router :=
  match cb with
  | CbUser f => emit (EvOnAbort f (ArgValue err)) s
  | CbResolve p => settle p (Fulfilled (ArgValue err)) s
  | CbReject p => settle p (Rejected (ArgValue err)) s
  | CbBackend _ inner =>
      match inner with
      | Some c => call_abort c err s
      | None => s
      end
  end.

(** The value of [to] sends the iterator into its second branch:
    [typeof to === 'string' || (typeof to === 'object' && (typeof to.path
    === 'string' || typeof to.name === 'string'))]. *)
Definition is_redirect (to : JsValue) : bool :=
  match to with
  | JsString _ => true
  | JsObject l => bool_decide (is_Some (loc_path l)) || bool_decide (is_Some (loc_name l))
  | _ => false
  end.

(** [typeof to === 'object' && to.replace] *)
Definition wants_replace (to : JsValue) : bool :=
  match to with
  | JsObject l => loc_replace l
  | _ => false
  end.

(** [to === false] *)
Definition is_false (to : JsValue) : bool :=
  match to with
  | JsBool false => true
  | _ => false
  end.

(** Modelled from the spec: the error made by [new
    NavigationDuplicated(route)] of history/errors.js, which is not among
    the sources.  "invoke onAbort with a navigation duplicated
    condition". *)
Definition NavigationDuplicated (route : Route) : JsValue :=
  JsError (mkError true ("Navigating to current location is not allowed: "
                         ++ rt_fullPath route)).

Section History.
Context {ext : Externals} {uc : UserCode}.

(** [extractGuard(def, key)]: a definition that is not a function is
    extended first; a factory has no [options], and reading a property
    of it throws ([inr]). *)
Definition extractGuard (def : option ComponentDef) (key : HookName)
    : option GuardSpec + JsValue :=
  match def with
  | None => inl (options_hook (Vue_extend None) key)
  | Some (CompOptions o) => inl (options_hook (Vue_extend (Some o)) key)
  | Some (CompConstructor _ o) => inl (options_hook o key)
  | Some (CompFactory _) =>
      inr (TypeError "Cannot read property of undefined (def.options)")
  end.

(** What one slot contributes to the array [extractGuards] flattens:
    [undefined] without a guard, the bound guard, or the bound guards of
    an array. *)
Definition slot_guards (name : HookName)
    (bind : nat -> option nat -> RouteRecord -> string -> option Hook)
    (def : option ComponentDef) (instance : option nat)
    (m : RouteRecord) (key : string) : list (option Hook) + JsValue :=
  match extractGuard def name with
  | inl (Some (GuardFn g)) => inl [bind g instance m key]
  | inl (Some (GuardArray gs)) => inl (map (fun g => bind g instance m key) gs)
  | inl None => inl [None]
  | inr e => inr e
  end.

(** The values of all slots, or the first exception. *)
Fixpoint all_returned {A : Type} (l : list (A + JsValue)) : list A + JsValue :=
  match l with
  | [] => inl []
  | inl a :: rest =>
      match all_returned rest with
      | inl r => inl (a :: r)
      | inr e => inr e
      end
  | inr e :: _ => inr e
  end.

Definition extractGuards (s : Router) (records : list RouteRecord)
    (name : HookName)
    (bind : nat -> option nat -> RouteRecord -> string -> option Hook)
    (reverse : bool) : list (option Hook) + JsValue :=
  match all_returned (flatMapComponents s records (slot_guards name bind)) with
  | inl guards => inl (flatten (if reverse then rev guards else guards))
  | inr e => inr e
  end.

(** [bindGuard(guard, instance)] *)
Definition bindGuard (guard : nat) (instance : option nat)
    (m : RouteRecord) (key : string) : option Hook :=
  match instance with
  | Some _ => Some (HookGuard guard)
  | None => None
  end.

Definition extractLeaveGuards (s : Router) (deactivated : list RouteRecord) :=
  extractGuards s deactivated BeforeRouteLeave bindGuard true.

Definition extractUpdateHooks (s : Router) (updated : list RouteRecord) :=
  extractGuards s updated BeforeRouteUpdate bindGuard false.

(** [bindEnterGuard(guard, match, key, cbs, isValid)] *)
Definition bindEnterGuard (guard : nat) (instance : option nat)
    (m : RouteRecord) (key : string) : option Hook :=
  Some (HookEnter guard m key).

Definition extractEnterGuards (s : Router) (activated : list RouteRecord) :=
  extractGuards s activated BeforeRouteEnter bindEnterGuard false.

(** [updateRoute(route)] *)
Definition updateRoute (route : Route) (s : Router) : Router :=
  let prev := h_current s in
  let s := set_current route s in
  let s := match h_cb s with
           | Some f => emit (EvListen f route) s
           | None => s
           end in
  emit_all (omap (fun hook => (fun f => EvAfterHook f route prev) <$> hook)
                 (r_afterHooks s)) s.

(** The first closure [transitionTo] hands to [confirmTransition]. *)
Definition transition_complete (cbs : TransitionCbs) (route : Route)
    (s : Router) : Router :=
  let s := updateRoute route s in
  let s := match tc_onComplete cbs with
           | Some cb => call_complete cb route s
           | None => s
           end in
  let s := emit (EvEnsureURL false) s in
  if h_ready s then s
  else emit_all (map (fun f => EvReadyCb f route) (h_readyCbs s))
                (set_ready true s).

(** The second closure [transitionTo] hands to [confirmTransition]. *)
Definition transition_abort (cbs : TransitionCbs) (err : JsValue)
    (s : Router) : Router :=
  let s := match tc_onAbort cbs with
           | Some cb => call_abort cb err s
           | None => s
           end in
  if js_truthy err && negb (h_ready s)
  then emit_all (map (fun f => EvReadyErrorCb f err) (h_readyErrorCbs s))
                (set_ready true s)
  else s.

(** [abort] of [confirmTransition]; [abort()] is [abort JsUndefined]. *)
Definition abort (cbs : TransitionCbs) (err : JsValue) (s : Router) : Router :=
  let s :=
    if negb (isNavigationDuplicated err) && isError err then
      match h_errorCbs s with
      | [] => emit (EvUncaughtWarning err) s
      | fs => emit_all (map (fun f => EvErrorCb f err) fs) s
      end
    else s in
  transition_abort cbs err s.

(** The calls of [next] a guard makes while it runs; an exception that
    escapes one of them ends the run of the guard. *)
Fixpoint guard_calls (args : list JsValue) (next : JsValue -> Router -> Out)
    (s : Router) : Out :=
  match args with
  | [] => ok s
  | to :: rest =>
      match next to s with
      | (Some e, s) => (Some e, s)
      | (None, s) => guard_calls rest next s
      end
  end.

(** A guard of the application runs with [(to, from, next)]. *)
Definition run_guard (g : nat) (to from : Route)
    (next : JsValue -> Router -> Out) (s : Router) : Out :=
  let b := guard_run g to from in
  match guard_calls (calls b) next (emit (EvGuard g) s) with
  | (Some e, s) => (Some e, s)
  | (None, s) => (throws b, s)
  end.

(** [hook(route, current, next)] for the three kinds of queue entry. *)
Definition run_hook (hook : Hook) (route current : Route) (cbs : TransitionCbs)
    (next : JsValue -> Router -> Out) (s : Router) : Out :=
  match hook with
  | HookGuard g => run_guard g route current next s
  | HookEnter g m key =>
      (* guard(to, from, cb => { if (typeof cb === 'function')
         cbs.push(...); next(cb) }) *)
      run_guard g route current
        (fun cb s =>
           next cb
                (match cb with
                 | JsFunction f =>
                     set_postEnterCbs
                       (hp_postEnterCbs s ++ [mkPostEnterCb f (rec_id m) key]) s
                 | _ => s
                 end))
        s
  | HookResolve matched =>
      resolveAsyncComponents matched route current cbs next s
  end.

(** The function the iterator hands to the hook as its continuation. *)
Definition iterator_next (cbs : TransitionCbs) (next : Router -> Out)
    (to : JsValue) (s : Router) : Out :=
  if is_false to || isError to then
    ok (abort cbs to (emit (EvEnsureURL true) s))
  else if is_redirect to then
    let s := abort cbs JsUndefined s in
    if wants_replace to then ok (emit (EvReplace to) s)
    else ok (emit (EvPush to) s)
  else next s.

(** [iterator] of [confirmTransition]. *)
Definition iterator (route current : Route) (cbs : TransitionCbs)
    (hook : Hook) (next : Router -> Out) (s : Router) : Out :=
  if negb (pending_is route s) then ok (abort cbs JsUndefined s)
  else
    match run_hook hook route current cbs (iterator_next cbs next) s with
    | (Some e, s) => ok (abort cbs e s)
    | (None, s) => ok s
    end.

(** The callback of the second [runQueue]. *)
Definition confirm (route : Route) (cbs : TransitionCbs) (s : Router) : Out :=
  if negb (pending_is route s) then ok (abort cbs JsUndefined s)
  else
    let s := set_pending None s in
    let s := transition_complete cbs route s in
    ok (match r_app s with
        | Some _ => emit (EvNextTick (hp_postEnterCbs s)) s
        | None => s
        end).

(** The callback of the first [runQueue]. *)
Definition enter_phase (route current : Route) (cbs : TransitionCbs)
    (activated : list RouteRecord) (s : Router) : Out :=
  let s := set_postEnterCbs [] s in
  match extractEnterGuards s activated with
  | inl enterGuards =>
      let queue := enterGuards ++ map (fmap HookGuard) (r_resolveHooks s) in
      runQueue queue (iterator route current cbs) (confirm route cbs) s
  | inr e => (Some e, s)
  end.

(** [const queue = [].concat(extractLeaveGuards(deactivated),
    this.router.beforeHooks, extractUpdateHooks(updated),
    activated.map(m => m.beforeEnter), resolveAsyncComponents(activated))],
    or the exception that escapes the extraction. *)
Definition guard_queue (s : Router) (d : QueueDiff)
    : list (option Hook) + JsValue :=
  match extractLeaveGuards s (deactivated d) with
  | inl leave =>
      match extractUpdateHooks s (updated d) with
      | inl update =>
          inl (leave
               ++ map (fmap HookGuard) (r_beforeHooks s)
               ++ update
               ++ map (fun m => HookGuard <$> rec_beforeEnter m) (activated d)
               ++ [Some (HookResolve (activated d))])
      | inr e => inr e
      end
  | inr e => inr e
  end.

Definition confirmTransition (route : Route) (cbs : TransitionCbs)
    (s : Router) : Out :=
  let current := h_current s in
  if isSameRoute route current
     && (length (rt_matched route) =? length (rt_matched current))%nat
  then ok (abort cbs (NavigationDuplicated route) (emit (EvEnsureURL false) s))
  else
    let d := resolveQueue (rt_matched (h_current s)) (rt_matched route) in
    match guard_queue s d with
    | inl queue =>
        let s := set_pending (Some route) s in
        runQueue queue (iterator route current cbs)
                 (enter_phase route current cbs (activated d)) s
    | inr e => (Some e, s)
    end.

(** The end of a call into the history: it returned, an exception
    escaped it, or the model ran out of fuel. *)
Inductive Run :=
| Normal (s : Router)
| Thrown (e : JsValue) (s : Router)
| NoFuel.

Definition run_of (o : Out) : Run :=
  match o with
  | (Some e, s) => Thrown e s
  | (None, s) => Normal s
  end.

(** [transitionTo(location, onComplete, onAbort)].  The route [match]
    returns is a new object: it gets the next stamp. *)
Definition transitionTo (fuel : nat) (location : RawLocation)
    (onComplete onAbort : option Callback) (s : Router) : Run :=
  match match_ fuel (r_matcher s) location (Some (h_current s)) None with
  | Returns route =>
      let route := with_rt_id (hp_nextRoute s) route in
      let s := set_nextRoute (S (hp_nextRoute s)) s in
      run_of (confirmTransition route (mkTransitionCbs onComplete onAbort) s)
  | Throws e => Thrown e s
  | OutOfFuel => NoFuel
  end.

(** A call, after the discovery pass has returned, of a closure handed to
    the [i]-th factory of resolution [n]: the continuation is the one the
    hook was given, the iterator's, in front of the callback of the first
    [runQueue]. *)
Definition later_call (n i : nat) (a : FactoryAction) (s : Router) : Out :=
  match hp_resolutions s !! n with
  | Some rs =>
      factory_call n i a
        (iterator_next (rs_cbs rs)
           (enter_phase (rs_route rs) (rs_from rs) (rs_cbs rs) (rs_activated rs)))
        s
  | None => ok s
  end.

End History.

(* ===================================================================== *)
(** ** index.js                                                          *)
(* ===================================================================== *)

(** What a method call evaluates to. *)
Inductive Returned :=
| RetUndefined
| RetPromise (p : nat).

Module VueRouter.
Section Methods.
Context {ext : Externals} {uc : UserCode}.

(** Modelled from the spec: [push] of the URL backends
    (history/html5.js, hash.js, abstract.js), which are not among the
    sources.  "transitionTo ... must be invoked through the URL-backend
    collaborator": the backend calls [transitionTo] with the location, a
    function that records the new route with the backend and then calls
    [onComplete], and [onAbort]. *)
Definition history_push (fuel : nat) (location : RawLocation)
    (onComplete onAbort : option Callback) (s : Router) : Run :=
  transitionTo fuel location (Some (CbBackend false onComplete)) onAbort s.

(** Modelled from the spec: [replace] of the URL backends, as
    [history_push]. *)
Definition history_replace (fuel : nat) (location : RawLocation)
    (onComplete onAbort : option Callback) (s : Router) : Run :=
  transitionTo fuel location (Some (CbBackend true onComplete)) onAbort s.

(** [new Promise((resolve, reject) => { body(resolve, reject) })]: the
    executor runs at once; an exception that escapes it rejects the
    promise. *)
Definition new_Promise (body : Callback -> Callback -> Router -> Run)
    (s : Router) : Returned * Run :=
  let p := length (hp_promises s) in
  let s := set_promises (hp_promises s ++ [Pending]) s in
  (RetPromise p,
   match body (CbResolve p) (CbReject p) s with
   | Normal s => Normal s
   | Thrown e s => Normal (settle p (Rejected (ArgValue e)) s)
   | NoFuel => NoFuel
   end).

Definition push (fuel : nat) (location : RawLocation)
    (onComplete onAbort : option Callback) (s : Router) : Returned * Run :=
  if negb (bool_decide (is_Some onComplete))
     && negb (bool_decide (is_Some onAbort)) && hasPromise
  then new_Promise (fun resolve reject =>
                      history_push fuel location (Some resolve) (Some reject)) s
  else (RetUndefined, history_push fuel location onComplete onAbort s).

Definition replace (fuel : nat) (location : RawLocation)
    (onComplete onAbort : option Callback) (s : Router) : Returned * Run :=
  if negb (bool_decide (is_Some onComplete))
     && negb (bool_decide (is_Some onAbort)) && hasPromise
  then new_Promise (fun resolve reject =>
                      history_replace fuel location (Some resolve) (Some reject)) s
  else (RetUndefined, history_replace fuel location onComplete onAbort s).

(** [this.history.getCurrentLocation()] *)
Definition getCurrentLocation (s : Router) : RawLocation :=
  RawString (h_location s).

Definition addRoutes (fuel : nat) (routes : list RouteConfig) (s : Router) : Run :=
  let s := set_matcher (addRoutes routes (r_matcher s)) s in
  if negb (same_route (h_current s) START)
  then transitionTo fuel (getCurrentLocation s) None None s
  else Normal s.

End Methods.
End VueRouter.

(* ===================================================================== *)
(** ** A concrete environment for closed examples                        *)
(* ===================================================================== *)

(** Modelled from the spec: the helpers of path-to-regexp, util/path,
    util/params, util/location and util/route, which are not among the
    sources, on the fragment the examples below use: absolute paths made
    of static segments, [:name] and [:name?] segments, and the pattern
    ["*"]; locations without a query string; parameter values that need no
    percent-escape.  "Compiles the normalized path into a
    positional-parameter pattern with a keys list (name, optional-flag)";
    "relative paths are concatenated with the parent's normalized path and
    slash-cleaned"; "Fill the record's path template with the resolved
    params"; "an unnamed capture (wildcard) is assigned a default key
    pathMatch".  Outside the fragment a pattern matches nothing. *)
Module Sample.

(** [s.split(c)] *)
Fixpoint split_on (c : ascii) (s : string) : list string :=
  match s with
  | EmptyString => [EmptyString]
  | String a rest =>
      if Ascii.eqb a c then EmptyString :: split_on c rest
      else match split_on c rest with
           | seg :: segs => String a seg :: segs
           | [] => [String a EmptyString]
           end
  end.

(** [segs.join('/')] *)
Fixpoint join_slash (segs : list string) : string :=
  match segs with
  | [] => ""
  | [seg] => seg
  | seg :: rest => (seg ++ "/" ++ join_slash rest)%string
  end.

(** The part of [s] before the first [c], and the part from it on. *)
Fixpoint break_at (c : ascii) (s : string) : string * string :=
  match s with
  | EmptyString => (EmptyString, EmptyString)
  | String a rest =>
      if Ascii.eqb a c then (EmptyString, s)
      else let '(l, r) := break_at c rest in (String a l, r)
  end.

Fixpoint contains (c : ascii) (s : string) : bool :=
  match s with
  | EmptyString => false
  | String a rest => Ascii.eqb a c || contains c rest
  end.

Definition lower (a : ascii) : ascii :=
  let n := nat_of_ascii a in
  if (65 <=? n)%nat && (n <=? 90)%nat then ascii_of_nat (n + 32) else a.

Fixpoint lower_string (s : string) : string :=
  match s with
  | EmptyString => EmptyString
  | String a rest => String (lower a) (lower_string rest)
  end.

Inductive Token :=
| Static (s : string)
| Param (name : string) (optional : bool)
| Star.

(** The last character of [s] is [c]: the rest, without it. *)
Fixpoint strip_last (c : ascii) (s : string) : option string :=
  match s with
  | EmptyString => None
  | String a EmptyString => if Ascii.eqb a c then Some EmptyString else None
  | String a rest => String a <$> strip_last c rest
  end.

Definition plain (s : string) : bool :=
  negb (contains ":" s || contains "*" s || contains "(" s || contains ")" s
        || contains "?" s || contains "+" s) && negb (String.eqb s "").

Definition token_of (seg : string) : option Token :=
  match seg with
  | String ":" name =>
      match strip_last "?" name with
      | Some n => if plain n then Some (Param n true) else None
      | None => if plain name then Some (Param name false) else None
      end
  | _ => if plain seg then Some (Static seg) else None
  end.

(** The tokens of a pattern of the fragment. *)
Definition tokens (path : string) : option (list Token) :=
  if String.eqb path "*" then Some [Star]
  else match split_on "/" path with
       | "" :: segs => mapM token_of segs
       | _ => None
       end.

Definition key_of (t : Token) : option Key :=
  match t with
  | Static _ => None
  | Param n o => Some (mkKey (KeyNamed n) o)
  | Star => Some (mkKey (KeyIndex 0) false)
  end.

Definition sample_Regexp (path : string) (o : PathToRegexpOptions) : RouteRegExp :=
  mkRouteRegExp path o (omap key_of (default [] (tokens path))).

Fixpoint match_tokens (sensitive strict : bool) (ts : list Token)
    (segs : list string) : option (list (option string)) :=
  match ts with
  | [] =>
      match segs with
      | [] => Some []
      | [""] => if strict then None else Some []
      | _ => None
      end
  | Static t :: ts' =>
      match segs with
      | seg :: segs' =>
          if (if sensitive then String.eqb seg t
              else String.eqb (lower_string seg) (lower_string t))
          then match_tokens sensitive strict ts' segs'
          else None
      | [] => None
      end
  | Param _ optional :: ts' =>
      let present :=
        match segs with
        | seg :: segs' =>
            if String.eqb seg "" then None
            else (fun m => Some seg :: m) <$> match_tokens sensitive strict ts' segs'
        | [] => None
        end in
      match present with
      | Some m => Some m
      | None => if optional
                then (fun m => None :: m) <$> match_tokens sensitive strict ts' segs
                else None
      end
  | Star :: _ => None
  end.

Definition sample_regexp_match (re : RouteRegExp) (path : string)
    : option (list (option string)) :=
  match opt_end (re_options re) with
  | Some false => None
  | _ =>
      match tokens (re_source re) with
      | Some [Star] => Some [Some path]
      | Some ts =>
          match split_on "/" path with
          | "" :: segs =>
              match_tokens (is_true (opt_sensitive (re_options re)))
                           (is_true (opt_strict (re_options re))) ts segs
          | _ => None
          end
      | None => None
      end
  end.

(** [path.replace(/\/\//g, '/')] *)
Fixpoint sample_cleanPath (path : string) : string :=
  match path with
  | String "/" (String "/" rest) => String "/" (sample_cleanPath rest)
  | String a rest => String a (sample_cleanPath rest)
  | EmptyString => EmptyString
  end.

Definition pop (stack : list string) : list string :=
  take (length stack - 1) stack.

Definition sample_resolvePath (relative base : string) (append : bool) : string :=
  match relative with
  | String "/" _ => relative
  | String "?" _ | String "#" _ => (base ++ relative)%string
  | _ =>
      let stack := split_on "/" base in
      let stack := if negb append || bool_decide (last stack = Some "")
                   then pop stack else stack in
      let stack :=
        fold_left (fun st seg =>
                     if String.eqb seg ".." then pop st
                     else if String.eqb seg "." then st
                     else st ++ [seg])
                  (split_on "/" relative) stack in
      let stack := match stack with
                   | "" :: _ => stack
                   | _ => "" :: stack
                   end in
      join_slash stack
  end.

(** The text one token contributes; [None] is a missing parameter. *)
Definition fill_token (params : Params) (t : Token) : option string :=
  match t with
  | Static s => Some ("/" ++ s)%string
  | Param n optional =>
      match params !! n with
      | Some (Some v) => Some ("/" ++ v)%string
      | _ => if optional then Some "" else None
      end
  | Star =>
      match params !! "pathMatch" with
      | Some (Some v) => Some v
      | _ => None
      end
  end.

Definition sample_fillParams (path : string) (params : option Params) : string :=
  match tokens path with
  | Some ts =>
      match mapM (fill_token (default ∅ params)) ts with
      | Some parts => fold_right String.append "" parts
      | None => ""
      end
  | None => ""
  end.

Definition sample_stringifyQuery (q : Query) : string :=
  match q with
  | [] => ""
  | _ => ("?" ++ fold_right (fun kv acc =>
                               (fst kv ++ "=" ++ snd kv
                                ++ (if String.eqb acc "" then "" else "&") ++ acc)%string)
                            "" q)%string
  end.

Definition sample_normalizeLocation (raw : RawLocation) (current : option Route)
    : Location :=
  let next := match raw with
              | RawString s => set_loc_path emptyLocation (Some s)
              | RawObject l => l
              end in
  if loc_normalized next then next
  else if truthy (loc_name next) then next
  else
    let '(before_hash, hash') := break_at "#" (default "" (loc_path next)) in
    let '(path', _) := break_at "?" before_hash in
    let basePath := or_else (rt_path <$> current) "/" in
    let path := if String.eqb path' "" then basePath
                else sample_resolvePath path' basePath (loc_append next) in
    let hash := or_else (loc_hash next) hash' in
    let hash := match hash with
                | EmptyString | String "#" _ => hash
                | _ => ("#" ++ hash)%string
                end in
    mkLocation true None (Some path) (Some hash)
               (Some (default [] (loc_query next))) None false false.

Definition sample_isSameRoute (a b : Route) : bool :=
  if Nat.eqb (rt_id b) 0 then same_route a b
  else String.eqb (strip_trailing_slash (rt_path a)) (strip_trailing_slash (rt_path b))
       && String.eqb (rt_hash a) (rt_hash b)
       && bool_decide (rt_query a = rt_query b).

#[export] Instance externals : Externals := {|
  production := false;
  Regexp := sample_Regexp;
  regexp_match := sample_regexp_match;
  decodeURIComponent := fun s => s;
  cleanPath := sample_cleanPath;
  resolvePath := sample_resolvePath;
  fillParams := sample_fillParams;
  normalizeLocation := sample_normalizeLocation;
  stringifyQuery := sample_stringifyQuery;
  isSameRoute := sample_isSameRoute;
  Vue_extend := default noHooks;
  hasPromise := true
|}.

End Sample.


(* ===================================================================== *)
(** ** Tables built in several steps, and inputs for closed examples     *)
(* ===================================================================== *)

(** The table of a matcher created from [first] and extended by
    [addRoutes] with each list of [more] in turn. *)
Definition routes_built {ext : Externals} (first : list RouteConfig)
    (more : list (list RouteConfig)) (heap : nat) : RouteMap :=
  fold_left (fun t routes => addRoutes routes t) more (createMatcher first heap).

(** A declaration with a path, maybe a name, maybe children. *)
Definition route_decl (path : string) (name : option string)
    (children : option (list RouteConfig)) : RouteConfig :=
  mkRouteConfig path name None None None None children None None None None None.

(** User code in which every guard calls [next()] once and returns, and no
    factory does anything while it runs. *)
Definition quiet_code : UserCode :=
  mkUserCode (fun _ _ _ => mkBehaviour [JsUndefined] None)
             (fun _ _ => RdOther false)
             (fun _ => mkFactoryBehaviour [] None).

(** A table in which a pattern with a parameter is declared before a named
    static route. *)
Definition shadowed_table : RouteMap :=
  @createMatcher Sample.externals
    [route_decl "/:id" None None; route_decl "/foo" (Some "foo") None] 0.

Definition location_named (name : string) (params : option Params) : Location :=
  mkLocation true (Some name) None None None params false false.

(* ===================================================================== *)
(** ** Vocabulary of the statements about transitions                    *)
(* ===================================================================== *)

(** The value sends the iterator into its last branch: the queue goes
    on. *)
Definition proceeding_value (to : JsValue) : bool :=
  negb (is_false to || isError to || is_redirect to).

(** An entry of a queue that lets the queue go on: an empty entry, or a
    guard that calls [next] once, with a proceeding value, and returns. *)
Definition proceeds {uc : UserCode} (route current : Route)
    (entry : option Hook) : Prop :=
  match entry with
  | None => True
  | Some (HookGuard g) =>
      exists to, guard_run g route current = mkBehaviour [to] None
                 /\ proceeding_value to = true
  | Some _ => False
  end.

(** The calls of guards a run through these entries makes. *)
Definition guard_events (q : list (option Hook)) : list Event :=
  omap (fun entry => match entry with
                     | Some (HookGuard g) => Some (EvGuard g)
                     | _ => None
                     end) q.

(** What [abort(err)] tells the listeners of [onError] in state [s]. *)
Definition listener_events (err : JsValue) (s : Router) : list Event :=
  if negb (isNavigationDuplicated err) && isError err then
    match h_errorCbs s with
    | [] => [EvUncaughtWarning err]
    | fs => map (fun f => EvErrorCb f err) fs
    end
  else [].

(** What the end of a first navigation with [err] tells the error
    callbacks of [onReady]. *)
Definition ready_error_events (err : JsValue) (s : Router) : list Event :=
  if js_truthy err && negb (h_ready s)
  then map (fun f => EvReadyErrorCb f err) (h_readyErrorCbs s)
  else [].

Definition is_onAbort (e : Event) : bool :=
  match e with EvOnAbort _ _ => true | _ => false end.

Definition is_navigation (e : Event) : bool :=
  match e with EvPush _ | EvReplace _ => true | _ => false end.

Definition is_guard_call (e : Event) : bool :=
  match e with EvGuard _ | EvFactory _ => true | _ => false end.

Definition is_errorCb (e : Event) : bool :=
  match e with EvErrorCb _ _ => true | _ => false end.

(** What a call of an [onAbort] argument adds to the trace. *)
Fixpoint abort_cb_events (cb : Callback) (err : JsValue) : list Event :=
  match cb with
  | CbUser f => [EvOnAbort f (ArgValue err)]
  | CbResolve _ | CbReject _ => []
  | CbBackend _ inner =>
      match inner with
      | Some c => abort_cb_events c err
      | None => []
      end
  end.

Definition onAbort_events (cb : option Callback) (err : JsValue) : list Event :=
  match cb with
  | Some c => abort_cb_events c err
  | None => []
  end.

(* ===================================================================== *)
(** ** A small application                                               *)
(* ===================================================================== *)

Module Example.
Import Sample.

(** The guards of the application, by identity: 2 refuses, 3 redirects
    to a path, 4 throws a string, 5 throws an error, 6 redirects with
    [replace]; every other guard calls [next()].  Factory 1 resolves
    while it runs; every other factory does nothing while it runs. *)
Definition code : UserCode :=
  mkUserCode
    (fun g _ _ =>
       match g with
       | 2 => mkBehaviour [JsBool false] None
       | 3 => mkBehaviour [JsString "/login"] None
       | 4 => mkBehaviour [] (Some (JsString "boom"))
       | 5 => mkBehaviour [] (Some (JsError (mkError false "boom")))
       | 6 => mkBehaviour
                [JsObject (mkLocation false None (Some "/login") None None None
                                      false true)] None
       | _ => mkBehaviour [JsUndefined] None
       end)
    (fun _ _ => RdOther false)
    (fun f =>
       match f with
       | 1 => mkFactoryBehaviour [CallResolve (ResolvedPlain (CompOptions noHooks))] None
       | _ => mkFactoryBehaviour [] None
       end).

(** [new VueRouter({ routes })] in abstract mode, with the given global
    before guards and error listeners registered, and the backend at
    [url]. *)
Definition new_router (routes : list RouteConfig) (beforeHooks : list (option nat))
    (errorCbs : list nat) (url : string) : Router :=
  mkRouter None beforeHooks [] [] (createMatcher routes 0) START None None false
           [] [] errorCbs url ∅ ∅ 1 [] [] [] [].

Definition state_of (r : Run) (otherwise : Router) : Router :=
  match r with
  | Normal s => s
  | _ => otherwise
  end.

Definition route_of (r : Result Route) : Route :=
  match r with
  | Returns route => route
  | _ => START
  end.

Definition queue_of (q : list (option Hook) + JsValue) : list (option Hook) :=
  match q with
  | inl l => l
  | inr _ => []
  end.

Definition routes_a : list RouteConfig := [route_decl "/a" None None].

(** The route the matcher gives for ["/a"] from [START]. *)
Definition route_a : Route :=
  Eval vm_compute in
    route_of (@match_ externals code 3 (createMatcher routes_a 0) (RawString "/a")
                      (Some START) None).

(** What follows the two global guards in the queue of a navigation from
    [START] to ["/a"]. *)
Definition queue_tail_a : list (option Hook) :=
  Eval vm_compute in
    drop 2 (queue_of (@guard_queue externals (new_router routes_a [Some 1; Some 2] [] "/")
                        (resolveQueue [] (rt_matched route_a)))).

(** A router that has navigated to ["/a"]. *)
Definition router_at_a : Router :=
  Eval vm_compute in
    state_of (@transitionTo externals code 3 (RawString "/a") None None
                            (new_router routes_a [] [] "/a"))
             (new_router routes_a [] [] "/a").

(** A router without routes that has navigated to ["/new"], which
    matched nothing. *)
Definition router_nowhere : Router :=
  Eval vm_compute in
    state_of (@transitionTo externals code 3 (RawString "/new") None None
                            (new_router [] [] [] "/new"))
             (new_router [] [] [] "/new").

(** The route the matcher gives for ["/foo"] in [shadowed_table]. *)
Definition route_foo : Route :=
  Eval vm_compute in
    route_of (@match_ externals code 3 shadowed_table (RawString "/foo") None None).

(** A named route with a required and an optional parameter, its
    record, and the route of ["/u/7/x"]. *)
Definition user_table : RouteMap :=
  createMatcher [route_decl "/u/:id/:tab?" (Some "user") None] 0.

Definition user_record : RouteRecord :=
  Eval vm_compute in
    default (mkRouteRecord 0 "" (Regexp "" noPathToRegexpOptions) [] None None
                           None None None [] RecordPropsEmpty)
            (nameMap user_table !! "user").

Definition route_user7 : Route :=
  Eval vm_compute in
    route_of (@match_ externals code 3 user_table (RawString "/u/7/x") None None).

(** Three records of one tree and a fourth one. *)
Definition record_named (id : nat) (path : string) (parent : option RouteRecord)
    : RouteRecord :=
  mkRouteRecord id path (Regexp path noPathToRegexpOptions) [("default", None)]
                None parent None None None [] RecordPropsEmpty.

Definition rec_A : RouteRecord := record_named 0 "/a" None.
Definition rec_B : RouteRecord := record_named 1 "/a/b" (Some rec_A).
Definition rec_C : RouteRecord := record_named 2 "/a/b/c" (Some rec_B).
Definition rec_D : RouteRecord := record_named 3 "/a/b/d" (Some rec_B).

End Example.

(** A continuation that only records that it was called. *)
Definition recording_next (to : JsValue) (s : Router) : Out :=
  ok (emit (EvContinue to) s).

(** A record with two slots, both with a factory as view definition. *)
Definition two_factory_record : RouteRecord :=
  mkRouteRecord 0 "/lazy" (Sample.sample_Regexp "/lazy" noPathToRegexpOptions)
                [("a", Some (CompFactory 1)); ("b", Some (CompFactory 2))]
                None None None None None [] RecordPropsEmpty.

(** A record with one slot, with a factory that does nothing while it
    runs. *)
Definition one_factory_record : RouteRecord :=
  mkRouteRecord 0 "/lazy" (Sample.sample_Regexp "/lazy" noPathToRegexpOptions)
                [("default", Some (CompFactory 3))]
                None None None None None [] RecordPropsEmpty.

Definition no_callbacks : TransitionCbs := mkTransitionCbs None None.

(** A declaration with two named views, both given as factories. *)
Definition lazy_routes : list RouteConfig :=
  [mkRouteConfig "/lazy" None None
                 (Some [("a", Some (CompFactory 1)); ("b", Some (CompFactory 2))])
                 None None None None None None None None].

(** What a resolution has counted and remembered. *)
Definition resolution_counters (s : Router) (n : nat) : option (Z * option JsValue) :=
  (fun rs => (rs_pending rs, rs_error rs)) <$> hp_resolutions s !! n.

(** ** Vocabulary of the properties *)

(** Induction over a route declaration and its children. *)
Section RouteConfig_nested_induction.
Variable P : RouteConfig -> Prop.
Hypothesis step :
  forall p n c cs rd a ch be m pr sens o,
    match ch with Some l => Forall P l | None => True end ->
    P (mkRouteConfig p n c cs rd a ch be m pr sens o).

Fixpoint RouteConfig_nested_ind (r : RouteConfig) : P r :=
  match r with
  | mkRouteConfig p n c cs rd a ch be m pr sens o =>
      step p n c cs rd a ch be m pr sens o
        (match ch return match ch with Some l => Forall P l | None => True end with
         | Some l =>
             (fix go (l : list RouteConfig) : Forall P l :=
                match l with
                | [] => List.Forall_nil P
                | x :: xs => @List.Forall_cons _ P x xs (RouteConfig_nested_ind x) (go xs)
                end) l
         | None => I
         end)
  end.
End RouteConfig_nested_induction.

(** What every table keeps: no path is listed twice, the listed paths are
    the keys of [pathMap], and a record is stored under its own path. *)
Definition table_consistent (t : RouteMap) : Prop :=
  NoDup (pathList t)
  /\ (forall p, p ∈ pathList t <-> is_Some (pathMap t !! p))
  /\ (forall p r, pathMap t !! p = Some r -> rec_path r = p).

(** A guard of the first kind or a [routeEnterGuard] around it. *)
Definition hook_of_guard (hook : Hook) (g : nat) : Prop :=
  hook = HookGuard g \/ exists m key, hook = HookEnter g m key.

(** A piece of the history that leaves the route table as it found it. *)
Definition keeps_table (f : Router -> Out) : Prop :=
  forall s, r_matcher (snd (f s)) = r_matcher s.

Ltac case_matches :=
  repeat match goal with
         | |- context [match ?x with _ => _ end] => destruct x eqn:?; simpl
         | |- context [if ?b then _ else _] => destruct b eqn:?; simpl
         end.

(** What every table keeps about names: a record is stored under its own
    name, which is not empty, and its path has a record in [pathMap]. *)
Definition names_consistent (t : RouteMap) : Prop :=
  forall n r, nameMap t !! n = Some r ->
              rec_name r = Some n /\ n <> "" /\ is_Some (pathMap t !! rec_path r).

(** The record [addRouteRecord] makes for a declaration met at the top
    level. *)
Definition top_record {ext : Externals} (id : nat) (route : RouteConfig) : RouteRecord :=
  new_record id route None None.

(* ===================================================================== *)
(** ** index.js: the registration of hooks                               *)
(* ===================================================================== *)

Definition set_beforeHooks (l : list (option nat)) (s : Router) : Router :=
  mkRouter (r_app s) l (r_resolveHooks s) (r_afterHooks s)
    (r_matcher s) (h_current s) (h_pending s) (h_cb s) (h_ready s) (h_readyCbs s)
    (h_readyErrorCbs s) (h_errorCbs s) (h_location s) (hp_components s)
    (hp_instances s) (hp_nextRoute s) (hp_promises s) (hp_resolutions s)
    (hp_postEnterCbs s) (trace s).

Definition set_resolveHooks (l : list (option nat)) (s : Router) : Router :=
  mkRouter (r_app s) (r_beforeHooks s) l (r_afterHooks s)
    (r_matcher s) (h_current s) (h_pending s) (h_cb s) (h_ready s) (h_readyCbs s)
    (h_readyErrorCbs s) (h_errorCbs s) (h_location s) (hp_components s)
    (hp_instances s) (hp_nextRoute s) (hp_promises s) (hp_resolutions s)
    (hp_postEnterCbs s) (trace s).

Definition set_afterHooks (l : list (option nat)) (s : Router) : Router :=
  mkRouter (r_app s) (r_beforeHooks s) (r_resolveHooks s) l
    (r_matcher s) (h_current s) (h_pending s) (h_cb s) (h_ready s) (h_readyCbs s)
    (h_readyErrorCbs s) (h_errorCbs s) (h_location s) (hp_components s)
    (hp_instances s) (hp_nextRoute s) (hp_promises s) (hp_resolutions s)
    (hp_postEnterCbs s) (trace s).

(** [list.indexOf(fn)], on a list of hooks: the index of the first entry
    that is the function [fn]. *)
Fixpoint indexOf (l : list (option nat)) (fn : nat) : option nat :=
  match l with
  | [] => None
  | x :: rest => if bool_decide (x = Some fn) then Some 0%nat
                 else S <$> indexOf rest fn
  end.

(** The function [registerHook] returns:
    [() => { const i = list.indexOf(fn); if (i > -1) list.splice(i, 1) }],
    on the list as it is when the function is called. *)
Definition unregisterHook (fn : nat) (l : list (option nat)) : list (option nat) :=
  match indexOf l fn with
  | Some i => delete i l
  | None => l
  end.

(** [registerHook(list, fn)]: the list after [list.push(fn)], and the
    function returned. *)
Definition registerHook (l : list (option nat)) (fn : nat)
    : list (option nat) * (list (option nat) -> list (option nat)) :=
  (l ++ [Some fn], unregisterHook fn).

(** [beforeEach(fn)], [beforeResolve(fn)] and [afterEach(fn)]: the router
    after the call, and the function returned, which acts on the list of
    the router it is called on. *)
Definition beforeEach (fn : nat) (s : Router) : Router * (Router -> Router) :=
  let '(l, undo) := registerHook (r_beforeHooks s) fn in
  (set_beforeHooks l s, fun s' => set_beforeHooks (undo (r_beforeHooks s')) s').

Definition beforeResolve (fn : nat) (s : Router) : Router * (Router -> Router) :=
  let '(l, undo) := registerHook (r_resolveHooks s) fn in
  (set_resolveHooks l s, fun s' => set_resolveHooks (undo (r_resolveHooks s')) s').

Definition afterEach (fn : nat) (s : Router) : Router * (Router -> Router) :=
  let '(l, undo) := registerHook (r_afterHooks s) fn in
  (set_afterHooks l s, fun s' => set_afterHooks (undo (r_afterHooks s')) s').

(* ===================================================================== *)
(** ** history/base.js: listeners                                        *)
(* ===================================================================== *)

Definition set_cb (cb : option nat) (s : Router) : Router :=
  mkRouter (r_app s) (r_beforeHooks s) (r_resolveHooks s) (r_afterHooks s)
    (r_matcher s) (h_current s) (h_pending s) cb (h_ready s) (h_readyCbs s)
    (h_readyErrorCbs s) (h_errorCbs s) (h_location s) (hp_components s)
    (hp_instances s) (hp_nextRoute s) (hp_promises s) (hp_resolutions s)
    (hp_postEnterCbs s) (trace s).

Definition set_readyCbs (ok err : list nat) (s : Router) : Router :=
  mkRouter (r_app s) (r_beforeHooks s) (r_resolveHooks s) (r_afterHooks s)
    (r_matcher s) (h_current s) (h_pending s) (h_cb s) (h_ready s) ok
    err (h_errorCbs s) (h_location s) (hp_components s)
    (hp_instances s) (hp_nextRoute s) (hp_promises s) (hp_resolutions s)
    (hp_postEnterCbs s) (trace s).

Definition set_errorCbs (l : list nat) (s : Router) : Router :=
  mkRouter (r_app s) (r_beforeHooks s) (r_resolveHooks s) (r_afterHooks s)
    (r_matcher s) (h_current s) (h_pending s) (h_cb s) (h_ready s) (h_readyCbs s)
    (h_readyErrorCbs s) l (h_location s) (hp_components s)
    (hp_instances s) (hp_nextRoute s) (hp_promises s) (hp_resolutions s)
    (hp_postEnterCbs s) (trace s).

(** [listen(cb)] *)
Definition listen (cb : nat) (s : Router) : Router := set_cb (Some cb) s.

(** [onReady(cb, errorCb)]: the callback that is called at once (with no
    argument), if the router is ready, and the router after the call. *)
Definition onReady (cb : nat) (errorCb : option nat) (s : Router)
    : option nat * Router :=
  if h_ready s then (Some cb, s)
  else (None,
        set_readyCbs (h_readyCbs s ++ [cb])
                     (match errorCb with
                      | Some e => h_readyErrorCbs s ++ [e]
                      | None => h_readyErrorCbs s
                      end) s).

(** [onError(errorCb)] *)
Definition onError (errorCb : nat) (s : Router) : Router :=
  set_errorCbs (h_errorCbs s ++ [errorCb]) s.

(** The calls of the callbacks of [onReady], with a route or with the
    value a first navigation failed with. *)
Definition is_ready_event (e : Event) : bool :=
  match e with
  | EvReadyCb _ _ | EvReadyErrorCb _ _ => true
  | _ => false
  end.

Definition is_listen (e : Event) : bool :=
  match e with EvListen _ _ => true | _ => false end.

(** The events that are calls of the route listener, of the callbacks of
    [onReady], of [afterEach] hooks or of [onComplete]: those a
    confirmation makes. *)
Definition is_commit_event (e : Event) : bool :=
  match e with
  | EvListen _ _ | EvAfterHook _ _ _ | EvOnComplete _ _ | EvReadyCb _ _
  | EvBackend _ _ => true
  | _ => false
  end.

(* ===================================================================== *)
(** ** Vocabulary of the statements about whole transitions              *)
(* ===================================================================== *)

(** A relation between the state a piece of the history starts in and the
    state it leaves, however it ends. *)
Definition keeps (R : Router -> Router -> Prop) (f : Router -> Out) : Prop :=
  forall s, R s (snd (f s)).

(** The events the engine adds outside [abort] and the confirmation. *)
Definition engine_event (e : Event) : bool :=
  match e with
  | EvGuard _ | EvFactory _ | EvEnsureURL _ | EvPush _ | EvReplace _
  | EvNextTick _ => true
  | _ => false
  end.

(** What a call of an [onComplete] argument adds to the trace. *)
Fixpoint complete_cb_events (cb : Callback) (route : Route) : list Event :=
  match cb with
  | CbUser f => [EvOnComplete f route]
  | CbResolve _ | CbReject _ => []
  | CbBackend b inner =>
      EvBackend b route ::
      match inner with
      | Some c => complete_cb_events c route
      | None => []
      end
  end.

(** What the confirmation of [route] adds to the trace, in state [s]: the
    route listener, the [afterEach] hooks with the route and the previous
    one, [onComplete], [ensureURL()], and on the first confirmation or
    failure the callbacks of [onReady]. *)
Definition commit_events (cbs : TransitionCbs) (route : Route) (s : Router)
    : list Event :=
  match h_cb s with Some f => [EvListen f route] | None => [] end
  ++ omap (fun hook => (fun f => EvAfterHook f route (h_current s)) <$> hook)
          (r_afterHooks s)
  ++ match tc_onComplete cbs with
     | Some cb => complete_cb_events cb route
     | None => []
     end
  ++ [EvEnsureURL false]
  ++ (if h_ready s then [] else map (fun f => EvReadyCb f route) (h_readyCbs s)).

(** What is registered with a router and its history: the hooks, the
    listeners, the callbacks, the app, and the instances of the
    records. *)
Definition same_registrations (s s' : Router) : Prop :=
  r_app s' = r_app s
  /\ r_beforeHooks s' = r_beforeHooks s
  /\ r_resolveHooks s' = r_resolveHooks s
  /\ r_afterHooks s' = r_afterHooks s
  /\ h_cb s' = h_cb s
  /\ h_readyCbs s' = h_readyCbs s
  /\ h_readyErrorCbs s' = h_readyErrorCbs s
  /\ h_errorCbs s' = h_errorCbs s
  /\ h_location s' = h_location s
  /\ hp_instances s' = hp_instances s.

(** An entry of the second queue that lets the queue go on: an empty
    entry, or a guard ([beforeRouteEnter], wrapped, or [beforeResolve])
    that calls [next] once, with a proceeding value, and returns. *)
Definition enter_proceeds {uc : UserCode} (route current : Route)
    (entry : option Hook) : Prop :=
  match entry with
  | None => True
  | Some (HookGuard g) | Some (HookEnter g _ _) =>
      exists to, guard_run g route current = mkBehaviour [to] None
                 /\ proceeding_value to = true
  | Some (HookResolve _) => False
  end.

(** The calls of guards a run through entries of the second queue
    makes. *)
Definition enter_events (q : list (option Hook)) : list Event :=
  omap (fun entry => match entry with
                     | Some (HookGuard g) | Some (HookEnter g _ _) => Some (EvGuard g)
                     | _ => None
                     end) q.

(** What [routeEnterGuard] pushes on [postEnterCbs] for the value its
    guard calls [next] with. *)
Definition post_enter_cb (to : JsValue) (m : RouteRecord) (key : string)
    : list PostEnterCb :=
  match to with
  | JsFunction f => [mkPostEnterCb f (rec_id m) key]
  | _ => []
  end.

(** The functions a run through entries that let the queue go on leaves
    on [postEnterCbs]. *)
Definition enter_callbacks {uc : UserCode} (route current : Route)
    (q : list (option Hook)) : list PostEnterCb :=
  flatten (map (fun entry =>
                  match entry with
                  | Some (HookEnter g m key) =>
                      match calls (guard_run g route current) with
                      | [to] => post_enter_cb to m key
                      | _ => []
                      end
                  | _ => []
                  end) q).

(** No slot of these records holds a factory. *)
Definition no_factories (s : Router) (matched : list RouteRecord) : Prop :=
  Forall (fun mk => match slot_lookup (snd mk) (components_of s (fst mk)) with
                    | Some (CompFactory _) => False
                    | _ => True
                    end)
         (slots_of matched).

(** The first queue of a navigation without its last entry, from the
    guards [extractLeaveGuards] and [extractUpdateHooks] returned. *)
Definition first_queue (s : Router) (d : QueueDiff)
    (leave update : list (option Hook)) : list (option Hook) :=
  leave ++ map (fmap HookGuard) (r_beforeHooks s) ++ update
  ++ map (fun m => HookGuard <$> rec_beforeEnter m) (activated d).

(** The second queue, from the guards [extractEnterGuards] returned. *)
Definition second_queue (s : Router) (enter : list (option Hook))
    : list (option Hook) :=
  enter ++ map (fmap HookGuard) (r_resolveHooks s).

(** The state a run through entries of the second queue that let the
    queue go on leaves: their calls in the trace, their functions on
    [postEnterCbs]. *)
Definition after_entries {uc : UserCode} (route current : Route)
    (q : list (option Hook)) (s : Router) : Router :=
  set_postEnterCbs (hp_postEnterCbs s ++ enter_callbacks route current q)
                   (emit_all (enter_events q) s).

(* ===================================================================== *)
(** ** An application with guards of every kind                          *)
(* ===================================================================== *)

(** User code in which guard 7 gives a function to [next] and every
    other guard calls [next()]. *)
Definition enter_code : UserCode :=
  mkUserCode
    (fun g _ _ =>
       match g with
       | 7 => mkBehaviour [JsFunction 70] None
       | _ => mkBehaviour [JsUndefined] None
       end)
    (fun _ _ => RdOther false)
    (fun _ => mkFactoryBehaviour [] None).

(** One route, with a [beforeEnter] guard (9) and a component that has a
    [beforeRouteEnter] guard (7). *)
Definition guarded_routes : list RouteConfig :=
  [mkRouteConfig "/a" None
                 (Some (CompOptions (mkComponentOptions None None (Some (GuardFn 7)))))
                 None None None None (Some 9) None None None None].

(** A router with an app, a [beforeEach] hook (1), a [beforeResolve] hook
    (12), an [afterEach] hook (11), a route listener (13) and a callback
    of [onReady] (14), before its first navigation. *)
Definition guarded_router : Router :=
  mkRouter (Some 0) [Some 1] [Some 12] [Some 11]
           (@createMatcher Sample.externals guarded_routes 0)
           (@START Sample.externals) None (Some 13) false [14] [] [] "/"
           ∅ ∅ 1 [] [] [] [].

Definition guarded_route : Route :=
  Eval vm_compute in
    Example.route_of
      (@match_ Sample.externals enter_code 3 (r_matcher guarded_router)
               (RawString "/a") (Some (@START Sample.externals)) None).
(* ===================================================================== *)
(** * Properties                                                         *)
(* ===================================================================== *)

(** ** The diff of two matched chains *)

Lemma same_record_refl (a : RouteRecord) : same_record a a = true.
Proof. unfold same_record. apply Nat.eqb_refl. Qed.

Lemma strict_neq_same (a : RouteRecord) : strict_neq (Some a) (Some a) = false.
Proof. simpl. now rewrite same_record_refl. Qed.

(** The loop stops at an index between its start and [i + fuel]; below
    the index every pair is identical, and if it stopped before the bound
    the pair at the index differs. *)
Lemma resolveQueue_index_spec (current next : list RouteRecord) :
  forall fuel i,
    let k := resolveQueue_index fuel i current next in
    (i <= k <= i + fuel)%nat
    /\ (forall j, (i <= j < k)%nat -> strict_neq (current !! j) (next !! j) = false)
    /\ ((k < i + fuel)%nat -> strict_neq (current !! k) (next !! k) = true).
Proof.
  induction fuel as [|fuel IH]; intros i; simpl.
  - split; [lia|]. split; intros; lia.
  - destruct (strict_neq (current !! i) (next !! i)) eqn:E.
    + split; [lia|]. split; [intros; lia|]. intros _. exact E.
    + specialize (IH (S i)). simpl in IH. destruct IH as (Hb & Hs & Hd).
      split; [lia|]. split.
      * intros j Hj. destruct (decide (j = i)) as [->|Hne]; [exact E|].
        apply Hs. lia.
      * intros Hk. apply Hd. lia.
Qed.

(** C4.  For every pair of matched chains the diff walks both from index 0
    while the records are identical objects; with [i] the first index at
    which they diverge (or the common length, when they do not),
    [updated] is [target[0..i)], [activated] is [target[i..)] and
    [deactivated] is [current[i..)].  In particular the chains [A,B,C] and
    [A,B,D], with [C] and [D] different objects, give [updated = [A,B]],
    [activated = [D]], [deactivated = [C]]. *)
Theorem resolveQueue_diff :
  (forall current next : list RouteRecord,
      exists i : nat,
        (i <= Nat.max (length current) (length next))%nat
        /\ (forall j, (j < i)%nat -> strict_neq (current !! j) (next !! j) = false)
        /\ ((i < Nat.max (length current) (length next))%nat ->
            strict_neq (current !! i) (next !! i) = true)
        /\ updated (resolveQueue current next) = take i next
        /\ activated (resolveQueue current next) = drop i next
        /\ deactivated (resolveQueue current next) = drop i current)
  /\ (forall A B C D : RouteRecord,
         same_record C D = false ->
         resolveQueue [A; B; C] [A; B; D] = mkQueueDiff [A; B] [D] [C]).
Proof.
  split.
  - intros current next.
    exists (resolveQueue_index (Nat.max (length current) (length next)) 0 current next).
    pose proof (resolveQueue_index_spec current next
                  (Nat.max (length current) (length next)) 0) as H.
    simpl in H. destruct H as (Hb & Hs & Hd).
    split; [lia|]. split; [intros j Hj; apply Hs; lia|].
    split; [exact Hd|]. repeat split.
  - intros A B C D HCD. unfold resolveQueue. simpl.
    rewrite !same_record_refl. simpl. rewrite HCD. reflexivity.
Qed.

(** ** The route table *)

Section TablePreservation.
Context {ext : Externals}.

(** [addRouteRecord] in one step: the node, then its aliases, then its
    name. *)
Lemma addRouteRecord_eq route parent matchAs t :
  addRouteRecord route parent matchAs t =
  let kids := fun (record : RouteRecord) (matchAs : option string) (t : RouteMap) =>
    match rc_children route with
    | Some children =>
        fold_left (fun t child =>
                     addRouteRecord child (Some record)
                                    (childMatchAs matchAs child) t)
                  children t
    | None => t
    end in
  let '(record, t) := add_node kids route parent matchAs t in
  let t :=
    match rc_alias route with
    | Some a =>
        fold_left
          (fun t alias =>
             if negb production && String.eqb alias (rc_path route) then t
             else snd (add_node kids (aliasRoute alias (rc_children route)) parent
                                (Some (or_else (Some (rec_path record)) "/")) t))
          (alias_list a) t
    | None => t
    end in
  register_name record t.
Proof. destruct route; reflexivity. Qed.

(** The alias branch is [addRouteRecord] on [aliasRoute], as the source
    has it. *)
Lemma addRouteRecord_alias alias children parent matchAs t :
  addRouteRecord (aliasRoute alias children) parent matchAs t =
  snd (add_node
         (fun record matchAs t =>
            match children with
            | Some cs =>
                fold_left (fun t child =>
                             addRouteRecord child (Some record)
                                            (childMatchAs matchAs child) t) cs t
            | None => t
            end)
         (aliasRoute alias children) parent matchAs t).
Proof.
  rewrite addRouteRecord_eq. cbn -[add_node].
  destruct (add_node _ _ _ _ _) as [record t'] eqn:E. simpl.
  unfold register_name.
  assert (rec_name record = None) as ->; [|reflexivity].
  unfold add_node in E. injection E as <- _. reflexivity.
Qed.

Variable P : RouteMap -> Prop.
Hypothesis P_alloc : forall t, P t -> P (alloc_record t).
Hypothesis P_path : forall r t, P t -> P (register_path r t).
Hypothesis P_name : forall r t, P t -> P (register_name r t).

Lemma add_node_preserves kids route parent matchAs t :
  (forall r m t, P t -> P (kids r m t)) ->
  P t -> P (snd (add_node kids route parent matchAs t)).
Proof.
  intros Hkids Ht. unfold add_node. simpl. apply P_path.
  destruct (rc_children route); auto.
Qed.

Lemma fold_left_preserves {A : Type} (f : RouteMap -> A -> RouteMap) (l : list A) :
  Forall (fun a => forall t, P t -> P (f t a)) l ->
  forall t, P t -> P (fold_left f l t).
Proof.
  induction 1 as [|a l Ha _ IH]; intros t Ht; simpl; auto.
Qed.

Lemma addRouteRecord_preserves route :
  forall parent matchAs t, P t -> P (addRouteRecord route parent matchAs t).
Proof.
  induction route as [p n c cs rd a ch be m pr sens o IH]
    using RouteConfig_nested_ind.
  intros parent matchAs t Ht. rewrite addRouteRecord_eq.
  set (kids := fun (record : RouteRecord) (matchAs : option string) (t : RouteMap) => _).
  assert (Hkids : forall r m t, P t -> P (kids r m t)).
  { intros r m' t' Ht'. unfold kids. simpl. destruct ch as [l|]; [|exact Ht'].
    apply fold_left_preserves; [|exact Ht'].
    eapply Forall_impl; [exact IH|]. intros child Hc t'' Ht''. now apply Hc. }
  cbv zeta.
  pose proof (add_node_preserves kids
                (mkRouteConfig p n c cs rd a ch be m pr sens o)
                parent matchAs t Hkids Ht) as Hnode.
  destruct (add_node kids _ parent matchAs t) as [record t1]. simpl in Hnode.
  apply P_name. simpl. destruct a as [a|]; [|exact Hnode].
  apply fold_left_preserves; [|exact Hnode].
  apply Forall_forall. intros alias _ t' Ht'.
  destruct (negb production && String.eqb alias p); [exact Ht'|].
  now apply add_node_preserves.
Qed.

Lemma addRouteRecords_preserves routes t : P t -> P (addRouteRecords routes t).
Proof.
  intros Ht. unfold addRouteRecords. apply fold_left_preserves; [|exact Ht].
  apply Forall_forall. intros route _ t' Ht'. now apply addRouteRecord_preserves.
Qed.

End TablePreservation.

Lemma table_consistent_register_path r t :
  table_consistent t -> table_consistent (register_path r t).
Proof.
  intros (Hnd & Hdom & Hown). unfold register_path.
  destruct (pathMap t !! rec_path r) as [r'|] eqn:E;
    [exact (conj Hnd (conj Hdom Hown))|].
  repeat split; simpl.
  - apply NoDup_app. split; [exact Hnd|]. split; [|apply NoDup_singleton].
    intros p Hp Hin. apply list_elem_of_singleton in Hin. subst p.
    apply Hdom in Hp. rewrite E in Hp. now destruct Hp.
  - intros Hp. apply elem_of_app in Hp as [Hp|Hp].
    + destruct (decide (p = rec_path r)) as [->|Hne].
      * rewrite lookup_insert_eq. eauto.
      * rewrite lookup_insert_ne by congruence. now apply Hdom.
    + apply list_elem_of_singleton in Hp. subst p. rewrite lookup_insert_eq. eauto.
  - intros Hp. apply elem_of_app.
    destruct (decide (p = rec_path r)) as [->|Hne].
    + right. now apply list_elem_of_singleton.
    + left. rewrite lookup_insert_ne in Hp by congruence. now apply Hdom.
  - intros p r'. destruct (decide (p = rec_path r)) as [->|Hne].
    + rewrite lookup_insert_eq. now intros [= <-].
    + rewrite lookup_insert_ne by congruence. apply Hown.
Qed.

Lemma table_consistent_register_name r t :
  table_consistent t -> table_consistent (register_name r t).
Proof.
  intros H. unfold register_name.
  destruct (rec_name r) as [n|]; [|exact H].
  destruct (truthy (Some n)); [|exact H].
  destruct (nameMap t !! n); exact H.
Qed.

(** Registration only appends to [pathList]. *)
Lemma register_path_appends r t :
  exists added, pathList (register_path r t) = pathList t ++ added.
Proof.
  unfold register_path. destruct (pathMap t !! rec_path r).
  - exists []. now rewrite app_nil_r.
  - now exists [rec_path r].
Qed.

Lemma register_name_pathList r t :
  pathList (register_name r t) = pathList t.
Proof.
  unfold register_name. destruct (rec_name r) as [n|]; [|reflexivity].
  destruct (truthy (Some n)); [|reflexivity].
  destruct (nameMap t !! n); reflexivity.
Qed.

(** The loop over the wildcard entries, from any point of its run: the
    entries before [i] hold no wildcard, the entries from [l] on are the
    wildcards met so far. *)
Lemma pin_wildcards_run :
  forall (B A W : list string) (fuel : nat),
    (forall p, p ∈ A -> p <> "*") ->
    (length B <= fuel)%nat ->
    pin_wildcards fuel (length A) (length A + length B) (A ++ B ++ W)
    = A ++ filter (fun p => p <> "*") B ++ W ++ filter (fun p => p = "*") B.
Proof.
  induction B as [|b B IH]; intros A W fuel HA Hfuel.
  - simpl. rewrite Nat.add_0_r.
    destruct fuel as [|fuel]; simpl; [now rewrite app_nil_r|].
    rewrite Nat.ltb_irrefl. now rewrite app_nil_r.
  - destruct fuel as [|fuel]; [simpl in Hfuel; lia|].
    simpl in Hfuel. cbn [pin_wildcards].
    assert ((length A <? length A + length (b :: B))%nat = true) as ->.
    { apply Nat.ltb_lt. simpl. lia. }
    assert ((A ++ (b :: B) ++ W) !! length A = Some b) as ->.
    { rewrite lookup_app_r by lia. now rewrite Nat.sub_diag. }
    destruct (String.eqb b "*") eqn:Eb.
    + apply String.eqb_eq in Eb. subst b.
      assert (delete (length A) (A ++ ("*" :: B) ++ W) = A ++ B ++ W) as ->.
      { apply delete_middle. }
      replace (length A + length ("*" :: B) - 1)%nat
        with (length A + length B)%nat by (simpl; lia).
      replace ((A ++ B ++ W) ++ ["*"]) with (A ++ B ++ (W ++ ["*"]))
        by (now rewrite <- !app_assoc).
      rewrite IH by (auto; lia).
      rewrite filter_cons_False by (intros H; now apply H).
      rewrite filter_cons_True by reflexivity.
      now rewrite <- !app_assoc.
    + apply String.eqb_neq in Eb.
      replace (length A + 1)%nat with (length (A ++ [b]))
        by (rewrite length_app; simpl; lia).
      replace (length A + length (b :: B))%nat
        with (length (A ++ [b]) + length B)%nat
        by (rewrite length_app; simpl; lia).
      replace (A ++ (b :: B) ++ W) with ((A ++ [b]) ++ B ++ W)
        by (now rewrite <- app_assoc).
      rewrite IH.
      * rewrite filter_cons_True by exact Eb.
        rewrite filter_cons_False by exact Eb.
        now rewrite <- app_assoc.
      * intros p Hp. apply elem_of_app in Hp as [Hp|Hp]; [now apply HA|].
        apply list_elem_of_singleton in Hp. now subst p.
      * lia.
Qed.

(** The loop is a stable partition of the list. *)
Lemma pin_wildcards_partition (pl : list string) :
  pin_wildcards (length pl) 0 (length pl) pl
  = filter (fun p => p <> "*") pl ++ filter (fun p => p = "*") pl.
Proof.
  pose proof (pin_wildcards_run pl [] [] (length pl)) as H.
  simpl in H. rewrite app_nil_r in H. apply H; [|lia].
  intros p Hp. now apply elem_of_nil in Hp.
Qed.

Lemma partition_Permutation (pl : list string) :
  filter (fun p => p <> "*") pl ++ filter (fun p => p = "*") pl ≡ₚ pl.
Proof.
  induction pl as [|p pl IH]; [reflexivity|].
  destruct (decide (p = "*")) as [->|Hne].
  - rewrite filter_cons_False by (intros H; now apply H).
    rewrite filter_cons_True by reflexivity.
    rewrite <- Permutation_middle. now constructor.
  - rewrite filter_cons_True by exact Hne.
    rewrite filter_cons_False by exact Hne.
    simpl. now constructor.
Qed.

Section TableInvariants.
Context {ext : Externals}.

Lemma addRouteRecords_consistent routes t :
  table_consistent t -> table_consistent (addRouteRecords routes t).
Proof.
  apply addRouteRecords_preserves.
  - intros t' H. exact H.
  - intros r t'. apply table_consistent_register_path.
  - intros r t'. apply table_consistent_register_name.
Qed.

Lemma addRouteRecords_appends routes t :
  exists added, pathList (addRouteRecords routes t) = pathList t ++ added.
Proof.
  apply (addRouteRecords_preserves
           (fun t' => exists added, pathList t' = pathList t ++ added)).
  - intros t' H. exact H.
  - intros r t' [added H]. destruct (register_path_appends r t') as [more Hm].
    exists (added ++ more). rewrite Hm, H. now rewrite app_assoc.
  - intros r t' [added H]. exists added. now rewrite register_name_pathList.
  - exists []. now rewrite app_nil_r.
Qed.

Lemma createRouteMap_pathList routes opl opm onm heap :
  let reg := pathList (addRouteRecords routes
                         (mkRouteMap (default [] opl) (default ∅ opm)
                                     (default ∅ onm) heap)) in
  pathList (createRouteMap routes opl opm onm heap)
  = filter (fun p => p <> "*") reg ++ filter (fun p => p = "*") reg.
Proof. unfold createRouteMap. simpl. apply pin_wildcards_partition. Qed.

Lemma createRouteMap_consistent routes opl opm onm heap :
  table_consistent (mkRouteMap (default [] opl) (default ∅ opm)
                               (default ∅ onm) heap) ->
  table_consistent (createRouteMap routes opl opm onm heap).
Proof.
  intros H. apply (addRouteRecords_consistent routes) in H.
  destruct H as (Hnd & Hdom & Hown).
  pose proof (createRouteMap_pathList routes opl opm onm heap) as Hpl.
  cbv zeta in Hpl. unfold table_consistent. rewrite Hpl.
  unfold createRouteMap. cbn [pathMap].
  repeat split.
  - eapply NoDup_Permutation_proper; [apply partition_Permutation|exact Hnd].
  - intros Hp. apply Hdom. now rewrite <- partition_Permutation.
  - intros Hp. rewrite partition_Permutation. now apply Hdom.
  - exact Hown.
Qed.

Lemma empty_table_consistent heap : table_consistent (mkRouteMap [] ∅ ∅ heap).
Proof.
  repeat split; simpl.
  - apply NoDup_nil_2.
  - intros H. now apply elem_of_nil in H.
  - intros [r H]. now rewrite lookup_empty in H.
  - intros p r H. now rewrite lookup_empty in H.
Qed.



End TableInvariants.


(** ** The matcher *)

Section MatcherProperties.
Context {ext : Externals} {uc : UserCode}.

(** One step of [match]. *)
Lemma match_S fuel t raw currentRoute redirectedFrom :
  match_ (S fuel) t raw currentRoute redirectedFrom =
  let location := normalizeLocation raw currentRoute in
  if truthy (loc_name location) then
    match nameMap t !! default "" (loc_name location) with
    | None => _createRoute fuel t None location None
    | Some record =>
        let paramNames := required_names record in
        let params := default ∅ (loc_params location) in
        let params := match currentRoute with
                      | Some cur => inherit_params paramNames params (rt_params cur)
                      | None => params
                      end in
        let location := set_loc_params location (Some params) in
        let location :=
          set_loc_path location (Some (fillParams (rec_path record) (Some params))) in
        _createRoute fuel t (Some record) location redirectedFrom
    end
  else if truthy (loc_path location) then
    let location := set_loc_params location (Some ∅) in
    match scan (pathMap t) (pathList t) (default "" (loc_path location)) with
    | Returns (Some (record, params)) =>
        _createRoute fuel t (Some record)
                     (set_loc_params location (Some params)) redirectedFrom
    | Returns None => _createRoute fuel t None location None
    | Throws e => Throws e
    | OutOfFuel => OutOfFuel
    end
  else _createRoute fuel t None location None.
Proof. reflexivity. Qed.

(** A record that neither redirects nor is an alias ends the
    resolution, and so does the absence of a record. *)
Lemma createRoute_plain fuel t record location redirectedFrom :
  match record with
  | Some r => redirect_truthy (rec_redirect r) = false
              /\ truthy (rec_matchAs r) = false
  | None => True
  end ->
  _createRoute (S fuel) t record location redirectedFrom
  = Returns (createRoute record location redirectedFrom).
Proof.
  destruct record as [r|]; [|reflexivity].
  intros [Hr Ha]. cbn [_createRoute]. now rewrite Hr, Ha.
Qed.

(** What the loop over [currentRoute.params] leaves in
    [location.params]. *)
Lemma inherit_params_lookup (names : list KeyName) (loc cur : Params) (k : string) :
  inherit_params names loc cur !! k
  = match loc !! k with
    | Some v => Some v
    | None => if bool_decide (KeyNamed k ∈ names) then cur !! k else None
    end.
Proof.
  unfold inherit_params. revert k.
  apply (map_fold_weak_ind
           (fun (r : Params) (m : Params) =>
              forall k, r !! k
                        = match loc !! k with
                          | Some v => Some v
                          | None => if bool_decide (KeyNamed k ∈ names)
                                    then m !! k else None
                          end)).
  - intros k. rewrite lookup_empty. destruct (loc !! k); [reflexivity|].
    now destruct (bool_decide _).
  - intros i x m r Hm IH k.
    destruct (bool_decide (r !! i = None)) eqn:Er;
      destruct (bool_decide (KeyNamed i ∈ names)) eqn:Ei; simpl.
    + apply bool_decide_eq_true in Er.
      destruct (decide (k = i)) as [->|Hne].
      * rewrite !lookup_insert_eq. specialize (IH i). rewrite Er in IH.
        destruct (loc !! i); [discriminate|]. now rewrite Ei.
      * rewrite !lookup_insert_ne by congruence. apply IH.
    + destruct (decide (k = i)) as [->|Hne].
      * rewrite IH. destruct (loc !! i); [reflexivity|]. now rewrite Ei.
      * rewrite lookup_insert_ne by congruence. apply IH.
    + apply bool_decide_eq_false in Er.
      destruct (decide (k = i)) as [->|Hne].
      * pose proof (IH i) as Hi. destruct (loc !! i); [exact Hi|].
        rewrite Ei, Hm in Hi. contradiction.
      * rewrite lookup_insert_ne by congruence. apply IH.
    + destruct (decide (k = i)) as [->|Hne].
      * rewrite IH. destruct (loc !! i); [reflexivity|]. now rewrite Ei.
      * rewrite lookup_insert_ne by congruence. apply IH.
Qed.

Lemma required_names_spec (record : RouteRecord) (k : KeyName) :
  k ∈ required_names record
  <-> exists key, key ∈ re_keys (rec_regex record)
                  /\ key_name key = k /\ key_optional key = false.
Proof.
  unfold required_names. rewrite list_elem_of_fmap. split.
  - intros (key & -> & Hin). apply list_elem_of_filter in Hin as [Ho Hin].
    now exists key.
  - intros (key & Hin & <- & Ho). exists key. split; [reflexivity|].
    apply list_elem_of_filter. now split.
Qed.

End MatcherProperties.

(** C5.  For every match by name with a current route: the parameters the
    path template is filled with are those of the location, to which the
    loop has added, from the current route's parameters, each name that is
    absent from the location and is the name of a key of the record's
    pattern that is not optional.  A name whose keys in the pattern are
    all optional is never added.  A match that is not by name does not
    read the current route's parameters: with the same normalized
    location it gives the same result for every current route. *)
Theorem named_match_inherits_required_params :
  forall (ext : Externals) (uc : UserCode),
    (forall fuel t raw cur redirectedFrom record,
        let location := normalizeLocation raw (Some cur) in
        truthy (loc_name location) = true ->
        nameMap t !! default "" (loc_name location) = Some record ->
        let params := inherit_params (required_names record)
                                     (default ∅ (loc_params location))
                                     (rt_params cur) in
        match_ (S fuel) t raw (Some cur) redirectedFrom
        = _createRoute fuel t (Some record)
            (set_loc_path (set_loc_params location (Some params))
                          (Some (fillParams (rec_path record) (Some params))))
            redirectedFrom)
    /\ (forall record (loc cur : Params) k v,
           loc !! k = Some v ->
           inherit_params (required_names record) loc cur !! k = Some v)
    /\ (forall record (loc cur : Params) k key,
           loc !! k = None ->
           key ∈ re_keys (rec_regex record) ->
           key_name key = KeyNamed k -> key_optional key = false ->
           inherit_params (required_names record) loc cur !! k = cur !! k)
    /\ (forall record (loc cur : Params) k,
           loc !! k = None ->
           (forall key, key ∈ re_keys (rec_regex record) ->
                        key_name key = KeyNamed k -> key_optional key = true) ->
           inherit_params (required_names record) loc cur !! k = None)
    /\ (forall fuel t raw cur1 cur2 redirectedFrom,
           normalizeLocation raw cur1 = normalizeLocation raw cur2 ->
           truthy (loc_name (normalizeLocation raw cur1)) = false ->
           match_ fuel t raw cur1 redirectedFrom
           = match_ fuel t raw cur2 redirectedFrom).
Proof.
  intros ext uc. split; [|split; [|split; [|split]]].
  - intros fuel t raw cur rf record location Hname Hrec params.
    rewrite match_S. cbv zeta. fold location. now rewrite Hname, Hrec.
  - intros record loc cur k v Hk. now rewrite inherit_params_lookup, Hk.
  - intros record loc cur k key Hk Hin Hn Ho.
    rewrite inherit_params_lookup, Hk.
    rewrite bool_decide_eq_true_2; [reflexivity|].
    apply required_names_spec. now exists key.
  - intros record loc cur k Hk Hopt.
    rewrite inherit_params_lookup, Hk.
    rewrite bool_decide_eq_false_2; [reflexivity|].
    intros Hin. apply required_names_spec in Hin as (key & Hin & Hn & Ho).
    specialize (Hopt key Hin Hn). congruence.
  - intros fuel t raw cur1 cur2 rf Heq Hname.
    destruct fuel as [|fuel]; [reflexivity|].
    rewrite !match_S. cbv zeta. rewrite <- Heq, Hname. reflexivity.
Qed.

Section MatchAgain.
Context {ext : Externals} {uc : UserCode}.

(** A match that is not by name, on a location with a path: the first
    record of the scan decides. *)
Lemma match_by_path fuel t raw currentRoute redirectedFrom :
  truthy (loc_name (normalizeLocation raw currentRoute)) = false ->
  truthy (loc_path (normalizeLocation raw currentRoute)) = true ->
  match_ (S fuel) t raw currentRoute redirectedFrom =
  let location := set_loc_params (normalizeLocation raw currentRoute) (Some ∅) in
  match scan (pathMap t) (pathList t)
             (default "" (loc_path (normalizeLocation raw currentRoute))) with
  | Returns (Some (record, params)) =>
      _createRoute fuel t (Some record)
                   (set_loc_params location (Some params)) redirectedFrom
  | Returns None => _createRoute fuel t None location None
  | Throws e => Throws e
  | OutOfFuel => OutOfFuel
  end.
Proof. intros Hn Hp. rewrite match_S. cbv zeta. now rewrite Hn, Hp. Qed.

Lemma truthy_or_else (p : option string) (d : string) :
  truthy p = true -> p = Some (or_else p d).
Proof.
  destruct p as [s|]; simpl; [|discriminate].
  destruct (String.eqb s ""); [discriminate|reflexivity].
Qed.

End MatchAgain.

(** C7, as amended.  For a location that is matched by its path (no name,
    a path that is not empty) and whose resolved record, if there is one,
    neither redirects nor is an alias: if the matcher returns a route, and
    the route's [fullPath] normalizes to a location without a name whose
    path is the route's path, then matching the [fullPath] again returns a
    route with the same matched chain. *)
Theorem match_by_path_idempotent :
  forall (ext : Externals) (uc : UserCode) fuel t raw currentRoute redirectedFrom route,
    truthy (loc_name (normalizeLocation raw currentRoute)) = false ->
    truthy (loc_path (normalizeLocation raw currentRoute)) = true ->
    (forall r ps,
        scan (pathMap t) (pathList t)
             (default "" (loc_path (normalizeLocation raw currentRoute)))
        = Returns (Some (r, ps)) ->
        redirect_truthy (rec_redirect r) = false /\ truthy (rec_matchAs r) = false) ->
    match_ fuel t raw currentRoute redirectedFrom = Returns route ->
    truthy (loc_name (normalizeLocation (RawString (rt_fullPath route)) None)) = false ->
    loc_path (normalizeLocation (RawString (rt_fullPath route)) None)
    = Some (rt_path route) ->
    exists route2,
      match_ fuel t (RawString (rt_fullPath route)) None None = Returns route2
      /\ rt_matched route2 = rt_matched route.
Proof.
  intros ext uc fuel t raw cur rf route Hname Hpath Hplain Hfirst Hname2 Hpath2.
  destruct fuel as [|[|fuel]]; [discriminate| |].
  { rewrite match_by_path in Hfirst by assumption. cbv zeta in Hfirst.
    destruct (scan _ _ _) as [[[r ps]|]| |]; discriminate. }
  rewrite match_by_path in Hfirst by assumption. cbv zeta in Hfirst.
  destruct (loc_path (normalizeLocation raw cur)) as [p|] eqn:Elp; [|discriminate].
  assert (Hne : String.eqb p "" = false).
  { simpl in Hpath. now destruct (String.eqb p ""). }
  cbn [default from_option id] in Hfirst, Hplain.
  assert (Hroute_path :
            forall record ps rf',
              rt_path (createRoute record
                         (set_loc_params
                            (set_loc_params (normalizeLocation raw cur) (Some ∅)) ps)
                         rf') = p).
  { intros record ps rf'. simpl. rewrite Elp. simpl. now rewrite Hne. }
  assert (Hroute_path' :
            forall record rf',
              rt_path (createRoute record
                         (set_loc_params (normalizeLocation raw cur) (Some ∅))
                         rf') = p).
  { intros record rf'. simpl. rewrite Elp. simpl. now rewrite Hne. }
  destruct (scan (pathMap t) (pathList t) p) as [[[r ps]|]| |] eqn:Es;
    try discriminate.
  - rewrite (createRoute_plain fuel t (Some r)) in Hfirst
      by (simpl; now apply (Hplain r ps)).
    injection Hfirst as <-. rewrite Hroute_path in Hpath2.
    rewrite match_by_path; [|exact Hname2|rewrite Hpath2; simpl; now rewrite Hne].
    cbv zeta. rewrite Hpath2. cbn [default from_option id]. rewrite Es.
    rewrite (createRoute_plain fuel t (Some r)) by (simpl; now apply (Hplain r ps)).
    eexists. split; reflexivity.
  - rewrite (createRoute_plain fuel t None) in Hfirst by exact I.
    injection Hfirst as <-. rewrite Hroute_path' in Hpath2.
    rewrite match_by_path; [|exact Hname2|rewrite Hpath2; simpl; now rewrite Hne].
    cbv zeta. rewrite Hpath2. cbn [default from_option id]. rewrite Es.
    rewrite (createRoute_plain fuel t None) by exact I.
    eexists. split; reflexivity.
Qed.

(** C7 fails for a location matched by name.  With the patterns [/:id] and
    [/foo] declared in this order and the second one named [foo], the
    normalized location [{ name: 'foo' }] resolves to the record of
    [/foo], which neither redirects nor is an alias; the route's
    [fullPath] is [/foo], and matching it again resolves to the record of
    [/:id]. *)
Lemma match_by_name_not_idempotent :
  exists route route2 record,
    @match_ Sample.externals quiet_code 3 shadowed_table
            (RawObject (location_named "foo" None)) None None = Returns route
    /\ last (rt_matched route) = Some record
    /\ rec_redirect record = None /\ rec_matchAs record = None
    /\ rt_fullPath route = "/foo"
    /\ @match_ Sample.externals quiet_code 3 shadowed_table
               (RawString (rt_fullPath route)) None None = Returns route2
    /\ map rec_path (rt_matched route) = ["/foo"]
    /\ map rec_path (rt_matched route2) = ["/:id"]
    /\ rt_matched route2 <> rt_matched route.
Proof.
  eexists. eexists. eexists.
  split; [vm_compute; reflexivity|].
  split; [vm_compute; reflexivity|].
  split; [reflexivity|]. split; [reflexivity|]. split; [reflexivity|].
  split; [vm_compute; reflexivity|].
  split; [reflexivity|]. split; [reflexivity|].
  intros H. apply (f_equal (map rec_path)) in H. vm_compute in H. discriminate.
Qed.

(** ** Transitions *)

Lemma emit_all_app (a b : list Event) (s : Router) :
  emit_all b (emit_all a s) = emit_all (a ++ b) s.
Proof. unfold emit_all, set_trace. simpl. now rewrite app_assoc. Qed.

Lemma emit_emit_all (e : Event) (s : Router) : emit e s = emit_all [e] s.
Proof. reflexivity. Qed.

Lemma emit_all_nil (s : Router) : emit_all [] s = s.
Proof. unfold emit_all, set_trace. rewrite app_nil_r. now destruct s. Qed.

Section TransitionLemmas.
Context {ext : Externals} {uc : UserCode}.

(** The trace [abort(err)] leaves when [onAbort] is a function of the
    application. *)
Lemma abort_user cbs err s f :
  tc_onAbort cbs = Some (CbUser f) ->
  abort cbs err s
  = (if js_truthy err && negb (h_ready s) then set_ready true else id)
      (emit_all (listener_events err s ++ [EvOnAbort f (ArgValue err)]
                 ++ ready_error_events err s) s).
Proof.
  intros Hf. unfold abort, transition_abort, listener_events, ready_error_events.
  rewrite Hf. cbn [call_abort].
  destruct (negb (isNavigationDuplicated err) && isError err);
    [destruct (h_errorCbs s) as [|f0 fs]|];
    cbn [h_ready emit emit_all set_trace trace h_readyErrorCbs];
    destruct (js_truthy err && negb (h_ready s));
    unfold emit, emit_all, set_trace, set_ready, id; simpl;
    rewrite <- ?app_assoc; simpl; rewrite ?app_nil_r; try reflexivity;
    now destruct s.
Qed.

Lemma call_abort_current :
  forall cb e s, h_current (call_abort cb e s) = h_current s.
Proof.
  fix IH 1. intros [f|p|p|r [inner|]] e s; simpl; try reflexivity.
  - unfold settle. now destruct (_ !! _) as [[]|].
  - unfold settle. now destruct (_ !! _) as [[]|].
  - apply IH.
Qed.

Lemma call_abort_pending :
  forall cb e s, h_pending (call_abort cb e s) = h_pending s.
Proof.
  fix IH 1. intros [f|p|p|r [inner|]] e s; simpl; try reflexivity.
  - unfold settle. now destruct (_ !! _) as [[]|].
  - unfold settle. now destruct (_ !! _) as [[]|].
  - apply IH.
Qed.

(** [abort] commits nothing and leaves the pending route in place. *)
Lemma abort_current cbs err s : h_current (abort cbs err s) = h_current s.
Proof.
  unfold abort, transition_abort.
  set (s1 := if negb (isNavigationDuplicated err) && isError err then _ else s).
  assert (H1 : h_current s1 = h_current s).
  { unfold s1. destruct (_ && _); [|reflexivity]. now destruct (h_errorCbs s). }
  rewrite <- H1.
  destruct (tc_onAbort cbs); destruct (js_truthy err && negb _); simpl;
    rewrite ?call_abort_current; reflexivity.
Qed.

Lemma abort_pending cbs err s : h_pending (abort cbs err s) = h_pending s.
Proof.
  unfold abort, transition_abort.
  set (s1 := if negb (isNavigationDuplicated err) && isError err then _ else s).
  assert (H1 : h_pending s1 = h_pending s).
  { unfold s1. destruct (_ && _); [|reflexivity]. now destruct (h_errorCbs s). }
  rewrite <- H1.
  destruct (tc_onAbort cbs); destruct (js_truthy err && negb _); simpl;
    rewrite ?call_abort_pending; reflexivity.
Qed.

End TransitionLemmas.

Section IteratorLemmas.
Context {ext : Externals} {uc : UserCode}.

Lemma pending_is_emit route e s : pending_is route (emit e s) = pending_is route s.
Proof. reflexivity. Qed.

Lemma pending_is_emit_all route es s :
  pending_is route (emit_all es s) = pending_is route s.
Proof. reflexivity. Qed.

Lemma pending_is_set route s :
  pending_is route (set_pending (Some route) s) = true.
Proof. unfold pending_is, same_route. simpl. apply Nat.eqb_refl. Qed.

(** The iterator on a guard that calls [next] once and returns. *)
Lemma iterator_single route current cbs g k s to :
  pending_is route s = true ->
  guard_run g route current = mkBehaviour [to] None ->
  iterator route current cbs (HookGuard g) k s
  = match iterator_next cbs k to (emit (EvGuard g) s) with
    | (Some e, s') => ok (abort cbs e s')
    | (None, s') => ok s'
    end.
Proof.
  intros Hp Hg. unfold iterator. rewrite Hp. cbn [negb run_hook].
  unfold run_guard. rewrite Hg. cbn [calls throws guard_calls].
  destruct (iterator_next cbs k to (emit (EvGuard g) s)) as [[e|] s']; reflexivity.
Qed.

(** The iterator on a guard that throws without having called
    [next]. *)
Lemma iterator_throw route current cbs g k s e :
  pending_is route s = true ->
  guard_run g route current = mkBehaviour [] (Some e) ->
  iterator route current cbs (HookGuard g) k s
  = ok (abort cbs e (emit (EvGuard g) s)).
Proof.
  intros Hp Hg. unfold iterator. rewrite Hp. cbn [negb run_hook].
  unfold run_guard. rewrite Hg. reflexivity.
Qed.

(** The iterator on a [routeEnterGuard] whose guard calls [next] once,
    with a value that is not a function, and returns. *)
Lemma iterator_single_enter route current cbs g m key k s to :
  pending_is route s = true ->
  guard_run g route current = mkBehaviour [to] None ->
  (forall f, to <> JsFunction f) ->
  iterator route current cbs (HookEnter g m key) k s
  = match iterator_next cbs k to (emit (EvGuard g) s) with
    | (Some e, s') => ok (abort cbs e s')
    | (None, s') => ok s'
    end.
Proof.
  intros Hp Hg Hto. unfold iterator. rewrite Hp. cbn [negb run_hook].
  unfold run_guard. rewrite Hg. cbn [calls throws guard_calls].
  assert (match to with
          | JsFunction f =>
              set_postEnterCbs
                (hp_postEnterCbs (emit (EvGuard g) s) ++ [mkPostEnterCb f (rec_id m) key])
                (emit (EvGuard g) s)
          | _ => emit (EvGuard g) s
          end = emit (EvGuard g) s) as ->.
  { destruct to; try reflexivity. now contradiction (Hto f). }
  destruct (iterator_next cbs k to (emit (EvGuard g) s)) as [[e|] s']; reflexivity.
Qed.

Lemma iterator_throw_enter route current cbs g m key k s e :
  pending_is route s = true ->
  guard_run g route current = mkBehaviour [] (Some e) ->
  iterator route current cbs (HookEnter g m key) k s
  = ok (abort cbs e (emit (EvGuard g) s)).
Proof.
  intros Hp Hg. unfold iterator. rewrite Hp. cbn [negb run_hook].
  unfold run_guard. rewrite Hg. reflexivity.
Qed.

Lemma iterator_next_stop cbs k to s :
  is_false to || isError to = true ->
  iterator_next cbs k to s = ok (abort cbs to (emit (EvEnsureURL true) s)).
Proof. intros H. unfold iterator_next. now rewrite H. Qed.

Lemma is_redirect_not_stop to :
  is_redirect to = true -> is_false to || isError to = false.
Proof. now destruct to. Qed.

Lemma iterator_next_redirect cbs k to s :
  is_redirect to = true ->
  iterator_next cbs k to s
  = ok (emit (if wants_replace to then EvReplace to else EvPush to)
             (abort cbs JsUndefined s)).
Proof.
  intros H. unfold iterator_next. rewrite (is_redirect_not_stop to H), H.
  now destruct (wants_replace to).
Qed.

Lemma iterator_next_proceed cbs k to s :
  proceeding_value to = true -> iterator_next cbs k to s = k s.
Proof.
  unfold proceeding_value, iterator_next. intros H.
  apply negb_true_iff in H. apply orb_false_iff in H as [H1 H2].
  now rewrite H1, H2.
Qed.

(** A run through entries that let the queue go on reaches the rest of
    the queue, and what the rest returns normally is what the run
    returns. *)
Lemma runQueue_proceeding route current cbs cb :
  forall pre rest s x,
    Forall (proceeds route current) pre ->
    pending_is route s = true ->
    runQueue rest (iterator route current cbs) cb (emit_all (guard_events pre) s)
    = ok x ->
    runQueue (pre ++ rest) (iterator route current cbs) cb s = ok x.
Proof.
  induction pre as [|entry pre IH]; intros rest s x Hpre Hp Hrest.
  - simpl in *. now rewrite emit_all_nil in Hrest.
  - apply Forall_cons in Hpre as [Hentry Hpre].
    destruct entry as [[g|g m key|matched]|]; simpl in Hentry; try contradiction.
    + destruct Hentry as (to & Hg & Hto).
      cbn [app runQueue]. rewrite (iterator_single _ _ _ _ _ _ to Hp Hg).
      rewrite (iterator_next_proceed _ _ _ _ Hto).
      rewrite (IH rest (emit (EvGuard g) s) x Hpre); [reflexivity|exact Hp|].
      rewrite emit_emit_all, emit_all_app. exact Hrest.
    + cbn [app runQueue]. apply IH; assumption.
Qed.

(** [confirmTransition] on a target that is not the current route and
    whose queue can be built. *)
Lemma confirmTransition_queue route cbs s queue :
  isSameRoute route (h_current s)
  && (length (rt_matched route) =? length (rt_matched (h_current s)))%nat = false ->
  guard_queue s (resolveQueue (rt_matched (h_current s)) (rt_matched route))
  = inl queue ->
  confirmTransition route cbs s
  = runQueue queue (iterator route (h_current s) cbs)
      (enter_phase route (h_current s) cbs
         (activated (resolveQueue (rt_matched (h_current s)) (rt_matched route))))
      (set_pending (Some route) s).
Proof. intros Hd Hq. unfold confirmTransition. cbv zeta. now rewrite Hd, Hq. Qed.

(** [transitionTo] once the matcher has returned. *)
Lemma transitionTo_matched fuel location onComplete onAbort s r :
  match_ fuel (r_matcher s) location (Some (h_current s)) None = Returns r ->
  transitionTo fuel location onComplete onAbort s
  = run_of (confirmTransition (with_rt_id (hp_nextRoute s) r)
              (mkTransitionCbs onComplete onAbort)
              (set_nextRoute (S (hp_nextRoute s)) s)).
Proof. intros H. unfold transitionTo. now rewrite H. Qed.

End IteratorLemmas.

Section AbortTrace.
Context {ext : Externals} {uc : UserCode}.

Lemma call_abort_trace :
  forall cb err s, trace (call_abort cb err s) = trace s ++ abort_cb_events cb err.
Proof.
  fix IH 1. intros [f|p|p|r [inner|]] err s; simpl.
  - reflexivity.
  - unfold settle. rewrite app_nil_r. now destruct (_ !! _) as [[]|].
  - unfold settle. rewrite app_nil_r. now destruct (_ !! _) as [[]|].
  - apply IH.
  - now rewrite app_nil_r.
Qed.

Lemma call_abort_ready :
  forall cb err s, h_ready (call_abort cb err s) = h_ready s.
Proof.
  fix IH 1. intros [f|p|p|r [inner|]] e s; simpl; try reflexivity.
  - unfold settle. now destruct (_ !! _) as [[]|].
  - unfold settle. now destruct (_ !! _) as [[]|].
  - apply IH.
Qed.

Lemma call_abort_readyErrorCbs :
  forall cb err s, h_readyErrorCbs (call_abort cb err s) = h_readyErrorCbs s.
Proof.
  fix IH 1. intros [f|p|p|r [inner|]] e s; simpl; try reflexivity.
  - unfold settle. now destruct (_ !! _) as [[]|].
  - unfold settle. now destruct (_ !! _) as [[]|].
  - apply IH.
Qed.

(** Everything [abort(err)] adds to the trace: the listeners of
    [onError] (or the warning), then [onAbort], then the error callbacks
    of [onReady]. *)
Lemma abort_trace cbs err s :
  trace (abort cbs err s)
  = trace s ++ listener_events err s ++ onAbort_events (tc_onAbort cbs) err
    ++ ready_error_events err s.
Proof.
  unfold abort, transition_abort, listener_events, ready_error_events, onAbort_events.
  set (s1 := if negb (isNavigationDuplicated err) && isError err then _ else s).
  assert (H1 : h_ready s1 = h_ready s /\ h_readyErrorCbs s1 = h_readyErrorCbs s
               /\ trace s1 = trace s ++
                    (if negb (isNavigationDuplicated err) && isError err
                     then match h_errorCbs s with
                          | [] => [EvUncaughtWarning err]
                          | fs => map (fun f => EvErrorCb f err) fs
                          end
                     else [])).
  { unfold s1. destruct (_ && _); [|now rewrite app_nil_r].
    now destruct (h_errorCbs s). }
  destruct H1 as (Hr & Hcbs & Ht).
  destruct (tc_onAbort cbs) as [cb|].
  - rewrite call_abort_ready, call_abort_readyErrorCbs, Hr, Hcbs.
    destruct (js_truthy err && negb (h_ready s)); simpl;
      rewrite call_abort_trace, Ht, <- ?app_assoc, ?app_nil_r; reflexivity.
  - rewrite Hr, Hcbs.
    destruct (js_truthy err && negb (h_ready s)); simpl;
      rewrite Ht, <- ?app_assoc, ?app_nil_r; reflexivity.
Qed.

Lemma abort_cb_events_onAbort cb err :
  Forall (fun e => is_onAbort e = true) (abort_cb_events cb err).
Proof.
  revert cb. fix IH 1. intros [f|p|p|r [inner|]]; simpl.
  - repeat constructor.
  - constructor.
  - constructor.
  - apply IH.
  - constructor.
Qed.

Lemma ready_error_events_kind err s :
  Forall (fun e => is_onAbort e = false /\ is_guard_call e = false
                   /\ is_errorCb e = false /\ is_navigation e = false)
         (ready_error_events err s).
Proof.
  unfold ready_error_events. destruct (_ && _); [|constructor].
  apply Forall_forall. intros e He. apply list_elem_of_fmap in He as (f & -> & _).
  now repeat split.
Qed.

Lemma listener_events_kind err s :
  Forall (fun e => is_onAbort e = false /\ is_guard_call e = false
                   /\ is_navigation e = false)
         (listener_events err s).
Proof.
  unfold listener_events. destruct (_ && _); [|constructor].
  destruct (h_errorCbs s) as [|f fs]; [now repeat constructor|].
  apply Forall_forall. intros e He. apply list_elem_of_fmap in He as (f' & -> & _).
  now repeat split.
Qed.

End AbortTrace.

(** C3.  For every [transitionTo] whose resolved target is the same route
    as the current one ([isSameRoute]) with a matched chain of equal
    length: the call returns; the URL is resynchronized ([ensureURL()]);
    [onAbort] is called with a [NavigationDuplicated] error; what is added
    to the trace holds no call of a guard or of a factory and no call of a
    listener of [onError]; the current and the pending route are
    unchanged. *)
Theorem duplicate_navigation_aborts :
  forall (ext : Externals) (uc : UserCode) fuel location onComplete onAbort s r,
    match_ fuel (r_matcher s) location (Some (h_current s)) None = Returns r ->
    isSameRoute (with_rt_id (hp_nextRoute s) r) (h_current s) = true ->
    length (rt_matched r) = length (rt_matched (h_current s)) ->
    let err := NavigationDuplicated (with_rt_id (hp_nextRoute s) r) in
    exists s',
      transitionTo fuel location onComplete onAbort s = Normal s'
      /\ isNavigationDuplicated err = true
      /\ trace s' = trace s ++ [EvEnsureURL false] ++ onAbort_events onAbort err
                    ++ ready_error_events err s
      /\ (forall f, onAbort = Some (CbUser f) ->
                    onAbort_events onAbort err = [EvOnAbort f (ArgValue err)])
      /\ Forall (fun e => is_guard_call e = false /\ is_errorCb e = false)
                ([EvEnsureURL false] ++ onAbort_events onAbort err
                 ++ ready_error_events err s)
      /\ h_current s' = h_current s
      /\ h_pending s' = h_pending s.
Proof.
  intros ext uc fuel location oc oa s r Hm Hsame Hlen err.
  rewrite (transitionTo_matched _ _ _ _ _ _ Hm).
  unfold confirmTransition. cbv zeta.
  cbn [h_current set_nextRoute rt_matched with_rt_id].
  change (mkRoute (hp_nextRoute s) (rt_name r) (rt_meta r) (rt_path r) (rt_hash r)
                  (rt_query r) (rt_params r) (rt_fullPath r) (rt_matched r)
                  (rt_redirectedFrom r))
    with (with_rt_id (hp_nextRoute s) r).
  rewrite Hsame, Hlen, Nat.eqb_refl. cbn [andb run_of ok].
  eexists. split; [reflexivity|]. split; [reflexivity|].
  split; [|split; [|split; [|split]]].
  - rewrite abort_trace. cbn [tc_onAbort trace emit set_trace].
    rewrite <- app_assoc. reflexivity.
  - now intros f ->.
  - apply Forall_app. split; [now repeat constructor|]. apply Forall_app. split.
    + destruct oa as [cb|]; [|constructor]. simpl.
      eapply Forall_impl; [apply abort_cb_events_onAbort|].
      intros [] H; simpl in *; try discriminate. now split.
    + eapply Forall_impl; [apply ready_error_events_kind|]. simpl. tauto.
  - now rewrite abort_current.
  - now rewrite abort_pending.
Qed.

Section GuardOutcomes.
Context {ext : Externals} {uc : UserCode}.

(** A transition whose queue holds, after entries that let it go on, a
    guard at which the iterator stops: the transition ends with what the
    iterator does for that guard. *)
Lemma transition_stops_at fuel location onComplete onAbort s r pre g post x :
  match_ fuel (r_matcher s) location (Some (h_current s)) None = Returns r ->
  isSameRoute (with_rt_id (hp_nextRoute s) r) (h_current s)
  && (length (rt_matched r) =? length (rt_matched (h_current s)))%nat = false ->
  guard_queue s (resolveQueue (rt_matched (h_current s)) (rt_matched r))
  = inl (pre ++ Some (HookGuard g) :: post) ->
  Forall (proceeds (with_rt_id (hp_nextRoute s) r) (h_current s)) pre ->
  (forall k s1,
      pending_is (with_rt_id (hp_nextRoute s) r) s1 = true ->
      iterator (with_rt_id (hp_nextRoute s) r) (h_current s)
               (mkTransitionCbs onComplete onAbort) (HookGuard g) k s1
      = ok (x s1)) ->
  transitionTo fuel location onComplete onAbort s
  = Normal (x (emit_all (guard_events pre)
                 (set_pending (Some (with_rt_id (hp_nextRoute s) r))
                    (set_nextRoute (S (hp_nextRoute s)) s)))).
Proof.
  intros Hm Hd Hq Hpre Hstop.
  rewrite (transitionTo_matched _ _ _ _ _ _ Hm).
  rewrite (confirmTransition_queue _ _ _ (pre ++ Some (HookGuard g) :: post));
    [|exact Hd|exact Hq].
  cbn [h_current set_nextRoute].
  erewrite runQueue_proceeding; [reflexivity|exact Hpre|apply pending_is_set|].
  cbn [runQueue]. apply Hstop. rewrite pending_is_emit_all. apply pending_is_set.
Qed.

End GuardOutcomes.

Lemma filter_guard_events (P : Event -> bool) (q : list (option Hook)) :
  (forall g, P (EvGuard g) = false) ->
  filter (fun e => P e = true) (guard_events q) = [].
Proof.
  intros HP. unfold guard_events.
  induction q as [|[[g|g m key|ms]|] q IH]; simpl; try exact IH; [reflexivity|].
  rewrite filter_cons_False by (rewrite HP; discriminate). exact IH.
Qed.

Lemma filter_none (P : Event -> bool) (l : list Event) :
  Forall (fun e => P e = false) l -> filter (fun e => P e = true) l = [].
Proof.
  intros Hl. induction Hl as [|e l He _ IH]; [reflexivity|].
  rewrite filter_cons_False by (rewrite He; discriminate). exact IH.
Qed.

(** C2.  Whenever the iterator runs a guard for the pending route (in
    either queue, whatever the rest of the queue is): if the guard calls
    its continuation once, with [false] or with an error, the current
    route is unchanged, the URL is resynchronized ([ensureURL(true)]) and
    [onAbort] is called exactly once, with that value; if it calls its
    continuation once with a string, or with an object that has a [path]
    or a [name], the rest of the queue is not run, the current route is
    unchanged (the target is not committed), [onAbort] is called once,
    with [undefined], and exactly one navigation follows: [replace(to)]
    when the object has a [replace] flag, [push(to)] otherwise.  For a
    transition that is not a duplicate and in which the guards before [g]
    in the first queue let the queue go on, this is how the call of
    [transitionTo] ends. *)
Theorem guard_abort_or_redirect :
  forall (ext : Externals) (uc : UserCode),
    (forall route current onComplete f hook g k s to,
        hook_of_guard hook g ->
        pending_is route s = true ->
        guard_run g route current = mkBehaviour [to] None ->
        let cbs := mkTransitionCbs onComplete (Some (CbUser f)) in
        (is_false to || isError to = true ->
         exists s' evs,
           iterator route current cbs hook k s = ok s'
           /\ h_current s' = h_current s
           /\ trace s' = trace s ++ evs
           /\ evs = [EvGuard g; EvEnsureURL true] ++ listener_events to s
                    ++ [EvOnAbort f (ArgValue to)] ++ ready_error_events to s
           /\ filter (fun e => is_onAbort e = true) evs = [EvOnAbort f (ArgValue to)]
           /\ filter (fun e => is_navigation e = true) evs = [])
        /\ (is_redirect to = true ->
            exists s' evs,
              iterator route current cbs hook k s = ok s'
              /\ h_current s' = h_current s
              /\ trace s' = trace s ++ evs
              /\ evs = [EvGuard g; EvOnAbort f (ArgValue JsUndefined);
                        if wants_replace to then EvReplace to else EvPush to]))
    /\ (forall fuel location onComplete f s r pre g post to,
           match_ fuel (r_matcher s) location (Some (h_current s)) None = Returns r ->
           isSameRoute (with_rt_id (hp_nextRoute s) r) (h_current s)
           && (length (rt_matched r) =? length (rt_matched (h_current s)))%nat = false ->
           guard_queue s (resolveQueue (rt_matched (h_current s)) (rt_matched r))
           = inl (pre ++ Some (HookGuard g) :: post) ->
           Forall (proceeds (with_rt_id (hp_nextRoute s) r) (h_current s)) pre ->
           guard_run g (with_rt_id (hp_nextRoute s) r) (h_current s)
           = mkBehaviour [to] None ->
           (is_false to || isError to = true ->
            exists s' evs,
              transitionTo fuel location onComplete (Some (CbUser f)) s = Normal s'
              /\ h_current s' = h_current s
              /\ trace s' = trace s ++ evs
              /\ evs = guard_events pre ++ [EvGuard g; EvEnsureURL true]
                       ++ listener_events to s ++ [EvOnAbort f (ArgValue to)]
                       ++ ready_error_events to s
              /\ filter (fun e => is_onAbort e = true) evs
                 = [EvOnAbort f (ArgValue to)]
              /\ filter (fun e => is_navigation e = true) evs = [])
           /\ (is_redirect to = true ->
               exists s' evs,
                 transitionTo fuel location onComplete (Some (CbUser f)) s = Normal s'
                 /\ h_current s' = h_current s
                 /\ trace s' = trace s ++ evs
                 /\ evs = guard_events pre
                          ++ [EvGuard g; EvOnAbort f (ArgValue JsUndefined);
                              if wants_replace to then EvReplace to else EvPush to]
                 /\ filter (fun e => is_navigation e = true) evs
                    = [if wants_replace to then EvReplace to else EvPush to])).
Proof.
  intros ext uc.
  pose proof filter_none as Hno.
  assert (Hstop_filters :
            forall to f s,
              filter (fun e => is_onAbort e = true)
                     (listener_events to s ++ [EvOnAbort f (ArgValue to)]
                      ++ ready_error_events to s) = [EvOnAbort f (ArgValue to)]
              /\ filter (fun e => is_navigation e = true)
                        (listener_events to s ++ [EvOnAbort f (ArgValue to)]
                         ++ ready_error_events to s) = []).
  { intros to f s. rewrite !filter_app.
    rewrite (Hno is_onAbort (listener_events _ _)).
    2:{ eapply Forall_impl; [apply listener_events_kind|]. simpl. tauto. }
    rewrite (Hno is_onAbort (ready_error_events _ _)).
    2:{ eapply Forall_impl; [apply ready_error_events_kind|]. simpl. tauto. }
    rewrite (Hno is_navigation (listener_events _ _)).
    2:{ eapply Forall_impl; [apply listener_events_kind|]. simpl. tauto. }
    rewrite (Hno is_navigation (ready_error_events _ _)).
    2:{ eapply Forall_impl; [apply ready_error_events_kind|]. simpl. tauto. }
    split; reflexivity. }
  split.
  - intros route current oc f hook g k s to Hhook Hp Hg cbs.
    assert (Hit : (is_false to || isError to = true \/ is_redirect to = true) ->
                  iterator route current cbs hook k s
                  = match iterator_next cbs k to (emit (EvGuard g) s) with
                    | (Some e, s') => ok (abort cbs e s')
                    | (None, s') => ok s'
                    end).
    { intros Hto. destruct Hhook as [->|(m & key & ->)].
      - now apply iterator_single.
      - apply iterator_single_enter; [exact Hp|exact Hg|].
        intros f' ->. destruct Hto as [H|H]; discriminate. }
    split.
    + intros Hstop. rewrite Hit by now left.
      rewrite (iterator_next_stop _ _ _ _ Hstop).
      eexists. eexists. split; [reflexivity|].
      split; [now rewrite abort_current|].
      split.
      { rewrite abort_trace. unfold cbs.
        cbn [trace emit emit_all set_trace tc_onAbort onAbort_events abort_cb_events].
        rewrite <- !app_assoc. reflexivity. }
      split; [reflexivity|].
      destruct (Hstop_filters to f s) as [H1 H2].
      cbn [app]. rewrite !filter_cons_False by (simpl; discriminate). now split.
    + intros Hred. rewrite Hit by now right.
      rewrite (iterator_next_redirect _ _ _ _ Hred).
      eexists. eexists. split; [reflexivity|].
      split; [cbn [emit set_trace h_current]; now rewrite abort_current|].
      split; [|reflexivity].
      cbn [emit set_trace trace]. rewrite abort_trace. unfold cbs.
      cbn [trace emit emit_all set_trace tc_onAbort onAbort_events abort_cb_events
                 listener_events ready_error_events isError isNavigationDuplicated
                 js_truthy negb andb].
      rewrite <- !app_assoc. reflexivity.
  - intros fuel location oc f s r pre g post to Hm Hd Hq Hpre Hg.
    pose proof (fun P HP => filter_guard_events P pre HP) as Hge.
    split.
    + intros Hstop.
      eexists. eexists. split.
      { eapply transition_stops_at with (x := fun s1 =>
          abort (mkTransitionCbs oc (Some (CbUser f))) to
                (emit (EvEnsureURL true) (emit (EvGuard g) s1))); eauto.
        intros k s1 Hp. rewrite (iterator_single _ _ _ _ _ _ to Hp Hg).
        now rewrite (iterator_next_stop _ _ _ _ Hstop). }
      split; [now rewrite abort_current|].
      split.
      { rewrite abort_trace. cbn [trace emit emit_all set_trace set_pending
                                     set_nextRoute tc_onAbort onAbort_events
                                     abort_cb_events].
        rewrite <- !app_assoc. reflexivity. }
      split; [reflexivity|].
      destruct (Hstop_filters to f s) as [H1 H2].
      rewrite !filter_app, (Hge is_onAbort), (Hge is_navigation) by reflexivity.
      rewrite !filter_app in H1, H2.
      cbn [app]. rewrite !filter_cons_False by (simpl; discriminate).
      cbn [app] in H1, H2. now split.
    + intros Hred.
      eexists. eexists. split.
      { eapply transition_stops_at with (x := fun s1 =>
          emit (if wants_replace to then EvReplace to else EvPush to)
               (abort (mkTransitionCbs oc (Some (CbUser f))) JsUndefined
                      (emit (EvGuard g) s1))); eauto.
        intros k s1 Hp. rewrite (iterator_single _ _ _ _ _ _ to Hp Hg).
        now rewrite (iterator_next_redirect _ _ _ _ Hred). }
      split; [cbn [emit set_trace h_current]; now rewrite abort_current|].
      split.
      { cbn [emit set_trace trace]. rewrite abort_trace.
        cbn [trace emit emit_all set_trace set_pending set_nextRoute tc_onAbort
                   onAbort_events abort_cb_events listener_events ready_error_events
                   isError isNavigationDuplicated js_truthy negb andb].
        rewrite <- !app_assoc. reflexivity. }
      split; [reflexivity|].
      rewrite !filter_app. rewrite (Hge is_navigation) by reflexivity.
      now destruct (wants_replace to).
Qed.

(** C9, as amended.  Whenever the iterator runs a guard for the pending
    route (in either queue, whatever the rest of the queue is) and the
    guard throws [e] without having called its continuation, the iterator
    returns (no exception escapes it), the rest of the queue is not run,
    the current route is unchanged, and the value goes through [abort]:
    [onAbort] is called with it, and when it is an error other than a
    [NavigationDuplicated] every listener of [onError] is called with it,
    in the order of registration (a warning is printed instead when there
    is no listener); when it is not an error, or is a
    [NavigationDuplicated], no listener is called.  For a transition that
    is not a duplicate and in which the guards before [g] in the first
    queue let the queue go on, this is how the call of [transitionTo]
    ends. *)
Theorem guard_throw_aborts :
  forall (ext : Externals) (uc : UserCode),
    (forall route current onComplete f hook g k s e,
        hook_of_guard hook g ->
        pending_is route s = true ->
        guard_run g route current = mkBehaviour [] (Some e) ->
        exists s',
          iterator route current (mkTransitionCbs onComplete (Some (CbUser f))) hook k s
          = ok s'
          /\ h_current s' = h_current s
          /\ trace s' = trace s ++ [EvGuard g] ++ listener_events e s
                        ++ [EvOnAbort f (ArgValue e)] ++ ready_error_events e s)
    /\ (forall fuel location onComplete f s r pre g post e,
           match_ fuel (r_matcher s) location (Some (h_current s)) None = Returns r ->
           isSameRoute (with_rt_id (hp_nextRoute s) r) (h_current s)
           && (length (rt_matched r) =? length (rt_matched (h_current s)))%nat = false ->
           guard_queue s (resolveQueue (rt_matched (h_current s)) (rt_matched r))
           = inl (pre ++ Some (HookGuard g) :: post) ->
           Forall (proceeds (with_rt_id (hp_nextRoute s) r) (h_current s)) pre ->
           guard_run g (with_rt_id (hp_nextRoute s) r) (h_current s)
           = mkBehaviour [] (Some e) ->
           exists s',
             transitionTo fuel location onComplete (Some (CbUser f)) s = Normal s'
             /\ h_current s' = h_current s
             /\ trace s' = trace s ++ guard_events pre ++ [EvGuard g]
                           ++ listener_events e s ++ [EvOnAbort f (ArgValue e)]
                           ++ ready_error_events e s)
    /\ (forall e s,
           (isError e = true -> isNavigationDuplicated e = false ->
            listener_events e s
            = match h_errorCbs s with
              | [] => [EvUncaughtWarning e]
              | fs => map (fun l => EvErrorCb l e) fs
              end)
           /\ (isError e = false \/ isNavigationDuplicated e = true ->
               listener_events e s = [])).
Proof.
  intros ext uc. split; [|split].
  - intros route current oc f hook g k s e Hhook Hp Hg.
    exists (abort (mkTransitionCbs oc (Some (CbUser f))) e (emit (EvGuard g) s)).
    split.
    { destruct Hhook as [->|(m & key & ->)].
      - now apply iterator_throw.
      - now apply iterator_throw_enter. }
    split; [now rewrite abort_current|].
    rewrite abort_trace.
    cbn [trace emit emit_all set_trace tc_onAbort onAbort_events abort_cb_events].
    rewrite <- !app_assoc. reflexivity.
  - intros fuel location oc f s r pre g post e Hm Hd Hq Hpre Hg.
    eexists. split.
    { eapply transition_stops_at with (x := fun s1 =>
        abort (mkTransitionCbs oc (Some (CbUser f))) e (emit (EvGuard g) s1)); eauto.
      intros k s1 Hp. now rewrite (iterator_throw _ _ _ _ _ _ e Hp Hg). }
    split; [now rewrite abort_current|].
    rewrite abort_trace.
    cbn [trace emit emit_all set_trace set_pending set_nextRoute tc_onAbort
               onAbort_events abort_cb_events].
    rewrite <- !app_assoc. reflexivity.
  - intros e s. split.
    + intros He Hd'. unfold listener_events. now rewrite He, Hd'.
    + intros [He|Hd']; unfold listener_events; [rewrite He|rewrite Hd'];
        now rewrite ?andb_false_r.
Qed.

(** ** A transition does not touch the route table *)

Section Frame.
Context {ext : Externals} {uc : UserCode}.

Lemma call_abort_table :
  forall cb err s, r_matcher (call_abort cb err s) = r_matcher s.
Proof.
  fix IH 1. intros [f|p|p|r [inner|]] e s; simpl; try reflexivity.
  - unfold settle. now destruct (_ !! _) as [[]|].
  - unfold settle. now destruct (_ !! _) as [[]|].
  - apply IH.
Qed.

Lemma call_complete_table :
  forall cb route s, r_matcher (call_complete cb route s) = r_matcher s.
Proof.
  fix IH 1. intros [f|p|p|r [inner|]] e s; simpl; try reflexivity.
  - unfold settle. now destruct (_ !! _) as [[]|].
  - unfold settle. now destruct (_ !! _) as [[]|].
  - now rewrite IH.
Qed.

Lemma abort_table cbs err s : r_matcher (abort cbs err s) = r_matcher s.
Proof.
  unfold abort, transition_abort.
  set (s1 := if negb (isNavigationDuplicated err) && isError err then _ else s).
  assert (H1 : r_matcher s1 = r_matcher s).
  { unfold s1. destruct (_ && _); [|reflexivity]. now destruct (h_errorCbs s). }
  rewrite <- H1.
  destruct (tc_onAbort cbs); destruct (js_truthy err && negb _); simpl;
    rewrite ?call_abort_table; reflexivity.
Qed.

Lemma transition_complete_table cbs route s :
  r_matcher (transition_complete cbs route s) = r_matcher s.
Proof.
  unfold transition_complete, updateRoute.
  destruct (tc_onComplete cbs) as [cb|]; simpl.
  - destruct (h_ready _); simpl; rewrite call_complete_table; simpl;
      now destruct (h_cb s).
  - destruct (h_ready _); simpl; now destruct (h_cb s).
Qed.

Lemma resolve_call_table n i v next :
  (forall to, keeps_table (next to)) -> keeps_table (resolve_call n i v next).
Proof.
  intros Hnext s. unfold resolve_call. case_matches; try reflexivity.
  now rewrite Hnext.
Qed.

Lemma reject_call_table n i reason next :
  (forall to, keeps_table (next to)) -> keeps_table (reject_call n i reason next).
Proof.
  intros Hnext s. unfold reject_call.
  destruct (hp_resolutions s !! n) as [rs|]; [|reflexivity].
  destruct (rs_cells rs !! i) as [c|]; [|reflexivity].
  destruct (cell_reject_called c); [reflexivity|].
  destruct (rs_error rs); [reflexivity|]. now rewrite Hnext.
Qed.

Lemma factory_calls_table n i next :
  (forall to, keeps_table (next to)) ->
  forall acts, keeps_table (factory_calls n i acts next).
Proof.
  intros Hnext acts. induction acts as [|a acts IH]; intros s; [reflexivity|].
  simpl.
  assert (Ha : r_matcher (snd (factory_call n i a next s)) = r_matcher s).
  { destruct a; [now apply resolve_call_table|now apply reject_call_table]. }
  destruct (factory_call n i a next s) as [[e|] s']; simpl in *; [exact Ha|].
  now rewrite IH.
Qed.

Lemma resolve_component_table n next m key :
  (forall to, keeps_table (next to)) -> keeps_table (resolve_component n next m key).
Proof.
  intros Hnext s. unfold resolve_component.
  destruct (hp_resolutions s !! n) as [rs|]; [|reflexivity].
  destruct (slot_lookup key (components_of s m)) as [[o|cid o|f]|]; try reflexivity.
  set (s1 := emit _ _).
  assert (H1 : r_matcher s1 = r_matcher s) by reflexivity.
  pose proof (factory_calls_table n (length (rs_cells rs)) next Hnext
                (f_sync (factory_run f)) s1) as Hc.
  destruct (factory_calls _ _ _ _ s1) as [[e|] s2]; simpl in Hc.
  - rewrite reject_call_table by exact Hnext. congruence.
  - destruct (f_throws (factory_run f)); simpl.
    + rewrite reject_call_table by exact Hnext. congruence.
    + congruence.
Qed.

Lemma resolve_slots_table n next :
  (forall to, keeps_table (next to)) ->
  forall slots, keeps_table (resolve_slots n next slots).
Proof.
  intros Hnext slots. induction slots as [|[m key] slots IH]; intros s; [reflexivity|].
  simpl. pose proof (resolve_component_table n next m key Hnext s) as Hc.
  destruct (resolve_component n next m key s) as [[e|] s']; simpl in *; [exact Hc|].
  now rewrite IH.
Qed.

Lemma resolveAsyncComponents_table matched to from cbs next :
  (forall v, keeps_table (next v)) ->
  keeps_table (resolveAsyncComponents matched to from cbs next).
Proof.
  intros Hnext s. unfold resolveAsyncComponents.
  set (s1 := set_resolutions _ s).
  pose proof (resolve_slots_table (length (hp_resolutions s)) next Hnext
                (slots_of matched) s1) as Hc.
  destruct (resolve_slots _ _ _ s1) as [[e|] s2]; simpl in Hc; [exact Hc|].
  destruct (hp_resolutions s2 !! _) as [rs|]; [|exact Hc].
  destruct (rs_hasAsync rs); [exact Hc|]. now rewrite Hnext.
Qed.

Lemma guard_calls_table next :
  (forall to, keeps_table (next to)) ->
  forall args, keeps_table (guard_calls args next).
Proof.
  intros Hnext args. induction args as [|to args IH]; intros s; [reflexivity|].
  simpl. pose proof (Hnext to s) as Hc.
  destruct (next to s) as [[e|] s']; simpl in *; [exact Hc|]. now rewrite IH.
Qed.

Lemma run_guard_table g to from next :
  (forall v, keeps_table (next v)) -> keeps_table (run_guard g to from next).
Proof.
  intros Hnext s. unfold run_guard.
  pose proof (guard_calls_table next Hnext (calls (guard_run g to from))
                (emit (EvGuard g) s)) as Hc.
  destruct (guard_calls _ _ _) as [[e|] s']; exact Hc.
Qed.

Lemma run_hook_table hook route current cbs next :
  (forall v, keeps_table (next v)) ->
  keeps_table (run_hook hook route current cbs next).
Proof.
  intros Hnext. destruct hook as [g|g m key|matched]; simpl.
  - now apply run_guard_table.
  - apply run_guard_table. intros v s. rewrite Hnext. now destruct v.
  - now apply resolveAsyncComponents_table.
Qed.

Lemma iterator_next_table cbs k :
  keeps_table k -> forall to, keeps_table (iterator_next cbs k to).
Proof.
  intros Hk to s. unfold iterator_next.
  destruct (is_false to || isError to); simpl; [now rewrite abort_table|].
  destruct (is_redirect to); [|apply Hk].
  destruct (wants_replace to); simpl; now rewrite abort_table.
Qed.

Lemma iterator_table route current cbs hook k :
  keeps_table k -> keeps_table (iterator route current cbs hook k).
Proof.
  intros Hk s. unfold iterator.
  destruct (negb (pending_is route s)); simpl; [now rewrite abort_table|].
  pose proof (run_hook_table hook route current cbs (iterator_next cbs k)
                (iterator_next_table cbs k Hk) s) as Hc.
  destruct (run_hook _ _ _ _ _ s) as [[e|] s']; simpl in *; [|exact Hc].
  now rewrite abort_table.
Qed.

Lemma runQueue_table fn cb :
  (forall hook k, keeps_table k -> keeps_table (fn hook k)) ->
  keeps_table cb ->
  forall queue, keeps_table (runQueue queue fn cb).
Proof.
  intros Hfn Hcb queue. induction queue as [|[hook|] queue IH]; simpl.
  - exact Hcb.
  - now apply Hfn.
  - exact IH.
Qed.

Lemma confirm_table route cbs : keeps_table (confirm route cbs).
Proof.
  intros s. unfold confirm.
  destruct (negb (pending_is route s)); simpl; [now rewrite abort_table|].
  set (s1 := transition_complete cbs route (set_pending None s)).
  assert (H1 : r_matcher s1 = r_matcher s).
  { unfold s1. now rewrite transition_complete_table. }
  now destruct (r_app s1).
Qed.

Lemma enter_phase_table route current cbs activated :
  keeps_table (enter_phase route current cbs activated).
Proof.
  intros s. unfold enter_phase.
  destruct (extractEnterGuards _ activated) as [guards|e]; [|reflexivity].
  rewrite runQueue_table; [reflexivity| |apply confirm_table].
  intros hook k. apply iterator_table.
Qed.

Lemma confirmTransition_table route cbs : keeps_table (confirmTransition route cbs).
Proof.
  intros s. unfold confirmTransition. cbv zeta.
  destruct (_ && _); simpl; [now rewrite abort_table|].
  destruct (guard_queue _ _) as [queue|e]; [|reflexivity].
  rewrite runQueue_table; [reflexivity| |apply enter_phase_table].
  intros hook k. apply iterator_table.
Qed.

(** However a call of [transitionTo] ends, the route table is the one it
    started with. *)
Lemma transitionTo_table fuel location onComplete onAbort s :
  match transitionTo fuel location onComplete onAbort s with
  | Normal s' | Thrown _ s' => r_matcher s' = r_matcher s
  | NoFuel => True
  end.
Proof.
  unfold transitionTo.
  destruct (match_ fuel _ _ _ _) as [r| |]; [|reflexivity|exact I].
  pose proof (confirmTransition_table (with_rt_id (hp_nextRoute s) r)
                (mkTransitionCbs onComplete onAbort)
                (set_nextRoute (S (hp_nextRoute s)) s)) as Hc.
  destruct (confirmTransition _ _ _) as [[e|] s']; exact Hc.
Qed.

End Frame.

(** ** The methods of the router *)

(** C1, as amended.  [addRoutes] extends the route table in place: however
    the call ends, the table of the router is [createRouteMap] of the
    declarations on the three structures it had.  When the current route
    is the sentinel [START] the call starts no transition: it returns,
    and nothing but the table has changed (the current route, the pending
    route and the trace are the same).  When the current route is any
    other route, the call goes on as
    [history.transitionTo(history.getCurrentLocation())] on the extended
    table. *)
Theorem addRoutes_extends_table_then_renavigates :
  forall (ext : Externals) (uc : UserCode) fuel routes s,
    match VueRouter.addRoutes fuel routes s with
    | Normal s' | Thrown _ s' =>
        r_matcher s' = createRouteMap routes (Some (pathList (r_matcher s)))
                                      (Some (pathMap (r_matcher s)))
                                      (Some (nameMap (r_matcher s)))
                                      (nextRecord (r_matcher s))
    | NoFuel => True
    end
    /\ (same_route (h_current s) START = true ->
        exists s',
          VueRouter.addRoutes fuel routes s = Normal s'
          /\ s' = set_matcher (addRoutes routes (r_matcher s)) s
          /\ trace s' = trace s
          /\ h_current s' = h_current s
          /\ h_pending s' = h_pending s)
    /\ (same_route (h_current s) START = false ->
        VueRouter.addRoutes fuel routes s
        = transitionTo fuel (RawString (h_location s)) None None
                       (set_matcher (addRoutes routes (r_matcher s)) s)).
Proof.
  intros ext uc fuel routes s. unfold VueRouter.addRoutes. cbv zeta.
  cbn [h_current set_matcher].
  destruct (same_route (h_current s) START) eqn:E; cbn [negb].
  - split; [reflexivity|]. split; [|discriminate].
    intros _. eexists. repeat split.
  - split; [|split; [discriminate|reflexivity]].
    unfold VueRouter.getCurrentLocation.
    pose proof (transitionTo_table fuel
                  (RawString (h_location (set_matcher (addRoutes routes (r_matcher s)) s)))
                  None None (set_matcher (addRoutes routes (r_matcher s)) s)) as H.
    destruct (transitionTo _ _ _ _ _) as [s'|e s'|]; exact H.
Qed.

(** C1 fails when the current route is not [START].  A router without
    routes has navigated to ["/new"], which matched nothing; the call
    [addRoutes([{ path: '/new' }])] then starts a transition to the
    location of the backend, which commits a new current route, with the
    new record in its matched chain. *)
Lemma addRoutes_restarts_navigation :
  exists s',
    same_route (h_current Example.router_nowhere) (@START Sample.externals) = false
    /\ rt_matched (h_current Example.router_nowhere) = []
    /\ @VueRouter.addRoutes Sample.externals Example.code 3
         [route_decl "/new" None None] Example.router_nowhere = Normal s'
    /\ rt_id (h_current Example.router_nowhere) = 1
    /\ rt_id (h_current s') = 2
    /\ map rec_path (rt_matched (h_current s')) = ["/new"]
    /\ trace s' = trace Example.router_nowhere ++ [EvEnsureURL false]
    /\ h_current s' <> h_current Example.router_nowhere.
Proof.
  eexists. split; [reflexivity|]. split; [reflexivity|].
  split; [vm_compute; reflexivity|].
  split; [reflexivity|]. split; [reflexivity|]. split; [reflexivity|].
  split; [reflexivity|].
  intros H. apply (f_equal rt_id) in H. discriminate.
Qed.

(** A router that is still at [START] and one that has navigated. *)
Lemma addRoutes_extends_table_then_renavigates_witness :
  (exists s',
      @VueRouter.addRoutes Sample.externals Example.code 3
         [route_decl "/new" None None] (Example.new_router [] [] [] "/") = Normal s'
      /\ s' = set_matcher (@addRoutes Sample.externals [route_decl "/new" None None]
                             (r_matcher (Example.new_router [] [] [] "/")))
                          (Example.new_router [] [] [] "/")
      /\ trace s' = []
      /\ h_current s' = @START Sample.externals
      /\ h_pending s' = None)
  /\ @VueRouter.addRoutes Sample.externals Example.code 3
       [route_decl "/new" None None] Example.router_nowhere
     = @transitionTo Sample.externals Example.code 3 (RawString "/new") None None
         (set_matcher (@addRoutes Sample.externals [route_decl "/new" None None]
                         (r_matcher Example.router_nowhere))
                      Example.router_nowhere).
Proof.
  split.
  - apply (proj1 (proj2 (addRoutes_extends_table_then_renavigates
                           Sample.externals Example.code 3
                           [route_decl "/new" None None]
                           (Example.new_router [] [] [] "/")))).
    reflexivity.
  - apply (proj2 (proj2 (addRoutes_extends_table_then_renavigates
                           Sample.externals Example.code 3
                           [route_decl "/new" None None]
                           Example.router_nowhere))).
    reflexivity.
Defined.

Section PromiseLemmas.
Context {ext : Externals} {uc : UserCode}.

Lemma settle_pending p v s :
  hp_promises s !! p = Some Pending ->
  hp_promises (settle p v s) !! p = Some v.
Proof.
  intros H. unfold settle. rewrite H. simpl.
  apply list_lookup_insert_eq. now apply lookup_lt_Some in H.
Qed.

(** The route is committed, and the promise whose [resolve] is the
    [onComplete] the backend was given is fulfilled with it. *)
Lemma confirm_fulfils p b route onAbort s :
  hp_promises s !! p = Some Pending ->
  pending_is route s = true ->
  let o := confirm route
             (mkTransitionCbs (Some (CbBackend b (Some (CbResolve p)))) onAbort) s in
  fst o = None
  /\ h_current (snd o) = route
  /\ hp_promises (snd o) !! p = Some (Fulfilled (ArgRoute route)).
Proof.
  intros Hp Hpend. unfold confirm. rewrite Hpend. cbn [negb].
  unfold transition_complete, updateRoute. cbn [tc_onComplete call_complete].
  set (s1 := emit_all _ _).
  assert (H1 : hp_promises s1 = hp_promises s /\ h_current s1 = route).
  { unfold s1. destruct (h_cb _); now split. }
  destruct H1 as [H1 H1'].
  set (s2 := settle p _ _).
  assert (H2 : hp_promises s2 !! p = Some (Fulfilled (ArgRoute route))
               /\ h_current s2 = route).
  { unfold s2. split.
    - apply settle_pending. cbn [emit set_trace hp_promises]. now rewrite H1.
    - unfold settle.
      destruct (hp_promises (emit (EvBackend b route) s1) !! p) as [[]|]; exact H1'. }
  destruct H2 as [H2 H2'].
  set (s3 := if h_ready (emit (EvEnsureURL false) s2) then _ else _).
  assert (H3 : hp_promises s3 = hp_promises s2 /\ h_current s3 = route).
  { unfold s3. destruct (h_ready _); now split. }
  destruct H3 as [H3 H3']. cbv zeta.
  destruct (r_app s3); simpl; rewrite ?H3; now repeat split.
Qed.

(** [abort] rejects the promise whose [reject] is the [onAbort]. *)
Lemma abort_rejects p onComplete err s :
  hp_promises s !! p = Some Pending ->
  hp_promises (abort (mkTransitionCbs onComplete (Some (CbReject p))) err s) !! p
  = Some (Rejected (ArgValue err)).
Proof.
  intros Hp. unfold abort, transition_abort. cbn [tc_onAbort call_abort].
  set (s1 := if negb (isNavigationDuplicated err) && isError err then _ else s).
  assert (H1 : hp_promises s1 = hp_promises s).
  { unfold s1. destruct (_ && _); [|reflexivity]. now destruct (h_errorCbs s). }
  assert (H2 : hp_promises (settle p (Rejected (ArgValue err)) s1) !! p
               = Some (Rejected (ArgValue err))).
  { apply settle_pending. now rewrite H1. }
  destruct (js_truthy err && negb _); exact H2.
Qed.

End PromiseLemmas.

(** C10.  [push] (and [replace]) called with neither callback, where
    [Promise] is defined, returns a new promise and hands its [resolve]
    and [reject] to the backend as [onComplete] and [onAbort]; an
    exception that escapes the call rejects the promise.  When the
    navigation completes (the second queue ends and the route is
    committed) the promise is fulfilled with the route; when it aborts
    ([abort(err)]) the promise is rejected with [err].  Called with either
    callback, the method returns [undefined] and hands both arguments to
    the backend. *)
Theorem push_promise_or_callbacks :
  forall (ext : Externals) (uc : UserCode),
    (forall fuel location s,
        hasPromise = true ->
        let p := length (hp_promises s) in
        let s0 := set_promises (hp_promises s ++ [Pending]) s in
        let settled := fun r => match r with
                                | Normal s' => Normal s'
                                | Thrown e s' =>
                                    Normal (settle p (Rejected (ArgValue e)) s')
                                | NoFuel => NoFuel
                                end in
        hp_promises s0 !! p = Some Pending
        /\ VueRouter.push fuel location None None s
           = (RetPromise p,
              settled (transitionTo fuel location
                         (Some (CbBackend false (Some (CbResolve p))))
                         (Some (CbReject p)) s0))
        /\ VueRouter.replace fuel location None None s
           = (RetPromise p,
              settled (transitionTo fuel location
                         (Some (CbBackend true (Some (CbResolve p))))
                         (Some (CbReject p)) s0)))
    /\ (forall p b route onAbort s,
           hp_promises s !! p = Some Pending ->
           pending_is route s = true ->
           let o := confirm route
                      (mkTransitionCbs (Some (CbBackend b (Some (CbResolve p))))
                                       onAbort) s in
           fst o = None
           /\ h_current (snd o) = route
           /\ hp_promises (snd o) !! p = Some (Fulfilled (ArgRoute route)))
    /\ (forall p onComplete err s,
           hp_promises s !! p = Some Pending ->
           hp_promises (abort (mkTransitionCbs onComplete (Some (CbReject p))) err s)
             !! p
           = Some (Rejected (ArgValue err)))
    /\ (forall fuel location onComplete onAbort s,
           is_Some onComplete \/ is_Some onAbort ->
           VueRouter.push fuel location onComplete onAbort s
           = (RetUndefined,
              transitionTo fuel location (Some (CbBackend false onComplete)) onAbort s)
           /\ VueRouter.replace fuel location onComplete onAbort s
              = (RetUndefined,
                 transitionTo fuel location (Some (CbBackend true onComplete))
                              onAbort s)).
Proof.
  intros ext uc. split; [|split; [|split]].
  - intros fuel location s HP p s0 settled. split.
    + unfold s0, p. simpl. rewrite lookup_app_r by lia.
      now rewrite Nat.sub_diag.
    + unfold VueRouter.push, VueRouter.replace, VueRouter.new_Promise,
        VueRouter.history_push, VueRouter.history_replace.
      rewrite HP. split; reflexivity.
  - intros p b route onAbort s. apply confirm_fulfils.
  - intros p onComplete err s. apply abort_rejects.
  - intros fuel location oc oa s Hcb.
    unfold VueRouter.push, VueRouter.replace, VueRouter.history_push,
      VueRouter.history_replace.
    assert (negb (bool_decide (is_Some oc)) && negb (bool_decide (is_Some oa))
            = false) as Hb.
    { destruct Hcb as [H|H].
      - now rewrite (bool_decide_eq_true_2 _ H).
      - rewrite (bool_decide_eq_true_2 _ H). apply andb_false_r. }
    rewrite Hb. split; reflexivity.
Qed.

(** [push("/a")] without callbacks on a new router: the promise is
    fulfilled with the committed route.  The same call on a router that is
    at ["/a"]: the promise is rejected with a [NavigationDuplicated]. *)
Lemma push_promise_or_callbacks_witness :
  (exists s',
      @VueRouter.push Sample.externals Example.code 3 (RawString "/a") None None
                      (Example.new_router Example.routes_a [Some 1] [] "/")
      = (RetPromise 0, Normal s')
      /\ hp_promises s' = [Fulfilled (ArgRoute (h_current s'))]
      /\ rt_fullPath (h_current s') = "/a")
  /\ (exists s',
         @VueRouter.push Sample.externals Example.code 3 (RawString "/a") None None
                         Example.router_at_a
         = (RetPromise 0, Normal s')
         /\ hp_promises s'
            = [Rejected (ArgValue (NavigationDuplicated (with_rt_id 2 Example.route_a)))]
         /\ h_current s' = h_current Example.router_at_a).
Proof.
  split.
  - destruct (proj1 (push_promise_or_callbacks Sample.externals Example.code) 3
                (RawString "/a")
                (Example.new_router Example.routes_a [Some 1] [] "/") eq_refl)
      as (_ & Hpush & _).
    eexists. split; [rewrite Hpush; vm_compute; reflexivity|].
    split; reflexivity.
  - destruct (proj1 (push_promise_or_callbacks Sample.externals Example.code) 3
                (RawString "/a") Example.router_at_a eq_refl)
      as (_ & Hpush & _).
    eexists. split; [rewrite Hpush; vm_compute; reflexivity|].
    split; reflexivity.
Defined.

(** ** Lazy views *)

(** C8 at a chain with two factories of which the first resolves while it
    runs.  The counter starts at 0 and counts a factory when the traversal
    reaches it: it is 1 when the first factory is called, 0 when that
    factory resolves, and the continuation is called then, before the
    second factory has been called; the counter is 1 after the traversal,
    never 2.  When the second factory resolves later the continuation is
    called a second time. *)
Lemma sync_factory_fires_continuation_early :
  let s0 := Example.new_router [] [] [] "/" in
  exists s1 s2,
    @resolveAsyncComponents Example.code [two_factory_record]
       (@START Sample.externals) (@START Sample.externals) no_callbacks
       recording_next s0 = ok s1
    /\ trace s1 = [EvFactory 1; EvContinue JsUndefined; EvFactory 2]
    /\ resolution_counters s1 0 = Some (1%Z, None)
    /\ hp_components s1 !! (0, "b") = None
    /\ @factory_call 0 1 (CallResolve (ResolvedPlain (CompOptions noHooks)))
         recording_next s1 = ok s2
    /\ trace s2 = [EvFactory 1; EvContinue JsUndefined; EvFactory 2;
                   EvContinue JsUndefined].
Proof.
  eexists. eexists.
  split; [vm_compute; reflexivity|]. split; [reflexivity|].
  split; [reflexivity|]. split; [reflexivity|].
  split; [vm_compute; reflexivity|]. reflexivity.
Qed.

(** The same chain in a navigation: the continuation called early runs the
    extraction of the enter guards while the second view is still a
    factory, which throws; the exception comes back through the first
    factory into the [catch] around it, and the navigation is aborted
    with it before the second factory is called. *)
Lemma sync_factory_aborts_navigation :
  exists s' e,
    @transitionTo Sample.externals Example.code 3 (RawString "/lazy") None
                  (Some (CbUser 8)) (Example.new_router lazy_routes [] [] "/")
    = Normal s'
    /\ trace s' = [EvFactory 1; EvEnsureURL true; EvUncaughtWarning e;
                   EvOnAbort 8 (ArgValue e); EvFactory 2]
    /\ isError e = true
    /\ h_current s' = @START Sample.externals.
Proof.
  eexists. eexists.
  split; [vm_compute; reflexivity|]. split; [reflexivity|].
  split; reflexivity.
Qed.

(** The two closures of a factory are guarded one by one: after a call of
    [reject], which fails the step, a call of [resolve] of the same
    factory still runs and calls the continuation again; a second call of
    [resolve] does nothing. *)
Lemma resolve_after_reject_runs :
  let s0 := Example.new_router [] [] [] "/" in
  let resolved := CallResolve (ResolvedPlain (CompOptions noHooks)) in
  exists s1 s2 s3 e,
    @resolveAsyncComponents Example.code [one_factory_record]
       (@START Sample.externals) (@START Sample.externals) no_callbacks
       recording_next s0 = ok s1
    /\ trace s1 = [EvFactory 3]
    /\ @factory_call 0 0 (CallReject (JsString "x")) recording_next s1 = ok s2
    /\ trace s2 = [EvFactory 3; EvContinue e] /\ isError e = true
    /\ @factory_call 0 0 resolved recording_next s2 = ok s3
    /\ trace s3 = [EvFactory 3; EvContinue e; EvContinue JsUndefined]
    /\ @factory_call 0 0 resolved recording_next s3 = ok s3.
Proof.
  eexists. eexists. eexists. eexists.
  split; [vm_compute; reflexivity|]. split; [reflexivity|].
  split; [vm_compute; reflexivity|]. split; [reflexivity|].
  split; [reflexivity|].
  split; [vm_compute; reflexivity|]. split; [reflexivity|].
  vm_compute. reflexivity.
Qed.

(** ** The statements above at concrete inputs *)

(** The chains [A,B,C] and [A,B,D] of four records of one tree. *)
Lemma resolveQueue_diff_witness :
  resolveQueue [Example.rec_A; Example.rec_B; Example.rec_C]
               [Example.rec_A; Example.rec_B; Example.rec_D]
  = mkQueueDiff [Example.rec_A; Example.rec_B] [Example.rec_D] [Example.rec_C].
Proof. apply (proj2 resolveQueue_diff). reflexivity. Defined.

(** Matching ["/foo"] by path, twice. *)
Lemma match_by_path_idempotent_witness :
  exists route2,
    @match_ Sample.externals Example.code 3 shadowed_table
            (RawString (rt_fullPath Example.route_foo)) None None = Returns route2
    /\ rt_matched route2 = rt_matched Example.route_foo.
Proof.
  apply (match_by_path_idempotent Sample.externals Example.code 3 shadowed_table
           (RawString "/foo") None None Example.route_foo).
  - reflexivity.
  - reflexivity.
  - intros r ps H. vm_compute in H. injection H as <- _. split; reflexivity.
  - vm_compute. reflexivity.
  - reflexivity.
  - reflexivity.
Defined.

(** A second navigation to ["/a"] from a router that is at ["/a"]. *)
Lemma duplicate_navigation_aborts_witness :
  exists s',
    @transitionTo Sample.externals Example.code 3 (RawString "/a")
                  (Some (CbUser 7)) (Some (CbUser 8)) Example.router_at_a = Normal s'
    /\ h_current s' = h_current Example.router_at_a
    /\ trace s' = trace Example.router_at_a
                  ++ [EvEnsureURL false;
                      EvOnAbort 8 (ArgValue
                                     (NavigationDuplicated
                                        (with_rt_id 2 Example.route_a)))].
Proof.
  destruct (duplicate_navigation_aborts Sample.externals Example.code 3
              (RawString "/a") (Some (CbUser 7)) (Some (CbUser 8))
              Example.router_at_a Example.route_a)
    as (s' & Hrun & _ & Htrace & _ & _ & Hcur & _).
  - vm_compute. reflexivity.
  - reflexivity.
  - reflexivity.
  - exists s'. split; [exact Hrun|]. split; [exact Hcur|]. exact Htrace.
Defined.

(** A navigation to ["/a"] with the global guards 1 (proceeds) and 2
    (refuses). *)
Lemma guard_abort_or_redirect_witness :
  exists s' evs,
    @transitionTo Sample.externals Example.code 3 (RawString "/a") None
                  (Some (CbUser 8))
                  (Example.new_router Example.routes_a [Some 1; Some 2] [] "/")
    = Normal s'
    /\ h_current s' = @START Sample.externals
    /\ trace s' = evs
    /\ evs = [EvGuard 1; EvGuard 2; EvEnsureURL true;
              EvOnAbort 8 (ArgValue (JsBool false))]
    /\ filter (fun e => is_onAbort e = true) evs
       = [EvOnAbort 8 (ArgValue (JsBool false))]
    /\ filter (fun e => is_navigation e = true) evs = [].
Proof.
  apply (proj1 (proj2 (guard_abort_or_redirect Sample.externals Example.code) 3
                  (RawString "/a") None 8
                  (Example.new_router Example.routes_a [Some 1; Some 2] [] "/")
                  Example.route_a [Some (HookGuard 1)] 2 Example.queue_tail_a
                  (JsBool false)
                  ltac:(vm_compute; reflexivity)
                  ltac:(reflexivity)
                  ltac:(vm_compute; reflexivity)
                  ltac:(repeat constructor; exists JsUndefined; split; reflexivity)
                  ltac:(reflexivity))).
  reflexivity.
Defined.

(** A navigation to ["/a"] with the global guards 1 (proceeds) and 5
    (throws an error), and one listener of [onError]. *)
Lemma guard_throw_aborts_witness :
  exists s',
    @transitionTo Sample.externals Example.code 3 (RawString "/a") None
                  (Some (CbUser 8))
                  (Example.new_router Example.routes_a [Some 1; Some 5] [9] "/")
    = Normal s'
    /\ h_current s' = @START Sample.externals
    /\ trace s' = [EvGuard 1; EvGuard 5;
                   EvErrorCb 9 (JsError (mkError false "boom"));
                   EvOnAbort 8 (ArgValue (JsError (mkError false "boom")))].
Proof.
  destruct (proj1 (proj2 (guard_throw_aborts Sample.externals Example.code)) 3
              (RawString "/a") None 8
              (Example.new_router Example.routes_a [Some 1; Some 5] [9] "/")
              Example.route_a [Some (HookGuard 1)] 5 Example.queue_tail_a
              (JsError (mkError false "boom")))
    as (s' & Hrun & Hcur & Htrace).
  - vm_compute. reflexivity.
  - reflexivity.
  - vm_compute. reflexivity.
  - repeat constructor. exists JsUndefined. split; reflexivity.
  - reflexivity.
  - exists s'. split; [exact Hrun|]. split; [exact Hcur|]. exact Htrace.
Defined.

(** C9 fails for a guard that throws a value that is not an error.  With
    the global guards 1 (proceeds) and 4 (throws the string ["boom"]) and
    the listener 9 registered with [onError], the navigation to ["/a"]
    ends with [onAbort("boom")], and the listener is not called. *)
Lemma thrown_string_skips_error_listeners :
  let router := Example.new_router Example.routes_a [Some 1; Some 4] [9] "/" in
  exists s',
    h_errorCbs router = [9]
    /\ @guard_run Example.code 4 (with_rt_id 1 Example.route_a) (@START Sample.externals)
       = mkBehaviour [] (Some (JsString "boom"))
    /\ @transitionTo Sample.externals Example.code 3 (RawString "/a") None
                     (Some (CbUser 8)) router = Normal s'
    /\ trace s' = [EvGuard 1; EvGuard 4; EvOnAbort 8 (ArgValue (JsString "boom"))]
    /\ ~ In (EvErrorCb 9 (JsString "boom")) (trace s').
Proof.
  eexists. split; [reflexivity|]. split; [reflexivity|].
  split; [vm_compute; reflexivity|]. split; [reflexivity|].
  simpl. intros [H|[H|[H|[]]]]; discriminate.
Qed.

(** The named route [user] with pattern [/u/:id/:tab?], from the route of
    ["/u/7/x"]: [id] is inherited, [tab] is not. *)
Lemma named_match_inherits_required_params_witness :
  let params := @inherit_params (required_names Example.user_record) ∅
                                (rt_params Example.route_user7) in
  rt_params Example.route_user7 = {["id" := Some "7"; "tab" := Some "x"]}
  /\ @match_ Sample.externals Example.code 3 Example.user_table
             (RawObject (location_named "user" None))
             (Some Example.route_user7) None
     = @_createRoute Sample.externals Example.code 2 Example.user_table
         (Some Example.user_record)
         (set_loc_path (set_loc_params (location_named "user" None) (Some params))
                       (Some "/u/7"))
         None
  /\ params !! "id" = Some (Some "7")
  /\ params !! "tab" = None.
Proof.
  pose proof (named_match_inherits_required_params Sample.externals Example.code)
    as (Hmatch & _ & Hreq & Hopt & _).
  split; [vm_compute; reflexivity|]. split; [|split].
  - apply (Hmatch 2 Example.user_table (RawObject (location_named "user" None))
                  Example.route_user7 None Example.user_record);
      vm_compute; reflexivity.
  - apply (Hreq Example.user_record ∅ (rt_params Example.route_user7) "id"
                (mkKey (KeyNamed "id") false)).
    + reflexivity.
    + vm_compute. apply list_elem_of_here.
    + reflexivity.
    + reflexivity.
  - apply (Hopt Example.user_record ∅ (rt_params Example.route_user7) "tab").
    + reflexivity.
    + intros key Hin Hname. vm_compute in Hin.
      apply elem_of_cons in Hin as [->|Hin]; [discriminate|].
      apply elem_of_cons in Hin as [->|Hin]; [reflexivity|].
      now apply elem_of_nil in Hin.
Defined.

(* ===================================================================== *)
(** * Further properties                                                 *)
(* ===================================================================== *)

(** ** What the route table keeps and what it gains *)

Section TableGrowth.
Context {ext : Externals}.

Lemma register_path_keeps p r r0 t :
  pathMap t !! p = Some r -> pathMap (register_path r0 t) !! p = Some r.
Proof.
  intros H. unfold register_path.
  destruct (pathMap t !! rec_path r0) eqn:E; [exact H|]. cbn [pathMap].
  rewrite lookup_insert_ne; [exact H|]. intros Heq. rewrite Heq in E. congruence.
Qed.

Lemma register_name_pathMap r0 t : pathMap (register_name r0 t) = pathMap t.
Proof.
  unfold register_name. destruct (rec_name r0) as [n|]; [|reflexivity].
  destruct (truthy (Some n)); [|reflexivity]. now destruct (nameMap t !! n).
Qed.

Lemma register_path_nameMap r0 t : nameMap (register_path r0 t) = nameMap t.
Proof. unfold register_path. now destruct (pathMap t !! rec_path r0). Qed.

Lemma register_name_keeps n r r0 t :
  nameMap t !! n = Some r -> nameMap (register_name r0 t) !! n = Some r.
Proof.
  intros H. unfold register_name. destruct (rec_name r0) as [n0|]; [|exact H].
  destruct (truthy (Some n0)); [|exact H].
  destruct (nameMap t !! n0) eqn:E; [exact H|]. cbn [nameMap].
  rewrite lookup_insert_ne; [exact H|]. intros Heq. rewrite Heq in E. congruence.
Qed.

Lemma addRouteRecords_keeps_path routes t p r :
  pathMap t !! p = Some r -> pathMap (addRouteRecords routes t) !! p = Some r.
Proof.
  apply (addRouteRecords_preserves (fun t' => pathMap t' !! p = Some r)).
  - intros t' H. exact H.
  - intros r0 t'. apply register_path_keeps.
  - intros r0 t' H. now rewrite register_name_pathMap.
Qed.

Lemma addRouteRecords_keeps_name routes t n r :
  nameMap t !! n = Some r -> nameMap (addRouteRecords routes t) !! n = Some r.
Proof.
  apply (addRouteRecords_preserves (fun t' => nameMap t' !! n = Some r)).
  - intros t' H. exact H.
  - intros r0 t' H. now rewrite register_path_nameMap.
  - intros r0 t'. apply register_name_keeps.
Qed.

Lemma createRouteMap_elem routes opl opm onm heap p :
  p ∈ pathList (createRouteMap routes opl opm onm heap)
  <-> p ∈ pathList (addRouteRecords routes
                      (mkRouteMap (default [] opl) (default ∅ opm)
                                  (default ∅ onm) heap)).
Proof.
  pose proof (createRouteMap_pathList routes opl opm onm heap) as Hpl.
  cbv zeta in Hpl. rewrite Hpl. now rewrite partition_Permutation.
Qed.

End TableGrowth.

(** [addRoutes] only adds: a path or a name that has a record keeps that
    record (a later declaration of the same path or name is not
    registered), and a listed path stays listed. *)
Theorem addRoutes_keeps_registered_records :
  forall (ext : Externals) (routes : list RouteConfig) (t : RouteMap),
    (forall p r, pathMap t !! p = Some r ->
                 pathMap (addRoutes routes t) !! p = Some r)
    /\ (forall n r, nameMap t !! n = Some r ->
                    nameMap (addRoutes routes t) !! n = Some r)
    /\ (forall p, p ∈ pathList t -> p ∈ pathList (addRoutes routes t)).
Proof.
  intros ext routes t. unfold addRoutes. split; [|split].
  - intros p r H. unfold createRouteMap. cbn [pathMap default].
    apply addRouteRecords_keeps_path. exact H.
  - intros n r H. unfold createRouteMap. cbn [nameMap default].
    apply addRouteRecords_keeps_name. exact H.
  - intros p H. apply createRouteMap_elem. cbn [default from_option id].
    destruct (addRouteRecords_appends routes
                (mkRouteMap (pathList t) (pathMap t) (nameMap t) (nextRecord t)))
      as [added Ha].
    rewrite Ha. cbn [pathList]. apply elem_of_app. now left.
Qed.

(** The table of ["/a"] (named [a]) extended with another declaration of
    the path ["/a"] under the same name: the first record stays. *)
Lemma addRoutes_keeps_registered_records_witness :
  let t := @createMatcher Sample.externals [route_decl "/a" (Some "a") None] 0 in
  let t' := @addRoutes Sample.externals
              [route_decl "/a" (Some "a") None; route_decl "/b" None None] t in
  (rec_id <$> pathMap t' !! "/a") = Some 0
  /\ (rec_id <$> nameMap t' !! "a") = Some 0
  /\ "/a" ∈ pathList t'.
Proof.
  intros t t'. subst t'.
  destruct (addRoutes_keeps_registered_records Sample.externals
              [route_decl "/a" (Some "a") None; route_decl "/b" None None] t)
    as (Hp & Hn & Hl).
  destruct (pathMap t !! "/a") as [r|] eqn:Er; [|vm_compute in Er; discriminate].
  destruct (nameMap t !! "a") as [r'|] eqn:En; [|vm_compute in En; discriminate].
  split; [|split].
  - rewrite (Hp "/a" r Er). vm_compute in Er. injection Er as <-. reflexivity.
  - rewrite (Hn "a" r' En). vm_compute in En. injection En as <-. reflexivity.
  - apply Hl. vm_compute. apply elem_of_cons. now left.
Defined.

Section RegisteredNames.
Context {ext : Externals}.

Lemma register_path_registers r t : is_Some (pathMap (register_path r t) !! rec_path r).
Proof.
  unfold register_path. destruct (pathMap t !! rec_path r) as [r'|] eqn:E.
  - rewrite E. now exists r'.
  - cbn [pathMap]. rewrite lookup_insert_eq. now exists r.
Qed.

Lemma register_path_keeps_some q r t :
  is_Some (pathMap t !! q) -> is_Some (pathMap (register_path r t) !! q).
Proof. intros [r' H]. exists r'. now apply register_path_keeps. Qed.

Lemma addRouteRecord_keeps_some route parent matchAs t q :
  is_Some (pathMap t !! q) ->
  is_Some (pathMap (addRouteRecord route parent matchAs t) !! q).
Proof.
  apply (addRouteRecord_preserves (fun t' => is_Some (pathMap t' !! q))).
  - intros t' H. exact H.
  - intros r t'. apply register_path_keeps_some.
  - intros r t' H. now rewrite register_name_pathMap.
Qed.

Variable P : RouteMap -> Prop.
Hypothesis P_alloc : forall t, P t -> P (alloc_record t).
Hypothesis P_path : forall r t, P t -> P (register_path r t).
Hypothesis P_name :
  forall r t, P t -> is_Some (pathMap t !! rec_path r) -> P (register_name r t).

(** A property of tables that registration keeps, when the name of a
    record is registered after its path. *)
Lemma addRouteRecord_preserves_named route :
  forall parent matchAs t, P t -> P (addRouteRecord route parent matchAs t).
Proof.
  induction route as [p n c cs rd a ch be m pr sens o IH]
    using RouteConfig_nested_ind.
  intros parent matchAs t Ht. rewrite addRouteRecord_eq.
  set (kids := fun (record : RouteRecord) (matchAs : option string) (t : RouteMap) => _).
  assert (Hkids : forall r m t, P t -> P (kids r m t)).
  { intros r m' t' Ht'. unfold kids. simpl. destruct ch as [l|]; [|exact Ht'].
    apply fold_left_preserves; [|exact Ht'].
    eapply Forall_impl; [exact IH|]. intros child Hc t'' Ht''. now apply Hc. }
  assert (Hkids' : forall q r m t,
             is_Some (pathMap t !! q) -> is_Some (pathMap (kids r m t) !! q)).
  { intros q r m' t' Ht'. unfold kids. simpl. destruct ch as [l|]; [|exact Ht'].
    apply (fold_left_preserves (fun t => is_Some (pathMap t !! q))); [|exact Ht'].
    apply Forall_forall. intros child _ t'' Ht''.
    now apply addRouteRecord_keeps_some. }
  cbv zeta.
  pose proof (add_node_preserves P P_alloc P_path kids
                (mkRouteConfig p n c cs rd a ch be m pr sens o)
                parent matchAs t Hkids Ht) as Hnode.
  destruct (add_node kids _ parent matchAs t) as [record t1] eqn:E.
  simpl in Hnode.
  assert (Hreg : is_Some (pathMap t1 !! rec_path record)).
  { unfold add_node in E. injection E as <- <-. apply register_path_registers. }
  apply P_name; simpl; (destruct a as [a|]; [|assumption]).
  - apply fold_left_preserves; [|exact Hnode].
    apply Forall_forall. intros alias _ t' Ht'.
    destruct (negb production && String.eqb alias p); [exact Ht'|].
    now apply (add_node_preserves P P_alloc P_path).
  - apply (fold_left_preserves (fun t => is_Some (pathMap t !! rec_path record)));
      [|exact Hreg].
    apply Forall_forall. intros alias _ t' Ht'.
    destruct (negb production && String.eqb alias p); [exact Ht'|].
    apply (add_node_preserves (fun t => is_Some (pathMap t !! rec_path record))).
    + intros t'' H. exact H.
    + intros r t''. apply register_path_keeps_some.
    + intros r m' t''. apply Hkids'.
    + exact Ht'.
Qed.

Lemma addRouteRecords_preserves_named routes t :
  P t -> P (addRouteRecords routes t).
Proof.
  intros Ht. unfold addRouteRecords. apply fold_left_preserves; [|exact Ht].
  apply Forall_forall. intros route _ t' Ht'.
  now apply addRouteRecord_preserves_named.
Qed.

End RegisteredNames.

Section NamesConsistent.
Context {ext : Externals}.

Lemma names_consistent_register_path r t :
  names_consistent t -> names_consistent (register_path r t).
Proof.
  intros H n r' Hn. rewrite register_path_nameMap in Hn.
  destruct (H n r' Hn) as (H1 & H2 & H3).
  split; [exact H1|]. split; [exact H2|]. now apply register_path_keeps_some.
Qed.

Lemma names_consistent_register_name r t :
  names_consistent t -> is_Some (pathMap t !! rec_path r) ->
  names_consistent (register_name r t).
Proof.
  intros H Hr n r' Hn. rewrite register_name_pathMap.
  unfold register_name in Hn.
  destruct (rec_name r) as [n0|] eqn:En; [|now apply H].
  destruct (truthy (Some n0)) eqn:Et; [|now apply H].
  destruct (nameMap t !! n0) eqn:E0; [now apply H|].
  cbn [nameMap] in Hn.
  destruct (decide (n = n0)) as [->|Hne].
  - rewrite lookup_insert_eq in Hn. injection Hn as <-.
    split; [exact En|]. split; [|exact Hr].
    intros ->. discriminate.
  - rewrite lookup_insert_ne in Hn by congruence. now apply H.
Qed.

Lemma createRouteMap_names_consistent routes opl opm onm heap :
  names_consistent (mkRouteMap (default [] opl) (default ∅ opm)
                               (default ∅ onm) heap) ->
  names_consistent (createRouteMap routes opl opm onm heap).
Proof.
  intros H. unfold createRouteMap. cbv zeta.
  set (t := addRouteRecords routes _).
  assert (Ht : names_consistent t).
  { unfold t. apply addRouteRecords_preserves_named.
    - intros t' H'. exact H'.
    - intros r t'. apply names_consistent_register_path.
    - intros r t'. apply names_consistent_register_name.
    - exact H. }
  intros n r Hn. exact (Ht n r Hn).
Qed.

End NamesConsistent.

(** In the table of a matcher, however it was built (from a first list of
    declarations, then by any calls of [addRoutes]), the record stored
    under a name carries that name, the name is not empty, and the
    record's path is a key of [pathMap] (registered for this record or
    for an earlier one). *)
Theorem named_records_carry_their_name :
  forall (ext : Externals) first more heap,
    names_consistent (routes_built first more heap).
Proof.
  intros ext first more heap. unfold routes_built.
  assert (H : names_consistent (createMatcher first heap)).
  { apply createRouteMap_names_consistent.
    intros n r Hn. cbn in Hn. now rewrite lookup_empty in Hn. }
  revert H. generalize (createMatcher first heap).
  induction more as [|routes more IH]; intros t Ht; simpl; [exact Ht|].
  apply IH. unfold addRoutes. apply createRouteMap_names_consistent.
  simpl. destruct t; exact Ht.
Qed.

(** The table in which ["/:id"] stands before ["/foo"], named [foo]. *)
Lemma named_records_carry_their_name_witness :
  exists r, nameMap shadowed_table !! "foo" = Some r
            /\ rec_name r = Some "foo" /\ "foo" <> ""
            /\ is_Some (pathMap shadowed_table !! rec_path r).
Proof.
  destruct (nameMap shadowed_table !! "foo") as [r|] eqn:E;
    [|vm_compute in E; discriminate].
  exists r. split; [reflexivity|].
  exact (named_records_carry_their_name Sample.externals
           [route_decl "/:id" None None; route_decl "/foo" (Some "foo") None]
           [] 0 "foo" r E).
Defined.

Section Registration.
Context {ext : Externals}.

Lemma register_name_registers r t n :
  rec_name r = Some n -> truthy (Some n) = true ->
  is_Some (nameMap (register_name r t) !! n).
Proof.
  intros Hn Ht. unfold register_name. rewrite Hn, Ht.
  destruct (nameMap t !! n) as [r'|] eqn:E.
  - rewrite E. now exists r'.
  - cbn [nameMap]. rewrite lookup_insert_eq. now exists r.
Qed.

Lemma addRouteRecord_keeps_some_name route parent matchAs t n :
  is_Some (nameMap t !! n) ->
  is_Some (nameMap (addRouteRecord route parent matchAs t) !! n).
Proof.
  apply (addRouteRecord_preserves (fun t' => is_Some (nameMap t' !! n))).
  - intros t' H. exact H.
  - intros r t' H. now rewrite register_path_nameMap.
  - intros r t' [r' H]. exists r'. now apply register_name_keeps.
Qed.

(** One call of [addRouteRecord] leaves the path of the record it makes
    registered, and its name when it has one. *)
Lemma addRouteRecord_registers route parent matchAs t :
  let record := new_record (nextRecord t) route parent matchAs in
  let t' := addRouteRecord route parent matchAs t in
  is_Some (pathMap t' !! rec_path record)
  /\ (truthy (rc_name route) = true ->
      is_Some (nameMap t' !! default "" (rc_name route))).
Proof.
  cbv zeta. rewrite addRouteRecord_eq.
  set (kids := fun (record : RouteRecord) (matchAs : option string) (t : RouteMap) => _).
  assert (Hkids : forall q r m t,
             is_Some (pathMap t !! q) -> is_Some (pathMap (kids r m t) !! q)).
  { intros q r m' t' Ht'. unfold kids. destruct (rc_children route) as [l|]; [|exact Ht'].
    apply (fold_left_preserves (fun t => is_Some (pathMap t !! q))); [|exact Ht'].
    apply Forall_forall. intros child _ t'' Ht''.
    now apply addRouteRecord_keeps_some. }
  cbv zeta.
  destruct (add_node kids route parent matchAs t) as [record t1] eqn:E.
  assert (Hrec : record = new_record (nextRecord t) route parent matchAs).
  { unfold add_node in E. now injection E as <- _. }
  assert (Hreg : is_Some (pathMap t1 !! rec_path record)).
  { unfold add_node in E. injection E as <- <-. apply register_path_registers. }
  rewrite <- Hrec. split.
  - rewrite register_name_pathMap. destruct (rc_alias route) as [a|]; [|exact Hreg].
    apply (fold_left_preserves (fun t => is_Some (pathMap t !! rec_path record)));
      [|exact Hreg].
    apply Forall_forall. intros alias _ t' Ht'.
    destruct (negb production && String.eqb alias (rc_path route)); [exact Ht'|].
    apply (add_node_preserves (fun t => is_Some (pathMap t !! rec_path record))).
    + intros t'' H. exact H.
    + intros r t''. apply register_path_keeps_some.
    + intros r m' t''. apply Hkids.
    + exact Ht'.
  - intros Hn. destruct (rc_name route) as [n|] eqn:En; [|discriminate].
    apply register_name_registers; [|exact Hn].
    rewrite Hrec. exact En.
Qed.

Lemma addRouteRecords_app pre post t :
  addRouteRecords (pre ++ post) t = addRouteRecords post (addRouteRecords pre t).
Proof. unfold addRouteRecords. apply fold_left_app. Qed.

End Registration.

(** After [createRouteMap], every declaration of the list has its
    normalized path as a key of [pathMap] and as an entry of [pathList]
    (the table it extends being consistent), and every declaration with
    a name has its name as a key of [nameMap]. *)
Theorem declared_routes_are_registered :
  forall (ext : Externals) routes opl opm onm heap route,
    table_consistent (mkRouteMap (default [] opl) (default ∅ opm)
                                 (default ∅ onm) heap) ->
    route ∈ routes ->
    let t' := createRouteMap routes opl opm onm heap in
    let path := normalizePath
                  (rc_path route) None
                  (opt_strict (default noPathToRegexpOptions
                                       (rc_pathToRegexpOptions route))) in
    is_Some (pathMap t' !! path)
    /\ path ∈ pathList t'
    /\ (truthy (rc_name route) = true ->
        is_Some (nameMap t' !! default "" (rc_name route))).
Proof.
  intros ext routes opl opm onm heap route Hc Hin. cbv zeta.
  set (path := normalizePath _ _ _).
  assert (Hsome : is_Some (pathMap (createRouteMap routes opl opm onm heap) !! path)
                  /\ (truthy (rc_name route) = true ->
                      is_Some (nameMap (createRouteMap routes opl opm onm heap)
                                 !! default "" (rc_name route)))).
  { unfold createRouteMap. cbv zeta. cbn [pathMap nameMap].
    set (t0 := mkRouteMap _ _ _ heap).
    apply list_elem_of_split in Hin. destruct Hin as (pre & post & ->).
    rewrite addRouteRecords_app.
    change (pre ++ route :: post) with (pre ++ [route] ++ post).
    set (t1 := addRouteRecords pre t0).
    change (addRouteRecords (route :: post) t1)
      with (addRouteRecords post (addRouteRecord route None None t1)).
    destruct (addRouteRecord_registers route None None t1) as [Hp Hn].
    split.
    - apply (addRouteRecords_preserves (fun t => is_Some (pathMap t !! path)));
        [intros t' H; exact H
        |intros r t'; apply register_path_keeps_some
        |intros r t' H; now rewrite register_name_pathMap
        |exact Hp].
    - intros Ht. specialize (Hn Ht).
      apply (addRouteRecords_preserves
               (fun t => is_Some (nameMap t !! default "" (rc_name route))));
        [intros t' H; exact H
        |intros r t' H; now rewrite register_path_nameMap
        |intros r t' [r' H]; exists r'; now apply register_name_keeps
        |exact Hn]. }
  destruct Hsome as [Hp Hn]. split; [exact Hp|]. split; [|exact Hn].
  apply (createRouteMap_consistent routes) in Hc.
  destruct Hc as (_ & Hdom & _). now apply Hdom.
Qed.

(** The declarations ["/a"] (named [a]) and ["/b/"]. *)
Lemma declared_routes_are_registered_witness :
  let t' := @createRouteMap Sample.externals
              [route_decl "/a" (Some "a") None; route_decl "/b/" None None]
              None None None 0 in
  is_Some (pathMap t' !! "/b") /\ "/b" ∈ pathList t'
  /\ (truthy (@None string) = true -> is_Some (nameMap t' !! "")).
Proof.
  apply (declared_routes_are_registered Sample.externals
           [route_decl "/a" (Some "a") None; route_decl "/b/" None None]
           None None None 0 (route_decl "/b/" None None)).
  - apply empty_table_consistent.
  - apply elem_of_cons. right. apply elem_of_cons. now left.
Defined.

(** ** More about the matcher *)

Section ScanPriority.
Context {ext : Externals}.


End ScanPriority.



Section FillGroups.
Context {ext : Externals}.



End FillGroups.



(** A location that names no record.  With a name that is not in
    [nameMap], or with neither a name nor a path, [match] returns the
    route of the location without a record: it does not throw, and the
    [redirectedFrom] it was given is not passed on. *)
Theorem match_without_record :
  forall (ext : Externals) (uc : UserCode) fuel t raw currentRoute redirectedFrom,
    let location := normalizeLocation raw currentRoute in
    (truthy (loc_name location) = true ->
     nameMap t !! default "" (loc_name location) = None ->
     match_ (S (S fuel)) t raw currentRoute redirectedFrom
     = Returns (createRoute None location None))
    /\ (truthy (loc_name location) = false ->
        truthy (loc_path location) = false ->
        match_ (S (S fuel)) t raw currentRoute redirectedFrom
        = Returns (createRoute None location None)).
Proof.
  intros ext uc fuel t raw cur rf location. split.
  - intros Hn Hnone. rewrite match_S. cbv zeta. fold location.
    rewrite Hn, Hnone. reflexivity.
  - intros Hn Hp. rewrite match_S. cbv zeta. fold location.
    rewrite Hn, Hp. reflexivity.
Qed.

(** The name [nowhere] in the table of ["/:id"] and ["/foo"]. *)
Lemma match_without_record_witness :
  exists route,
    @match_ Sample.externals quiet_code 2 shadowed_table
            (RawObject (location_named "nowhere" None)) None
            (Some (location_named "foo" None))
    = Returns route
    /\ rt_matched route = [] /\ rt_redirectedFrom route = None.
Proof.
  eexists. split.
  - apply (proj1 (match_without_record Sample.externals quiet_code 0 shadowed_table
                    (RawObject (location_named "nowhere" None)) None
                    (Some (location_named "foo" None)))); reflexivity.
  - split; reflexivity.
Defined.

(** ** What every transition keeps *)

Section Invariant.
Context {ext : Externals} {uc : UserCode}.
Variable route : Route.
Variable R : Router -> Router -> Prop.
Hypothesis R_refl : forall s, R s s.
Hypothesis R_trans : forall a b c, R a b -> R b c -> R a c.
Hypothesis R_emit : forall e s, engine_event e = true -> R s (emit e s).
Hypothesis R_abort : forall cbs err s, R s (abort cbs err s).
Hypothesis R_commit :
  forall cbs s, R s (transition_complete cbs route (set_pending None s)).
Hypothesis R_postEnterCbs : forall l s, R s (set_postEnterCbs l s).
Hypothesis R_resolutions : forall l s, R s (set_resolutions l s).
Hypothesis R_components : forall c s, R s (set_components c s).
Hypothesis R_pending : forall s, R s (set_pending (Some route) s).

Lemma keeps_after (f : Router -> Out) s0 s1 :
  keeps R f -> R s0 s1 -> R s0 (snd (f s1)).
Proof. intros Hf H. eapply R_trans; [exact H|apply Hf]. Qed.

Lemma keeps_ok : keeps R ok.
Proof. intros s. apply R_refl. Qed.

Lemma keeps_resolve_call n i v next :
  (forall to, keeps R (next to)) -> keeps R (resolve_call n i v next).
Proof.
  intros Hnext s. unfold resolve_call.
  destruct (hp_resolutions s !! n) as [rs|]; [|apply R_refl].
  destruct (rs_cells rs !! i) as [c|]; [|apply R_refl].
  destruct (cell_resolve_called c); [apply R_refl|].
  cbv zeta. unfold set_resolution.
  set (s1 := set_components _ (set_resolutions _ s)).
  assert (H1 : R s s1).
  { eapply R_trans; [apply R_resolutions|apply R_components]. }
  destruct (_ <=? _)%Z; [|exact H1].
  now apply keeps_after.
Qed.

Lemma keeps_reject_call n i reason next :
  (forall to, keeps R (next to)) -> keeps R (reject_call n i reason next).
Proof.
  intros Hnext s. unfold reject_call.
  destruct (hp_resolutions s !! n) as [rs|]; [|apply R_refl].
  destruct (rs_cells rs !! i) as [c|]; [|apply R_refl].
  destruct (cell_reject_called c); [apply R_refl|].
  cbv zeta. unfold set_resolution.
  destruct (rs_error rs); [apply R_resolutions|].
  apply keeps_after; [apply Hnext|apply R_resolutions].
Qed.

Lemma keeps_factory_calls n i next :
  (forall to, keeps R (next to)) ->
  forall acts, keeps R (factory_calls n i acts next).
Proof.
  intros Hnext acts. induction acts as [|a acts IH]; intros s; [apply R_refl|].
  simpl.
  assert (Ha : R s (snd (factory_call n i a next s))).
  { destruct a; [now apply keeps_resolve_call|now apply keeps_reject_call]. }
  destruct (factory_call n i a next s) as [[e|] s']; simpl in *; [exact Ha|].
  now apply keeps_after.
Qed.

Lemma keeps_resolve_component n next m key :
  (forall to, keeps R (next to)) -> keeps R (resolve_component n next m key).
Proof.
  intros Hnext s. unfold resolve_component.
  destruct (hp_resolutions s !! n) as [rs|]; [|apply R_refl].
  destruct (slot_lookup key (components_of s m)) as [[o|cid o|f]|];
    try apply R_refl.
  cbv zeta. unfold set_resolution.
  set (s1 := emit _ _).
  assert (H1 : R s s1).
  { eapply R_trans; [apply R_resolutions|now apply R_emit]. }
  pose proof (keeps_factory_calls n (length (rs_cells rs)) next Hnext
                (f_sync (factory_run f)) s1) as Hc.
  destruct (factory_calls _ _ _ _ s1) as [[e|] s2]; simpl in Hc.
  - apply keeps_after; [now apply keeps_reject_call|].
    eapply R_trans; eassumption.
  - destruct (f_throws (factory_run f)); simpl.
    + apply keeps_after; [now apply keeps_reject_call|].
      eapply R_trans; eassumption.
    + eapply R_trans; eassumption.
Qed.

Lemma keeps_resolve_slots n next :
  (forall to, keeps R (next to)) ->
  forall slots, keeps R (resolve_slots n next slots).
Proof.
  intros Hnext slots. induction slots as [|[m key] slots IH]; intros s;
    [apply R_refl|].
  simpl. pose proof (keeps_resolve_component n next m key Hnext s) as Hc.
  destruct (resolve_component n next m key s) as [[e|] s']; simpl in *; [exact Hc|].
  now apply keeps_after.
Qed.

Lemma keeps_resolveAsyncComponents matched to from cbs next :
  (forall v, keeps R (next v)) ->
  keeps R (resolveAsyncComponents matched to from cbs next).
Proof.
  intros Hnext s. unfold resolveAsyncComponents. cbv zeta.
  set (s1 := set_resolutions _ s).
  assert (H1 : R s s1) by apply R_resolutions.
  pose proof (keeps_resolve_slots (length (hp_resolutions s)) next Hnext
                (slots_of matched) s1) as Hc.
  destruct (resolve_slots _ _ _ s1) as [[e|] s2]; simpl in Hc;
    [eapply R_trans; eassumption|].
  assert (H2 : R s s2) by (eapply R_trans; eassumption).
  destruct (hp_resolutions s2 !! _) as [rs|]; [|exact H2].
  destruct (rs_hasAsync rs); [exact H2|]. now apply keeps_after.
Qed.

Lemma keeps_guard_calls next :
  (forall to, keeps R (next to)) ->
  forall args, keeps R (guard_calls args next).
Proof.
  intros Hnext args. induction args as [|to args IH]; intros s; [apply R_refl|].
  simpl. pose proof (Hnext to s) as Hc.
  destruct (next to s) as [[e|] s']; simpl in *; [exact Hc|].
  now apply keeps_after.
Qed.

Lemma keeps_run_guard g to from next :
  (forall v, keeps R (next v)) -> keeps R (run_guard g to from next).
Proof.
  intros Hnext s. unfold run_guard. cbv zeta.
  pose proof (keeps_guard_calls next Hnext (calls (guard_run g to from))
                (emit (EvGuard g) s)) as Hc.
  assert (H1 : R s (emit (EvGuard g) s)) by now apply R_emit.
  destruct (guard_calls _ _ _) as [[e|] s']; simpl in *;
    eapply R_trans; eassumption.
Qed.

Lemma keeps_run_hook hook current cbs next :
  (forall v, keeps R (next v)) ->
  keeps R (run_hook hook route current cbs next).
Proof.
  intros Hnext. destruct hook as [g|g m key|matched]; simpl.
  - now apply keeps_run_guard.
  - apply keeps_run_guard. intros v s.
    apply keeps_after; [apply Hnext|].
    destruct v; try apply R_refl. apply R_postEnterCbs.
  - now apply keeps_resolveAsyncComponents.
Qed.

Lemma keeps_iterator_next cbs k :
  keeps R k -> forall to, keeps R (iterator_next cbs k to).
Proof.
  intros Hk to s. unfold iterator_next.
  destruct (is_false to || isError to); simpl.
  { eapply R_trans; [now apply (R_emit (EvEnsureURL true))|apply R_abort]. }
  destruct (is_redirect to); [|apply Hk].
  destruct (wants_replace to); simpl;
    (eapply R_trans; [apply R_abort|now apply R_emit]).
Qed.

Lemma keeps_iterator current cbs hook k :
  keeps R k -> keeps R (iterator route current cbs hook k).
Proof.
  intros Hk s. unfold iterator.
  destruct (negb (pending_is route s)); simpl; [apply R_abort|].
  pose proof (keeps_run_hook hook current cbs (iterator_next cbs k)
                (keeps_iterator_next cbs k Hk) s) as Hc.
  destruct (run_hook _ _ _ _ _ s) as [[e|] s']; simpl in *; [|exact Hc].
  eapply R_trans; [exact Hc|apply R_abort].
Qed.

Lemma keeps_runQueue fn cb :
  (forall hook k, keeps R k -> keeps R (fn hook k)) ->
  keeps R cb ->
  forall queue, keeps R (runQueue queue fn cb).
Proof.
  intros Hfn Hcb queue. induction queue as [|[hook|] queue IH]; simpl.
  - exact Hcb.
  - now apply Hfn.
  - exact IH.
Qed.

Lemma keeps_confirm cbs : keeps R (confirm route cbs).
Proof.
  intros s. unfold confirm.
  destruct (negb (pending_is route s)); simpl; [apply R_abort|].
  set (s1 := transition_complete cbs route (set_pending None s)).
  assert (H1 : R s s1) by apply R_commit.
  destruct (r_app s1); [|exact H1].
  eapply R_trans; [exact H1|now apply R_emit].
Qed.

Lemma keeps_enter_phase current cbs activated :
  keeps R (enter_phase route current cbs activated).
Proof.
  intros s. unfold enter_phase. cbv zeta.
  destruct (extractEnterGuards _ activated) as [guards|e]; simpl;
    [|apply R_postEnterCbs].
  apply keeps_after; [|apply R_postEnterCbs].
  apply keeps_runQueue; [|apply keeps_confirm].
  intros hook k. apply keeps_iterator.
Qed.

Lemma keeps_confirmTransition cbs : keeps R (confirmTransition route cbs).
Proof.
  intros s. unfold confirmTransition. cbv zeta.
  destruct (_ && _); simpl.
  { eapply R_trans; [now apply (R_emit (EvEnsureURL false))|apply R_abort]. }
  destruct (guard_queue _ _) as [queue|e]; simpl; [|apply R_refl].
  apply keeps_after; [|apply R_pending].
  apply keeps_runQueue; [|apply keeps_enter_phase].
  intros hook k. apply keeps_iterator.
Qed.

End Invariant.

(** ** The shape of the state after an end of a navigation *)

Section Shapes.
Context {ext : Externals} {uc : UserCode}.

Lemma set_trace_same s : set_trace (trace s) s = s.
Proof. now destruct s. Qed.

Lemma set_promises_same s : set_promises (hp_promises s) s = s.
Proof. now destruct s. Qed.

Lemma settle_shape p v s : exists ps, settle p v s = set_promises ps s.
Proof.
  unfold settle. destruct (hp_promises s !! p) as [[]|]; eauto;
    exists (hp_promises s); now rewrite set_promises_same.
Qed.

(** A call of an [onComplete] argument changes the trace and the
    promises, nothing else. *)
Lemma call_complete_shape :
  forall cb route s,
    exists tr ps, call_complete cb route s = set_promises ps (set_trace tr s).
Proof.
  fix IH 1. intros [f|p|p|r [inner|]] route s; simpl.
  - exists (trace s ++ [EvOnComplete f route]), (hp_promises s).
    now destruct s.
  - destruct (settle_shape p (Fulfilled (ArgRoute route)) s) as [ps ->].
    exists (trace s), ps. now destruct s.
  - destruct (settle_shape p (Rejected (ArgRoute route)) s) as [ps ->].
    exists (trace s), ps. now destruct s.
  - destruct (IH inner route (emit (EvBackend r route) s)) as (tr & ps & ->).
    exists tr, ps. reflexivity.
  - exists (trace s ++ [EvBackend r route]), (hp_promises s). now destruct s.
Qed.

Lemma call_abort_shape :
  forall cb err s,
    exists tr ps, call_abort cb err s = set_promises ps (set_trace tr s).
Proof.
  fix IH 1. intros [f|p|p|r [inner|]] err s; simpl.
  - exists (trace s ++ [EvOnAbort f (ArgValue err)]), (hp_promises s).
    now destruct s.
  - destruct (settle_shape p (Fulfilled (ArgValue err)) s) as [ps ->].
    exists (trace s), ps. now destruct s.
  - destruct (settle_shape p (Rejected (ArgValue err)) s) as [ps ->].
    exists (trace s), ps. now destruct s.
  - apply IH.
  - exists (trace s), (hp_promises s). now destruct s.
Qed.

(** [abort(err)] changes the trace, the promises and [ready], nothing
    else. *)
Lemma abort_shape cbs err s :
  exists tr ps b, abort cbs err s = set_ready b (set_promises ps (set_trace tr s)).
Proof.
  unfold abort, transition_abort.
  set (s1 := if negb (isNavigationDuplicated err) && isError err then _ else s).
  assert (H1 : exists tr1, s1 = set_trace tr1 s).
  { unfold s1. destruct (_ && _); [destruct (h_errorCbs s)|]; eexists;
      try reflexivity. symmetry. apply set_trace_same. }
  destruct H1 as [tr1 ->].
  assert (H2 : exists tr2 ps,
             match tc_onAbort cbs with
             | Some cb => call_abort cb err (set_trace tr1 s)
             | None => set_trace tr1 s
             end = set_promises ps (set_trace tr2 s)).
  { destruct (tc_onAbort cbs) as [cb|].
    - destruct (call_abort_shape cb err (set_trace tr1 s)) as (tr & ps & ->).
      exists tr, ps. reflexivity.
    - exists tr1, (hp_promises s). now destruct s. }
  destruct H2 as (tr2 & ps & ->).
  destruct (js_truthy err && _).
  - exists (tr2 ++ map (fun f => EvReadyErrorCb f err) (h_readyErrorCbs s)), ps, true.
    reflexivity.
  - exists tr2, ps, (h_ready s). reflexivity.
Qed.

(** The confirmation changes the current route, the trace, the promises
    and [ready], nothing else. *)
Lemma transition_complete_shape cbs route s :
  exists tr ps b,
    transition_complete cbs route s
    = set_ready b (set_promises ps (set_trace tr (set_current route s))).
Proof.
  unfold transition_complete, updateRoute. cbv zeta.
  set (s1 := emit_all _ _).
  assert (H1 : exists tr1, s1 = set_trace tr1 (set_current route s)).
  { unfold s1. destruct (h_cb _); eexists; reflexivity. }
  destruct H1 as [tr1 ->].
  assert (H2 : exists tr2 ps,
             match tc_onComplete cbs with
             | Some cb => call_complete cb route (set_trace tr1 (set_current route s))
             | None => set_trace tr1 (set_current route s)
             end = set_promises ps (set_trace tr2 (set_current route s))).
  { destruct (tc_onComplete cbs) as [cb|].
    - destruct (call_complete_shape cb route (set_trace tr1 (set_current route s)))
        as (tr & ps & ->).
      exists tr, ps. reflexivity.
    - exists tr1, (hp_promises s). now destruct s. }
  destruct H2 as (tr2 & ps & ->).
  destruct (h_ready _).
  - exists (tr2 ++ [EvEnsureURL false]), ps, (h_ready s). reflexivity.
  - exists ((tr2 ++ [EvEnsureURL false])
            ++ map (fun f => EvReadyCb f route) (h_readyCbs s)), ps, true.
    reflexivity.
Qed.

Lemma call_complete_trace :
  forall cb route s,
    trace (call_complete cb route s) = trace s ++ complete_cb_events cb route.
Proof.
  fix IH 1. intros [f|p|p|r [inner|]] route s; simpl.
  - reflexivity.
  - unfold settle. rewrite app_nil_r. now destruct (_ !! _) as [[]|].
  - unfold settle. rewrite app_nil_r. now destruct (_ !! _) as [[]|].
  - rewrite IH. cbn [emit set_trace trace]. now rewrite <- app_assoc.
  - reflexivity.
Qed.

(** Everything the confirmation adds to the trace. *)
Lemma transition_complete_trace cbs route s :
  trace (transition_complete cbs route s) = trace s ++ commit_events cbs route s.
Proof.
  unfold transition_complete, updateRoute, commit_events. cbv zeta.
  set (s1 := emit_all _ _).
  assert (H1 : trace s1
               = trace s ++ match h_cb s with
                            | Some f => [EvListen f route]
                            | None => []
                            end
                 ++ omap (fun hook => (fun f => EvAfterHook f route (h_current s)) <$> hook)
                         (r_afterHooks s)).
  { unfold s1. cbn [h_cb set_current]. destruct (h_cb s); cbn;
      now rewrite <- ?app_assoc. }
  assert (H1' : h_ready s1 = h_ready s /\ h_readyCbs s1 = h_readyCbs s).
  { unfold s1. cbn [h_cb set_current]. now destruct (h_cb s). }
  destruct H1' as [Hr Hc].
  set (s2 := match tc_onComplete cbs with Some cb => _ | None => s1 end).
  assert (H2 : trace s2 = trace s1
                          ++ match tc_onComplete cbs with
                             | Some cb => complete_cb_events cb route
                             | None => []
                             end
               /\ h_ready s2 = h_ready s /\ h_readyCbs s2 = h_readyCbs s).
  { unfold s2. destruct (tc_onComplete cbs) as [cb|].
    - split; [apply call_complete_trace|].
      destruct (call_complete_shape cb route s1) as (tr & ps & ->).
      now split.
    - rewrite app_nil_r. now repeat split. }
  destruct H2 as (H2 & Hr2 & Hc2).
  cbn [h_ready emit set_trace h_readyCbs]. rewrite Hr2.
  destruct (h_ready s); cbn; rewrite ?Hc2, H2, H1, <- ?app_assoc;
    rewrite ?app_nil_r; reflexivity.
Qed.

End Shapes.

(** ** What a call of [transitionTo] can change *)


(** However a call of [transitionTo] ends, what is registered with the
    router is what was registered when it started: the hooks of
    [beforeEach], [beforeResolve] and [afterEach], the route listener,
    the callbacks of [onReady] and [onError], the app, and the
    instances. *)
Theorem transition_keeps_registrations :
  forall (ext : Externals) (uc : UserCode) fuel location onComplete onAbort s,
    match transitionTo fuel location onComplete onAbort s with
    | Normal s' | Thrown _ s' => same_registrations s s'
    | NoFuel => True
    end.
Proof.
  intros ext uc fuel location oc oa s. unfold transitionTo.
  assert (Hrefl : forall a, same_registrations a a) by (intros a; now repeat split).
  destruct (match_ fuel _ _ _ _) as [r| |] eqn:Em; [|apply Hrefl|exact I].
  set (route := with_rt_id (hp_nextRoute s) r).
  pose proof (keeps_confirmTransition route same_registrations Hrefl) as H.
  specialize (H ltac:(intros a b c Hab Hbc;
                      destruct Hab as (?&?&?&?&?&?&?&?&?&?);
                      destruct Hbc as (?&?&?&?&?&?&?&?&?&?);
                      repeat split; congruence)).
  specialize (H ltac:(intros; now repeat split)).
  specialize (H ltac:(intros cbs err s0;
                      destruct (abort_shape cbs err s0) as (tr & ps & b & ->);
                      now repeat split)).
  specialize (H ltac:(intros cbs s0;
                      destruct (transition_complete_shape cbs route (set_pending None s0))
                        as (tr & ps & b & ->); now repeat split)).
  specialize (H ltac:(intros; now repeat split) ltac:(intros; now repeat split)
                ltac:(intros; now repeat split) ltac:(intros; now repeat split)).
  specialize (H (mkTransitionCbs oc oa) (set_nextRoute (S (hp_nextRoute s)) s)).
  destruct (confirmTransition _ _ _) as [[e|] s']; simpl in *; exact H.
Qed.

(** ** The callbacks of [onReady] *)

Lemma filter_all (P : Event -> bool) (l : list Event) :
  Forall (fun e => P e = true) l -> filter (fun e => P e = true) l = l.
Proof.
  intros Hl. induction Hl as [|e l He _ IH]; [reflexivity|].
  rewrite filter_cons_True by exact He. now rewrite IH.
Qed.

Section ReadyEvents.
Context {ext : Externals} {uc : UserCode}.

Lemma abort_cb_events_not_ready cb err :
  Forall (fun e => is_ready_event e = false) (abort_cb_events cb err).
Proof.
  eapply Forall_impl; [apply abort_cb_events_onAbort|].
  intros e He. now destruct e.
Qed.

Lemma complete_cb_events_not_ready :
  forall cb route, Forall (fun e => is_ready_event e = false) (complete_cb_events cb route).
Proof.
  fix IH 1. intros [f|p|p|r [inner|]] route; simpl; repeat constructor.
  apply IH.
Qed.

Lemma filter_ready_abort cbs err s :
  filter (fun e => is_ready_event e = true)
         (listener_events err s ++ onAbort_events (tc_onAbort cbs) err
          ++ ready_error_events err s)
  = ready_error_events err s.
Proof.
  rewrite !filter_app.
  rewrite (filter_none is_ready_event (listener_events err s)).
  2:{ unfold listener_events. destruct (_ && _); [|constructor].
      destruct (h_errorCbs s) as [|f fs]; [now repeat constructor|].
      apply Forall_forall. intros e He.
      apply list_elem_of_fmap in He as (f' & -> & _). reflexivity. }
  rewrite (filter_none is_ready_event (onAbort_events _ _)).
  2:{ unfold onAbort_events. destruct (tc_onAbort cbs); [|constructor].
      apply abort_cb_events_not_ready. }
  cbn [app]. apply filter_all. unfold ready_error_events.
  destruct (_ && _); [|constructor].
  apply Forall_forall. intros e He.
  apply list_elem_of_fmap in He as (f' & -> & _). reflexivity.
Qed.

Lemma filter_ready_commit cbs route s :
  filter (fun e => is_ready_event e = true) (commit_events cbs route s)
  = if h_ready s then [] else map (fun f => EvReadyCb f route) (h_readyCbs s).
Proof.
  unfold commit_events. rewrite !filter_app.
  rewrite (filter_none is_ready_event (match h_cb s with Some _ => _ | None => _ end))
    by (destruct (h_cb s); repeat constructor).
  rewrite (filter_none is_ready_event (omap _ _)).
  2:{ apply Forall_forall. intros e He.
      apply list_elem_of_omap in He as (hook & _ & He).
      destruct hook; [|discriminate]. injection He as <-. reflexivity. }
  rewrite (filter_none is_ready_event
             (match tc_onComplete cbs with Some _ => _ | None => _ end)).
  2:{ destruct (tc_onComplete cbs); [apply complete_cb_events_not_ready|constructor]. }
  rewrite (filter_none is_ready_event [EvEnsureURL false]) by repeat constructor.
  cbn [app]. apply filter_all. destruct (h_ready s); [constructor|].
  apply Forall_forall. intros e He.
  apply list_elem_of_fmap in He as (f' & -> & _). reflexivity.
Qed.

Lemma transition_complete_ready cbs route s :
  h_ready (transition_complete cbs route s) = true.
Proof.
  unfold transition_complete. cbv zeta.
  destruct (h_ready (emit _ _)) eqn:E; [exact E|reflexivity].
Qed.

Lemma abort_ready cbs err s :
  h_ready (abort cbs err s) = h_ready s || js_truthy err.
Proof.
  unfold abort, transition_abort.
  set (s1 := if negb (isNavigationDuplicated err) && isError err then _ else s).
  assert (H1 : h_ready s1 = h_ready s).
  { unfold s1. destruct (_ && _); [|reflexivity]. now destruct (h_errorCbs s). }
  set (s2 := match tc_onAbort cbs with Some cb => _ | None => s1 end).
  assert (H2 : h_ready s2 = h_ready s).
  { unfold s2. destruct (tc_onAbort cbs); [now rewrite call_abort_ready|exact H1]. }
  rewrite H2. destruct (js_truthy err), (h_ready s) eqn:E; simpl; try exact H2.
  reflexivity.
Qed.

End ReadyEvents.

(** A callback given to [onReady] is called at once, without a route,
    when the router is ready, and is stored otherwise.  The first
    confirmation of a navigation makes the router ready and calls the
    stored callbacks, in the order of registration, with the route.  The
    first navigation that ends in [abort(err)] with a truthy [err] makes
    the router ready too, and calls the stored error callbacks with
    [err]; an [abort] with [undefined] or [false] leaves it as it was.
    Once the router is ready no call of [transitionTo] calls a callback
    of [onReady], and the router stays ready. *)
Theorem onReady_callbacks_are_called_once :
  forall (ext : Externals) (uc : UserCode),
    (forall cb errorCb s,
        (h_ready s = true -> onReady cb errorCb s = (Some cb, s))
        /\ (h_ready s = false ->
            exists s',
              onReady cb errorCb s = (None, s')
              /\ h_readyCbs s' = h_readyCbs s ++ [cb]
              /\ h_readyErrorCbs s'
                 = h_readyErrorCbs s ++ match errorCb with
                                        | Some e => [e]
                                        | None => []
                                        end
              /\ h_ready s' = false /\ trace s' = trace s))
    /\ (forall cbs route s,
           h_ready s = false ->
           h_ready (transition_complete cbs route s) = true
           /\ exists evs,
               trace (transition_complete cbs route s) = trace s ++ evs
               /\ filter (fun e => is_ready_event e = true) evs
                  = map (fun f => EvReadyCb f route) (h_readyCbs s))
    /\ (forall cbs err s,
           h_ready s = false ->
           h_ready (abort cbs err s) = js_truthy err
           /\ exists evs,
               trace (abort cbs err s) = trace s ++ evs
               /\ filter (fun e => is_ready_event e = true) evs
                  = if js_truthy err
                    then map (fun f => EvReadyErrorCb f err) (h_readyErrorCbs s)
                    else [])
    /\ (forall fuel location onComplete onAbort s,
           h_ready s = true ->
           match transitionTo fuel location onComplete onAbort s with
           | Normal s' | Thrown _ s' =>
               h_ready s' = true
               /\ filter (fun e => is_ready_event e = true) (trace s')
                  = filter (fun e => is_ready_event e = true) (trace s)
           | NoFuel => True
           end).
Proof.
  intros ext uc. split; [|split; [|split]].
  - intros cb errorCb s. unfold onReady. split; intros Hr; rewrite Hr; [reflexivity|].
    eexists. split; [reflexivity|]. cbn. rewrite Hr.
    destruct errorCb; rewrite ?app_nil_r; now repeat split.
  - intros cbs route s Hr. split; [apply transition_complete_ready|].
    exists (commit_events cbs route s). split; [apply transition_complete_trace|].
    rewrite filter_ready_commit. now rewrite Hr.
  - intros cbs err s Hr. split; [rewrite abort_ready; now rewrite Hr|].
    eexists. split; [apply abort_trace|].
    rewrite filter_ready_abort. unfold ready_error_events. rewrite Hr.
    now destruct (js_truthy err).
  - intros fuel location oc oa s Hr. unfold transitionTo.
    destruct (match_ fuel _ _ _ _) as [r| |] eqn:Em; [|now split|exact I].
    set (route := with_rt_id (hp_nextRoute s) r).
    set (R := fun a b : Router =>
                h_ready a = true ->
                h_ready b = true
                /\ filter (fun e => is_ready_event e = true) (trace b)
                   = filter (fun e => is_ready_event e = true) (trace a)).
    assert (H : keeps R (confirmTransition route (mkTransitionCbs oc oa))).
    { apply keeps_confirmTransition; unfold R.
      - now split.
      - intros a b c Hab Hbc Ha. destruct (Hab Ha) as [Hb Hab'].
        destruct (Hbc Hb) as [Hc Hbc']. split; [exact Hc|congruence].
      - intros e s0 He Ha. split; [exact Ha|].
        cbn [emit set_trace trace]. rewrite filter_app.
        rewrite (filter_none is_ready_event [e]); [now rewrite app_nil_r|].
        constructor; [|constructor]. now destruct e.
      - intros cbs err s0 Ha. split; [rewrite abort_ready; now rewrite Ha|].
        rewrite abort_trace, filter_app, filter_ready_abort.
        unfold ready_error_events. rewrite Ha, andb_false_r. now rewrite app_nil_r.
      - intros cbs s0 Ha. split; [apply transition_complete_ready|].
        rewrite transition_complete_trace, filter_app, filter_ready_commit.
        cbn [h_ready set_pending trace]. rewrite Ha. now rewrite app_nil_r.
      - intros l s0 Ha. now split.
      - intros l s0 Ha. now split.
      - intros l s0 Ha. now split.
      - intros s0 Ha. now split. }
    specialize (H (set_nextRoute (S (hp_nextRoute s)) s) Hr).
    destruct (confirmTransition _ _ _) as [[e|] s']; simpl in *; exact H.
Qed.

(** A callback registered before the first navigation is called by its
    confirmation; a router that is ready calls none in a navigation. *)
Lemma onReady_callbacks_are_called_once_witness :
  let s := snd (onReady 7 (Some 8) (Example.new_router Example.routes_a [] [] "/a")) in
  (h_ready (transition_complete no_callbacks Example.route_a s) = true
   /\ exists evs,
       trace (transition_complete no_callbacks Example.route_a s) = trace s ++ evs
       /\ filter (fun e => is_ready_event e = true) evs
          = map (fun f => EvReadyCb f Example.route_a) [7])
  /\ match @transitionTo Sample.externals Example.code 3 (RawString "/b") None None
             Example.router_at_a with
     | Normal s' | Thrown _ s' =>
         h_ready s' = true
         /\ filter (fun e => is_ready_event e = true) (trace s')
            = filter (fun e => is_ready_event e = true) (trace Example.router_at_a)
     | NoFuel => True
     end.
Proof.
  intros s. split.
  - apply (proj1 (proj2 (onReady_callbacks_are_called_once
                           Sample.externals Example.code))).
    reflexivity.
  - apply (proj2 (proj2 (proj2 (onReady_callbacks_are_called_once
                                  Sample.externals Example.code)))).
    reflexivity.
Defined.

(** ** The order of a navigation *)

(** [runQueue] with a function that, for each entry, does its work and
    then either calls its continuation or returns.  While the entries
    call their continuations they are run in the order of the queue,
    empty entries being skipped, and the callback runs after the last
    one; at the first entry that does not call its continuation the run
    ends: no later entry is run, and the callback is not called. *)
Theorem runQueue_runs_entries_in_order :
  forall (visit : Hook -> Router -> Router) (continues : Hook -> bool)
         (cb : Router -> Out),
    let fn := fun hook (next : Router -> Out) s =>
                if continues hook then next (visit hook s) else ok (visit hook s) in
    let going := fun entry : option Hook =>
                   match entry with Some h => continues h = true | None => True end in
    (forall queue s,
        Forall going queue ->
        runQueue queue fn cb s
        = cb (fold_left (fun s h => visit h s) (omap id queue) s))
    /\ (forall pre h post s,
           Forall going pre -> continues h = false ->
           runQueue (pre ++ Some h :: post) fn cb s
           = ok (visit h (fold_left (fun s h => visit h s) (omap id pre) s))).
Proof.
  intros visit continues cb fn going.
  assert (Hrun : forall pre rest s,
             Forall going pre ->
             runQueue (pre ++ rest) fn cb s
             = runQueue rest fn cb (fold_left (fun s h => visit h s) (omap id pre) s)).
  { induction pre as [|[h|] pre IH]; intros rest s Hpre; [reflexivity| |].
    - apply Forall_cons in Hpre as [Hh Hpre]. simpl in Hh.
      cbn [app runQueue]. unfold fn at 1. rewrite Hh. now rewrite IH.
    - apply Forall_cons in Hpre as [_ Hpre]. cbn [app runQueue]. now rewrite IH. }
  split.
  - intros queue s Hq. rewrite <- (app_nil_r queue) at 1. now rewrite Hrun.
  - intros pre h post s Hpre Hh. rewrite Hrun by exact Hpre.
    cbn [runQueue]. unfold fn. now rewrite Hh.
Qed.

(** Three entries around an empty one; the third does not go on. *)
Lemma runQueue_runs_entries_in_order_witness :
  let visit := fun hook s => match hook with
                             | HookGuard g => emit (EvGuard g) s
                             | _ => s
                             end in
  let continues := fun hook => match hook with
                               | HookGuard 3 => false
                               | _ => true
                               end in
  let fn := fun hook (next : Router -> Out) s =>
              if continues hook then next (visit hook s) else ok (visit hook s) in
  let s := Example.new_router [] [] [] "/" in
  trace (snd (runQueue [Some (HookGuard 1); None; Some (HookGuard 2)] fn
                       (recording_next JsUndefined) s))
  = [EvGuard 1; EvGuard 2; EvContinue JsUndefined]
  /\ trace (snd (runQueue ([Some (HookGuard 1); None] ++ Some (HookGuard 3)
                             :: [Some (HookGuard 2)]) fn
                          (recording_next JsUndefined) s))
     = [EvGuard 1; EvGuard 3].
Proof.
  intros visit continues fn s.
  destruct (runQueue_runs_entries_in_order visit continues
              (recording_next JsUndefined)) as [Hall Hstop].
  split.
  - rewrite Hall; [reflexivity|]. repeat constructor.
  - rewrite Hstop; [reflexivity| |reflexivity]. repeat constructor.
Defined.

Section Superseded.
Context {ext : Externals} {uc : UserCode}.

Lemma runQueue_superseded route current cbs s :
  pending_is route s = false ->
  forall queue,
    runQueue queue (iterator route current cbs) (confirm route cbs) s
    = ok (abort cbs JsUndefined s).
Proof.
  intros Hp queue. induction queue as [|[h|] q IH]; simpl.
  - unfold confirm. now rewrite Hp.
  - unfold iterator. now rewrite Hp.
  - exact IH.
Qed.

End Superseded.

(** A navigation that is no longer the pending one (another navigation
    has started since) is cancelled at the next step it takes: the
    iterator does not call the hook it is given, the rest of the queue is
    not run, and the route is not confirmed, also when the step is the
    end of the queue or the start of the second queue.  The cancellation
    is [abort()] with no value: [onAbort] is called with [undefined], no
    listener of [onError] and no error callback of [onReady] is called,
    and the current route, the pending route and [ready] are as they
    were. *)
Theorem superseded_navigation_is_cancelled :
  forall (ext : Externals) (uc : UserCode) route current cbs s,
    pending_is route s = false ->
    (forall hook k,
        iterator route current cbs hook k s = ok (abort cbs JsUndefined s))
    /\ (forall queue,
           runQueue queue (iterator route current cbs) (confirm route cbs) s
           = ok (abort cbs JsUndefined s))
    /\ (forall activated,
           fst (enter_phase route current cbs activated s) = None ->
           snd (enter_phase route current cbs activated s)
           = abort cbs JsUndefined (set_postEnterCbs [] s))
    /\ h_current (abort cbs JsUndefined s) = h_current s
    /\ h_pending (abort cbs JsUndefined s) = h_pending s
    /\ h_ready (abort cbs JsUndefined s) = h_ready s
    /\ trace (abort cbs JsUndefined s)
       = trace s ++ onAbort_events (tc_onAbort cbs) JsUndefined.
Proof.
  intros ext uc route current cbs s Hp.
  split; [|split; [|split; [|split; [|split; [|split]]]]].
  - intros hook k. unfold iterator. now rewrite Hp.
  - now apply runQueue_superseded.
  - intros activated. unfold enter_phase. cbv zeta.
    destruct (extractEnterGuards _ activated) as [guards|e]; [|discriminate].
    intros _. now rewrite runQueue_superseded.
  - apply abort_current.
  - apply abort_pending.
  - rewrite abort_ready. apply orb_false_r.
  - rewrite abort_trace. unfold listener_events, ready_error_events. simpl.
    now rewrite app_nil_r.
Qed.

(** The router has arrived at ["/a"]; a step of an earlier navigation. *)
Lemma superseded_navigation_is_cancelled_witness :
  let cbs := mkTransitionCbs None (Some (CbUser 8)) in
  @runQueue [Some (HookGuard 1); Some (HookGuard 2)]
     (@iterator Example.code (with_rt_id 5 Example.route_a) (@START Sample.externals) cbs)
     (confirm (with_rt_id 5 Example.route_a) cbs) Example.router_at_a
  = ok (abort cbs JsUndefined Example.router_at_a)
  /\ trace (abort cbs JsUndefined Example.router_at_a)
     = trace Example.router_at_a ++ [EvOnAbort 8 (ArgValue JsUndefined)].
Proof.
  intros cbs.
  destruct (superseded_navigation_is_cancelled Sample.externals Example.code
              (with_rt_id 5 Example.route_a) (@START Sample.externals) cbs
              Example.router_at_a eq_refl)
    as (_ & Hq & _ & _ & _ & _ & Ht).
  split; [apply Hq|exact Ht].
Defined.

Section Pipeline.
Context {ext : Externals} {uc : UserCode}.

Lemma set_postEnterCbs_same s : set_postEnterCbs (hp_postEnterCbs s) s = s.
Proof. now destruct s. Qed.

(** Without a factory the traversal of [resolveAsyncComponents] does
    nothing. *)
Lemma resolve_slots_no_factory n next :
  forall slots s,
    Forall (fun mk => match slot_lookup (snd mk) (components_of s (fst mk)) with
                      | Some (CompFactory _) => False
                      | _ => True
                      end) slots ->
    resolve_slots n next slots s = ok s.
Proof.
  induction slots as [|[m key] slots IH]; intros s Hs; [reflexivity|].
  apply Forall_cons in Hs as [Hm Hs]. simpl in Hm.
  cbn [resolve_slots]. unfold resolve_component.
  destruct (hp_resolutions s !! n) as [rs|];
    [destruct (slot_lookup key (components_of s m)) as [[o|cid o|f]|];
     try contradiction|]; now apply IH.
Qed.

(** The last entry of the first queue, when no activated record holds a
    factory: the continuation is called at once. *)
Lemma iterator_resolve_no_factory route current cbs act k s x :
  pending_is route s = true ->
  no_factories s act ->
  k (set_resolutions
       (hp_resolutions s ++ [mkResolution route current act cbs false 0%Z None []]) s)
  = ok x ->
  iterator route current cbs (HookResolve act) k s = ok x.
Proof.
  intros Hp Hnf Hk. unfold iterator. rewrite Hp. cbn [negb run_hook].
  unfold resolveAsyncComponents. cbv zeta.
  rewrite resolve_slots_no_factory by exact Hnf.
  unfold ok at 1. cbn [hp_resolutions set_resolutions].
  rewrite lookup_app_r by lia. rewrite Nat.sub_diag. cbn [lookup list_lookup rs_hasAsync].
  unfold iterator_next. cbn [is_false isError is_redirect orb].
  now rewrite Hk.
Qed.

(** The iterator on a [routeEnterGuard] whose guard calls [next] once,
    with a value that lets the queue go on. *)
Lemma iterator_enter_proceed route current cbs g m key k s to :
  pending_is route s = true ->
  guard_run g route current = mkBehaviour [to] None ->
  proceeding_value to = true ->
  iterator route current cbs (HookEnter g m key) k s
  = match k (set_postEnterCbs (hp_postEnterCbs s ++ post_enter_cb to m key)
                              (emit (EvGuard g) s)) with
    | (Some e, s') => ok (abort cbs e s')
    | (None, s') => ok s'
    end.
Proof.
  intros Hp Hg Hto. unfold iterator. rewrite Hp. cbn [negb run_hook].
  unfold run_guard. rewrite Hg. cbn [calls throws guard_calls].
  rewrite (iterator_next_proceed _ _ _ _ Hto).
  assert (Hs : match to with
               | JsFunction f =>
                   set_postEnterCbs
                     (hp_postEnterCbs (emit (EvGuard g) s) ++ [mkPostEnterCb f (rec_id m) key])
                     (emit (EvGuard g) s)
               | _ => emit (EvGuard g) s
               end
               = set_postEnterCbs (hp_postEnterCbs s ++ post_enter_cb to m key)
                                  (emit (EvGuard g) s)).
  { destruct to; try reflexivity;
      cbn [post_enter_cb]; rewrite app_nil_r;
      symmetry; apply (set_postEnterCbs_same (emit (EvGuard g) s)). }
  rewrite Hs.
  destruct (k _) as [[e|] s']; reflexivity.
Qed.

Lemma after_entries_step route current entry pre s evs cbl :
  enter_events (entry :: pre) = evs ++ enter_events pre ->
  enter_callbacks route current (entry :: pre)
  = cbl ++ enter_callbacks route current pre ->
  after_entries route current (entry :: pre) s
  = after_entries route current pre
      (set_postEnterCbs (hp_postEnterCbs s ++ cbl) (emit_all evs s)).
Proof.
  intros He Hc. unfold after_entries. rewrite He, Hc.
  unfold emit_all, set_postEnterCbs, set_trace. cbn.
  now rewrite !app_assoc.
Qed.

Lemma after_entries_nil route current s : after_entries route current [] s = s.
Proof.
  unfold after_entries, emit_all, enter_callbacks, enter_events. cbn.
  rewrite !app_nil_r. now destruct s.
Qed.

(** A run through entries of the second queue that let it go on reaches
    the rest of the queue. *)
Lemma runQueue_enter_proceeding route current cbs cb :
  forall pre rest s x,
    Forall (enter_proceeds route current) pre ->
    pending_is route s = true ->
    runQueue rest (iterator route current cbs) cb (after_entries route current pre s)
    = ok x ->
    runQueue (pre ++ rest) (iterator route current cbs) cb s = ok x.
Proof.
  induction pre as [|entry pre IH]; intros rest s x Hpre Hp Hrest.
  - now rewrite after_entries_nil in Hrest.
  - apply Forall_cons in Hpre as [Hentry Hpre].
    destruct entry as [[g|g m key|matched]|]; simpl in Hentry; try contradiction.
    + destruct Hentry as (to & Hg & Hto).
      cbn [app runQueue]. rewrite (iterator_single _ _ _ _ _ _ to Hp Hg).
      rewrite (iterator_next_proceed _ _ _ _ Hto).
      rewrite (IH rest (emit (EvGuard g) s) x Hpre); [reflexivity|exact Hp|].
      rewrite (after_entries_step route current _ pre s [EvGuard g] [])
        in Hrest by reflexivity.
      rewrite app_nil_r in Hrest.
      change (set_postEnterCbs (hp_postEnterCbs s) (emit_all [EvGuard g] s))
        with (set_postEnterCbs (hp_postEnterCbs (emit (EvGuard g) s))
                               (emit (EvGuard g) s)) in Hrest.
      now rewrite set_postEnterCbs_same in Hrest.
    + destruct Hentry as (to & Hg & Hto).
      cbn [app runQueue]. rewrite (iterator_enter_proceed _ _ _ _ _ _ _ _ to Hp Hg Hto).
      rewrite (IH rest _ x Hpre); [reflexivity|exact Hp|].
      rewrite (after_entries_step route current _ pre s [EvGuard g]
                 (post_enter_cb to m key)) in Hrest; [exact Hrest|reflexivity|].
      unfold enter_callbacks. cbn [map flatten concat]. now rewrite Hg.
    + cbn [app runQueue]. apply IH; assumption.
Qed.

End Pipeline.

(** A navigation in which every guard lets the queue go on and no
    activated record holds a factory is confirmed by the call of
    [transitionTo] itself, and everything happens in this order: the
    [beforeRouteLeave] guards, the [beforeEach] hooks, the
    [beforeRouteUpdate] guards, the [beforeEnter] guards of the activated
    records, the [beforeRouteEnter] guards, the [beforeResolve] hooks;
    then the route becomes the current one and the route listener, the
    [afterEach] hooks (with the new and the previous route), [onComplete],
    [ensureURL()] and, the first time, the callbacks of [onReady] are
    called; last, when the router has an app, the functions the
    [beforeRouteEnter] guards gave to [next] are handed to [$nextTick].
    No navigation is pending afterwards. *)
Theorem confirmed_navigation_runs_in_order :
  forall (ext : Externals) (uc : UserCode) fuel location onComplete onAbort s r
         leave update enter,
    let route := with_rt_id (hp_nextRoute s) r in
    let current := h_current s in
    let d := resolveQueue (rt_matched current) (rt_matched r) in
    let cbs := mkTransitionCbs onComplete onAbort in
    match_ fuel (r_matcher s) location (Some current) None = Returns r ->
    isSameRoute route current
    && (length (rt_matched r) =? length (rt_matched current))%nat = false ->
    extractLeaveGuards s (deactivated d) = inl leave ->
    extractUpdateHooks s (updated d) = inl update ->
    extractEnterGuards s (activated d) = inl enter ->
    no_factories s (activated d) ->
    Forall (proceeds route current) (first_queue s d leave update) ->
    Forall (enter_proceeds route current) (second_queue s enter) ->
    exists s',
      transitionTo fuel location onComplete onAbort s = Normal s'
      /\ h_current s' = route
      /\ h_pending s' = None
      /\ h_ready s' = true
      /\ trace s'
         = trace s ++ guard_events (first_queue s d leave update)
           ++ enter_events (second_queue s enter)
           ++ commit_events cbs route s
           ++ match r_app s with
              | Some _ => [EvNextTick (enter_callbacks route current
                                         (second_queue s enter))]
              | None => []
              end.
Proof.
  intros ext uc fuel location oc oa s r leave update enter route current d cbs
         Hm Hd Hleave Hupdate Henter Hnf Hq1 Hq2.
  set (q1 := first_queue s d leave update) in *.
  set (q2 := second_queue s enter) in *.
  set (s0 := set_pending (Some route) (set_nextRoute (S (hp_nextRoute s)) s)).
  set (s1 := emit_all (guard_events q1) s0).
  set (s2 := set_postEnterCbs []
               (set_resolutions
                  (hp_resolutions s1
                   ++ [mkResolution route current (activated d) cbs false 0%Z None []])
                  s1)).
  set (s3 := after_entries route current q2 s2).
  set (s4 := transition_complete cbs route (set_pending None s3)).
  set (s5 := match r_app s4 with
             | Some _ => emit (EvNextTick (hp_postEnterCbs s4)) s4
             | None => s4
             end).
  assert (Hpend : forall st, h_pending st = Some route -> pending_is route st = true).
  { intros st Hst. unfold pending_is. rewrite Hst. apply Nat.eqb_refl. }
  exists s5. split.
  { rewrite (transitionTo_matched _ _ _ _ _ _ Hm).
    rewrite (confirmTransition_queue _ _ _ (q1 ++ [Some (HookResolve (activated d))]));
      [|exact Hd|].
    2:{ change (guard_queue (set_nextRoute (S (hp_nextRoute s)) s) d
                = inl (q1 ++ [Some (HookResolve (activated d))])).
        unfold guard_queue.
        change (extractLeaveGuards (set_nextRoute (S (hp_nextRoute s)) s)
                                   (deactivated d))
          with (extractLeaveGuards s (deactivated d)).
        change (extractUpdateHooks (set_nextRoute (S (hp_nextRoute s)) s)
                                   (updated d))
          with (extractUpdateHooks s (updated d)).
        rewrite Hleave, Hupdate.
        unfold q1, first_queue. cbn [r_beforeHooks set_nextRoute].
        now rewrite <- !app_assoc. }
    change (run_of (runQueue (q1 ++ [Some (HookResolve (activated d))])
                             (iterator route current cbs)
                             (enter_phase route current cbs (activated d)) s0)
            = Normal s5).
    erewrite runQueue_proceeding with (x := s5);
      [reflexivity|exact Hq1|now apply Hpend|].
    fold s1. cbn [runQueue].
    apply iterator_resolve_no_factory; [now apply Hpend|exact Hnf|].
    unfold enter_phase. cbv zeta. fold s2.
    change (extractEnterGuards s2 (activated d))
      with (extractEnterGuards s (activated d)).
    rewrite Henter.
    change (enter ++ map (fmap HookGuard) (r_resolveHooks s2)) with q2.
    rewrite <- (app_nil_r q2).
    apply runQueue_enter_proceeding; [exact Hq2|now apply Hpend|].
    fold s3. cbn [runQueue]. unfold confirm.
    rewrite (Hpend s3) by reflexivity. reflexivity. }
  destruct (transition_complete_shape cbs route (set_pending None s3))
    as (tr & ps & b & Hshape).
  assert (H4 : h_current s4 = route /\ h_pending s4 = None /\ r_app s4 = r_app s
               /\ hp_postEnterCbs s4 = enter_callbacks route current q2).
  { unfold s4. rewrite Hshape. now repeat split. }
  destruct H4 as (Hc4 & Hp4 & Ha4 & Hcb4).
  assert (Hr4 : h_ready s4 = true) by apply transition_complete_ready.
  assert (Ht4 : trace s4 = trace s ++ guard_events q1 ++ enter_events q2
                           ++ commit_events cbs route s).
  { unfold s4. rewrite transition_complete_trace.
    change (commit_events cbs route (set_pending None s3))
      with (commit_events cbs route s).
    change (trace (set_pending None s3))
      with ((trace s ++ guard_events q1) ++ enter_events q2).
    now rewrite <- !app_assoc. }
  unfold s5. rewrite Ha4.
  destruct (r_app s) as [app|]; cbn [emit set_trace h_current h_pending h_ready trace].
  - rewrite Hc4, Hp4, Hr4, Ht4, Hcb4. repeat split.
    now rewrite <- !app_assoc.
  - rewrite Hc4, Hp4, Hr4, Ht4. repeat split. now rewrite app_nil_r.
Qed.

(** The first navigation of [guarded_router], to ["/a"]. *)
Lemma confirmed_navigation_runs_in_order_witness :
  exists s',
    @transitionTo Sample.externals enter_code 3 (RawString "/a") None None
                  guarded_router = Normal s'
    /\ h_current s' = with_rt_id 1 guarded_route
    /\ h_pending s' = None
    /\ h_ready s' = true
    /\ trace s'
       = [EvGuard 1; EvGuard 9; EvGuard 7; EvGuard 12;
          EvListen 13 (with_rt_id 1 guarded_route);
          EvAfterHook 11 (with_rt_id 1 guarded_route) (@START Sample.externals);
          EvEnsureURL false;
          EvReadyCb 14 (with_rt_id 1 guarded_route);
          EvNextTick [mkPostEnterCb 70 0 "default"]].
Proof.
  destruct (confirmed_navigation_runs_in_order Sample.externals enter_code 3
              (RawString "/a") None None guarded_router guarded_route
              [] [] [Some (HookEnter 7 (default Example.rec_A
                                          (head (rt_matched guarded_route)))
                                     "default")])
    as (s' & Hrun & Hc & Hp & Hr & Ht).
  - reflexivity.
  - reflexivity.
  - reflexivity.
  - reflexivity.
  - reflexivity.
  - unfold no_factories. vm_compute. repeat constructor.
  - repeat constructor; exists JsUndefined; split; reflexivity.
  - repeat constructor.
    + exists (JsFunction 70). split; reflexivity.
    + exists JsUndefined. split; reflexivity.
  - exists s'. split; [exact Hrun|]. split; [exact Hc|]. split; [exact Hp|].
    split; [exact Hr|exact Ht].
Defined.
